(** * rql: a shallow embedding of the query parser (rql.go, config.go)

    The development follows the Go sources:
    - the dynamic values that travel through [interface{}] slots,
    - the [unicode] helpers and [Column] (rql.go, lines 217-232),
    - validators and converters (rql.go, lines 600-686),
    - the parse state, an append-only buffer with its argument list,
      and the three mutually dependent walkers [and], [relOp], [field],
    - [sort] and the entry points [ParseQuery] and [Parse].

    Panics are modelled by an error monad with two kinds of failure:
    a [*ParseError] raised by [expect]/[must], which [ParseQuery]
    recovers, and any other runtime panic, which it re-raises. *)

From Stdlib Require Import ZArith List Ascii String Bool Lia QArith DecimalString.
From stdpp Require Import gmap strings.

Import ListNotations.
Local Open Scope string_scope.
Local Open Scope list_scope.
Local Open Scope Z_scope.

#[local] Arguments String.append : simpl nomatch.

(** ** Strings

    A Go string is a sequence of bytes; [string] is a list of [ascii],
    one per byte. *)

Definition byte_string (c : ascii) : string := String c EmptyString.

(** [strings.Join(elems, sep)] *)
Fixpoint Join (elems : list string) (sep : string) : string :=
  match elems with
  | [] => ""
  | [e] => e
  | e :: rest => e +:+ sep +:+ Join rest sep
  end.

(** [strings.HasPrefix(s, prefix)] *)
Fixpoint HasPrefix (s pre : string) : bool :=
  match pre, s with
  | EmptyString, _ => true
  | String _ _, EmptyString => false
  | String a pre', String b s' => Ascii.eqb a b && HasPrefix s' pre'
  end.

(** [s[n:]] for [n <= len(s)] *)
Fixpoint drop_bytes (n : nat) (s : string) : string :=
  match n, s with
  | O, _ => s
  | S n', String _ s' => drop_bytes n' s'
  | S _, EmptyString => EmptyString
  end.

(** [strings.Replace(s, old, new, -1)] for a non-empty [old]: every
    non-overlapping occurrence, scanning from the left.  With an empty
    [old] Go inserts [new] before every byte and at the end. *)
Fixpoint replace_from (fuel : nat) (s old new : string) : string :=
  match fuel with
  | O => s
  | S fuel' =>
      match s with
      | EmptyString => EmptyString
      | String c s' =>
          if HasPrefix s old
          then new +:+ replace_from fuel' (drop_bytes (String.length old) s) old new
          else String c (replace_from fuel' s' old new)
      end
  end.

Fixpoint intersperse_before (new s : string) : string :=
  match s with
  | EmptyString => new
  | String c s' => new +:+ String c (intersperse_before new s')
  end.

Definition ReplaceAll (s old new : string) : string :=
  match old with
  | EmptyString => intersperse_before new s
  | _ => replace_from (String.length s) s old new
  end.

(** Number of occurrences of a byte in a string. *)
Fixpoint count_byte (c : ascii) (s : string) : nat :=
  match s with
  | EmptyString => O
  | String a s' => (if Ascii.eqb a c then 1 else 0)%nat + count_byte c s'
  end.

(** ** The [unicode] helpers on Latin-1 runes

    [Column] reads its argument byte by byte and turns each byte into
    a rune, so only the runes 0..255 reach the [unicode] package. *)

Definition rune := Z.

Definition rune_of_byte (c : ascii) : rune := Z.of_N (N_of_ascii c).

Definition in_range (lo hi r : rune) : bool := (lo <=? r) && (r <=? hi).

Definition IsUpper (r : rune) : bool :=
  in_range 65 90 r || in_range 192 214 r || in_range 216 222 r.

Definition IsLower (r : rune) : bool :=
  in_range 97 122 r || (r =? 181) || in_range 223 246 r || in_range 248 255 r.

Definition IsLetter (r : rune) : bool :=
  IsUpper r || IsLower r || (r =? 170) || (r =? 186).

Definition ToLower (r : rune) : rune :=
  if IsUpper r then r + 32 else r.

Definition byte_of_Z (z : Z) : ascii := ascii_of_N (Z.to_N z).

(** [strings.Builder.WriteRune]: the UTF-8 encoding of a rune below
    0x800 (one byte below 0x80, two bytes otherwise). *)
Definition utf8 (r : rune) : string :=
  if r <? 128 then byte_string (byte_of_Z r)
  else String (byte_of_Z (Z.lor 192 (Z.shiftr r 6)))
         (byte_string (byte_of_Z (Z.lor 128 (Z.land r 63)))).

(** ** Column (rql.go, 217-232) *)

(** [s[i]]; the loop only reads indices inside the string. *)
Definition byte_at (s : string) (i : nat) : rune :=
  match String.get i s with
  | Some c => rune_of_byte c
  | None => 0
  end.

Definition Column_step (s : string) (b : string) (i : nat) : string :=
  let r := byte_at s i in
  let b :=
    if (0 <? i)%nat && (i <? String.length s - 1)%nat && IsUpper r &&
       (IsLower (byte_at s (i - 1)) ||
        IsLower (byte_at s (i + 1)) && IsLetter (byte_at s (i - 1)))
    then b +:+ "_" else b in
  b +:+ utf8 (ToLower r).

Definition Column (s : string) : string :=
  fold_left (Column_step s) (seq 0 (String.length s)) "".

(** ** The naming rule in words

    The rule of the specification, read character by character on
    ASCII identifiers: the identifier is cut into words in front of
    every boundary character, the words are joined with underscores
    and the result is lower-cased.  [rule_split] is parametric in the
    boundary test, which sees the previous character, the current one
    and the next one. *)

Module Naming.

Definition upper (c : ascii) : bool :=
  (65 <=? nat_of_ascii c)%nat && (nat_of_ascii c <=? 90)%nat.
Definition lower (c : ascii) : bool :=
  (97 <=? nat_of_ascii c)%nat && (nat_of_ascii c <=? 122)%nat.
Definition letter (c : ascii) : bool := upper c || lower c.

Definition to_lower (c : ascii) : ascii :=
  if upper c then ascii_of_nat (nat_of_ascii c + 32) else c.

Fixpoint lower_case (s : string) : string :=
  match s with
  | EmptyString => EmptyString
  | String c s' => String (to_lower c) (lower_case s')
  end.

Definition holds (P : ascii -> bool) (o : option ascii) : bool :=
  match o with Some c => P c | None => false end.

(** The boundary of the specification: an uppercase letter preceded by
    a lowercase letter, or an uppercase letter followed by a lowercase
    letter whose preceding character is a letter. *)
Definition boundary (prev : option ascii) (c : ascii) (next : option ascii) : bool :=
  upper c && (holds lower prev || holds lower next && holds letter prev).

(** The same boundary, except that the last character of the
    identifier never starts a word. *)
Definition inner_boundary (prev : option ascii) (c : ascii) (next : option ascii) : bool :=
  match next with
  | Some _ => boundary prev c next
  | None => false
  end.

Definition first_byte (s : string) : option ascii :=
  match s with
  | EmptyString => None
  | String c _ => Some c
  end.

Section Split.
Variable bnd : option ascii -> ascii -> option ascii -> bool.

(** [cur] is the word being read, [prev] the character before [s]. *)
Fixpoint words_from (prev : option ascii) (cur s : string) : list string :=
  match s with
  | EmptyString => [cur]
  | String c s' =>
    if bnd prev c (first_byte s')
    then cur :: words_from (Some c) (byte_string c) s'
    else words_from (Some c) (cur +:+ byte_string c) s'
  end.

Definition rule_split (s : string) : list string := words_from None "" s.

Definition rule (s : string) : string := lower_case (Join (rule_split s) "_").
End Split.

(** The rule as one pass: an underscore in front of every boundary
    character, every character lower-cased. *)
Fixpoint underscored (bnd : option ascii -> ascii -> option ascii -> bool)
         (prev : option ascii) (s : string) : string :=
  match s with
  | EmptyString => EmptyString
  | String c s' =>
      (if bnd prev c (first_byte s') then "_" else "") +:+
      String (to_lower c) (underscored bnd (Some c) s')
  end.

Fixpoint last_byte (s : string) : option ascii :=
  match s with
  | EmptyString => None
  | String c EmptyString => Some c
  | String _ s' => last_byte s'
  end.

Fixpoint ascii_only (s : string) : bool :=
  match s with
  | EmptyString => true
  | String c s' => (nat_of_ascii c <? 128)%nat && ascii_only s'
  end.

End Naming.

(** ** Dynamic values

    What an [interface{}] slot holds in this program: the shapes the
    JSON decoder produces ([nil], [bool], [float64], [string],
    [[]interface{}], [map[string]interface{}]), the [int] made by
    [convertInt] and the [time.Time] made by [convertTime].

    [F64Finite neg m e] is the number (-1)^neg * m * 2^e.

    A Go map is ranged over in an order the runtime picks; a map value
    is the list of its entries in the order the range statement visits
    them, so a statement about every list is a statement about every
    order.

    A [time.Time] is kept as the layout and the text it was parsed
    from. *)

Inductive float64 :=
| F64Zero (neg : bool)
| F64Inf (neg : bool)
| F64NaN
| F64Finite (neg : bool) (m : positive) (e : Z).

#[local] Unset Elimination Schemes.
Inductive value :=
| VNil
| VBool (b : bool)
| VFloat64 (x : float64)
| VString (s : string)
| VSlice (l : list value)
| VMap (m : list (string * value))
| VInt (n : Z)
| VTime (layout s : string).
#[local] Set Elimination Schemes.

(** [v.(map[string]interface{})] and [v.(float64)] in their
    two-result form. *)
Definition as_map (v : value) : list (string * value) * bool :=
  match v with
  | VMap m => (m, true)
  | _ => ([], false)
  end.

Definition as_float64 (v : value) : float64 * bool :=
  match v with
  | VFloat64 x => (x, true)
  | _ => (F64Zero false, false)
  end.

(** [reflect.TypeOf(v).Kind().String()] *)
Definition kind_string (v : value) : string :=
  match v with
  | VNil => "nil"
  | VBool _ => "bool"
  | VFloat64 _ => "float64"
  | VString _ => "string"
  | VSlice _ => "slice"
  | VMap _ => "map"
  | VInt _ => "int"
  | VTime _ _ => "struct"
  end.

(** ** Floating point: what [validateInt], [validateUInt] and
    [convertInt] use *)

(** The magnitude of a finite number cut to an integer:
    [m * 2^e] for [e >= 0], [m / 2^(-e)] rounded down otherwise. *)
Definition magnitude (m : positive) (e : Z) : Z := Z.shiftl (Z.pos m) e.

(** [math.Trunc] *)
Definition Trunc (x : float64) : float64 :=
  match x with
  | F64Finite neg m e =>
      if 0 <=? e then x
      else match magnitude m e with
           | Z.pos q => F64Finite neg q 0
           | _ => F64Zero neg
           end
  | _ => x
  end.

(** [x == y] on floats: NaN differs from everything, the two zeros
    are equal, finite numbers are compared by value. *)
Definition f64_eqb (x y : float64) : bool :=
  match x, y with
  | F64NaN, _ | _, F64NaN => false
  | F64Zero _, F64Zero _ => true
  | F64Inf a, F64Inf b => Bool.eqb a b
  | F64Finite s1 m1 e1, F64Finite s2 m2 e2 =>
      Bool.eqb s1 s2 &&
      (Z.shiftl (Z.pos m1) (e1 - Z.min e1 e2) =? Z.shiftl (Z.pos m2) (e2 - Z.min e1 e2))
  | _, _ => false
  end.

(** [x < 0] *)
Definition f64_ltb_zero (x : float64) : bool :=
  match x with
  | F64Inf true | F64Finite true _ _ => true
  | _ => false
  end.

Definition min_int : Z := - 2 ^ 63.
Definition max_int : Z := 2 ^ 63 - 1.

(** [int(x)] with a 64-bit [int]: the number cut towards zero when
    that fits; otherwise Go leaves the result to the implementation,
    and amd64 yields the smallest [int]. *)
Definition int_of_float64 (x : float64) : Z :=
  match x with
  | F64Zero _ => 0
  | F64Finite neg m e =>
      let z := if neg then - magnitude m e else magnitude m e in
      if (min_int <=? z) && (z <=? max_int) then z else min_int
  | _ => min_int
  end.

(** ** Errors and panics *)

(** A Go [error]: [None] is [nil], [Some m] an error whose [Error()]
    is [m]. *)
Definition error := option string.

Record ParseError := { msg : string }.

(** The outcome of running code that may panic: it finishes, it
    panics with a [*ParseError] ([expect], [must]), or it panics with
    anything else (a runtime error). *)
Inductive result (A : Type) :=
| Ok (a : A)
| ParseErr (e : ParseError)
| Panic (what : string).
Arguments Ok {A} a.
Arguments ParseErr {A} e.
Arguments Panic {A} what.

Definition rbind {A B} (c : result A) (k : A -> result B) : result B :=
  match c with
  | Ok a => k a
  | ParseErr e => ParseErr e
  | Panic w => Panic w
  end.

Declare Scope result_scope.
Delimit Scope result_scope with result.
Notation "x <- c ;; k" := (rbind c (fun x => k))
  (at level 100, c at next level, right associativity) : result_scope.
Notation "c ;; k" := (rbind c (fun _ => k))
  (at level 100, right associativity) : result_scope.

(** ** Operators, directions and the field table (config.go, rql.go) *)

Definition Op := string.
Definition Direction := ascii.

Definition ASC : Direction := "+"%char.
Definition DESC : Direction := "-"%char.
Definition EQ : Op := "eq".
Definition NEQ : Op := "neq".
Definition LT : Op := "lt".
Definition GT : Op := "gt".
Definition LTE : Op := "lte".
Definition GTE : Op := "gte".
Definition LIKE : Op := "like".
Definition OR : Op := "or".
Definition AND : Op := "and".

Definition DefaultOpPrefix : string := "$".
Definition DefaultFieldSep : string := "_".
Definition DefaultLimit_ : Z := 25.
Definition DefaultMaxLimit : Z := 100.

Definition sortDirection (d : Direction) : string :=
  if Ascii.eqb d ASC then "asc"
  else if Ascii.eqb d DESC then "desc"
  else "".

Definition opFormat (o : Op) : string :=
  if String.eqb o EQ then "="
  else if String.eqb o NEQ then "<>"
  else if String.eqb o LT then "<"
  else if String.eqb o GT then ">"
  else if String.eqb o LTE then "<="
  else if String.eqb o GTE then ">="
  else if String.eqb o LIKE then "LIKE"
  else if String.eqb o OR then "OR"
  else if String.eqb o AND then "AND"
  else "".

(** The types [GetSupportedOps], [GetConverterFn] and [GetValidateFn]
    tell apart. *)
Inductive reflect_Type :=
| TyBool | TyString
| TyInt | TyInt8 | TyInt16 | TyInt32 | TyInt64
| TyUint | TyUint8 | TyUint16 | TyUint32 | TyUint64 | TyUintptr
| TyFloat32 | TyFloat64
| TyNullBool | TyNullString | TyNullInt64 | TyNullFloat64
| TyTime
| TyTimeLike   (* a struct type convertible to time.Time *)
| TyStruct     (* any other struct type *)
| TyOther.     (* any other kind *)

Record FieldMeta := {
  Name : string;
  Sortable : bool;
  Filterable : bool;
  FilterOps : gmap string bool;
  Type_ : reflect_Type;
  Layout : string
}.

Definition Validator := Op -> FieldMeta -> value -> error.
Definition Converter := Op -> FieldMeta -> value -> result value.

(** A [nil] function slot is [None]; calling it panics. *)
Record Field := {
  Meta :> FieldMeta;
  ValidateFn : option Validator;
  CovertFn : option Converter
}.

(** [f.FilterOps[opName]]: a missing key reads as [false]. *)
Definition supports (f : FieldMeta) (opName : string) : bool :=
  default false (FilterOps f !! opName).

(** The part of [Config] the parser reads after construction.
    [GetDBOp] is the hook [relOp] and [fmtOp] call to render an
    operator (rql.go, 513 and 561): the operator and the field it
    applies to, or no field for [$or] and [$and]. *)
Record Config := {
  OpPrefix : string;
  FieldSep : string;
  DefaultLimit : Z;
  LimitMaxValue : Z;
  DefaultSort : list string;
  GetDBOp : Op -> option FieldMeta -> string;
  GetDBDir : Direction -> string
}.

Record Parser := {
  Config_ :> Config;
  fields : gmap string Field
}.

(** ** The parse state (rql.go, 430-453)

    [bytes.Buffer] is append-only here: the text written so far.
    The state comes from a pool and is reset before use, so every
    parse starts from the empty state. *)

Record parseState := {
  Buffer : string;
  values : list value
}.

Definition M (A : Type) : Type := parseState -> result (A * parseState).

Definition ret {A} (a : A) : M A := fun ps => Ok (a, ps).

Definition bind {A B} (c : M A) (k : A -> M B) : M B :=
  fun ps =>
    match c ps with
    | Ok (a, ps') => k a ps'
    | ParseErr e => ParseErr e
    | Panic w => Panic w
    end.

Definition lift {A} (r : result A) : M A :=
  fun ps => rbind r (fun a => Ok (a, ps)).

Declare Scope parse_scope.
Delimit Scope parse_scope with parse.
Notation "x <- c ;; k" := (bind c (fun x => k))
  (at level 100, c at next level, right associativity) : parse_scope.
Notation "c ;; k" := (bind c (fun _ => k))
  (at level 100, right associativity) : parse_scope.

Definition WriteString (s : string) : M unit :=
  fun ps => Ok (tt, {| Buffer := Buffer ps +:+ s; values := values ps |}).

Definition WriteByte (c : ascii) : M unit := WriteString (byte_string c).

(** [p.values = append(p.values, arg)] *)
Definition append_value (arg : value) : M unit :=
  fun ps => Ok (tt, {| Buffer := Buffer ps; values := values ps ++ [arg] |}).

Definition when (b : bool) (c : M unit) : M unit := if b then c else ret tt.

(** [opName[1:]]: a runtime panic on the empty string. *)
Definition slice_from_1 (s : string) : result string :=
  match s with
  | EmptyString => Panic "runtime error: slice bounds out of range [1:0]"
  | String _ s' => Ok s'
  end.

Definition nil_call : string :=
  "runtime error: invalid memory address or nil pointer dereference".

Module Query.
Record t := {
  Limit : Z;
  Offset : Z;
  Select : list string;
  Sort : list string;
  Filter : list (string * value)
}.
End Query.

Module Params.
Record t := {
  Limit : Z;
  Offset : Z;
  Select : string;
  Sort : string;
  FilterExp : string;
  FilterArgs : list value
}.
End Params.

(** What a call of [ParseQuery] does: it returns its two results, or
    a panic leaves it. *)
Inductive outcome :=
| Returned (pr : option Params.t) (err : option ParseError)
| Panicked (what : string).

Section Rql.

(** [fmt.Sprintf], and the error result of [time.Parse(layout, s)]. *)
Variable Sprintf : string -> list value -> string.
Variable time_Parse : string -> string -> error.

(** *** expect, must (rql.go, 578-591) *)

Definition expect (cond : bool) (msg : string) (args : list value) : result unit :=
  if cond then Ok tt else ParseErr {| msg := Sprintf msg args |}.

Definition must (err : error) (msg : string) (args : list value) : result unit :=
  match err with
  | None => Ok tt
  | Some e => ParseErr {| msg := Sprintf (msg +:+ ": %s") (args ++ [VString e]) |}
  end.

(** *** Validators and converters (rql.go, 600-686) *)

Definition errorType (v : value) (expected : string) : error :=
  Some (Sprintf "expect <%s>, got <%s>" [VString expected; VString (kind_string v)]).

Definition validateBool : Validator := fun op f v =>
  match v with
  | VBool _ => None
  | _ => errorType v "bool"
  end.

Definition validateString : Validator := fun op f v =>
  match v with
  | VString _ => None
  | _ => errorType v "string"
  end.

Definition validateFloat : Validator := fun op f v =>
  match v with
  | VFloat64 _ => None
  | _ => errorType v "float64"
  end.

Definition validateInt : Validator := fun op f v =>
  let (n, ok) := as_float64 v in
  if negb ok then errorType v "int"
  else if negb (f64_eqb (Trunc n) n) then Some "not an integer"
  else None.

Definition validateUInt : Validator := fun op f v =>
  match validateInt op f v with
  | Some err => Some err
  | None =>
      if f64_ltb_zero (fst (as_float64 v)) then Some "not an unsigned integer"
      else None
  end.

Definition validateTime (layout : string) : Validator := fun _ _ v =>
  match v with
  | VString s => time_Parse layout s
  | _ => errorType v "string"
  end.

Definition convertInt : Converter := fun op f v =>
  match v with
  | VFloat64 x => Ok (VInt (int_of_float64 x))
  | _ => Panic "interface conversion: interface {} is not float64"
  end.

Definition convertTime (layout : string) : Converter := fun _ _ v =>
  match v with
  | VString s => Ok (VTime layout s)
  | _ => Panic "interface conversion: interface {} is not string"
  end.

Definition valueFn : Converter := fun op f v => Ok v.

(** *** Resolution by type (rql.go, 234-340) *)

Definition GetSupportedOps (f : FieldMeta) : list Op :=
  match Type_ f with
  | TyBool => [EQ; NEQ]
  | TyString => [EQ; NEQ; LT; LTE; GT; GTE; LIKE]
  | TyInt | TyInt8 | TyInt16 | TyInt32 | TyInt64 => [EQ; NEQ; LT; LTE; GT; GTE]
  | TyUint | TyUint8 | TyUint16 | TyUint32 | TyUint64 | TyUintptr =>
      [EQ; NEQ; LT; LTE; GT; GTE]
  | TyFloat32 | TyFloat64 => [EQ; NEQ; LT; LTE; GT; GTE]
  | TyNullBool => [EQ; NEQ]
  | TyNullString => [EQ; NEQ]
  | TyNullInt64 => [EQ; NEQ; LT; LTE; GT; GTE]
  | TyNullFloat64 => [EQ; NEQ; LT; LTE; GT; GTE]
  | TyTime => [EQ; NEQ; LT; LTE; GT; GTE]
  | TyTimeLike => [EQ; NEQ; LT; LTE; GT; GTE]
  | TyStruct => []
  | TyOther => []
  end.

Definition GetConverterFn (f : FieldMeta) : Converter :=
  match Type_ f with
  | TyBool => valueFn
  | TyString => valueFn
  | TyInt | TyInt8 | TyInt16 | TyInt32 | TyInt64 => convertInt
  | TyUint | TyUint8 | TyUint16 | TyUint32 | TyUint64 | TyUintptr => convertInt
  | TyFloat32 | TyFloat64 => valueFn
  | TyNullBool => valueFn
  | TyNullString => valueFn
  | TyNullInt64 => convertInt
  | TyNullFloat64 => valueFn
  | TyTime => convertTime (Layout f)
  | TyTimeLike => convertTime (Layout f)
  | TyStruct => valueFn
  | TyOther => valueFn
  end.

Definition GetValidateFn (f : FieldMeta) : option Validator :=
  match Type_ f with
  | TyBool => Some validateBool
  | TyString => Some validateString
  | TyInt | TyInt8 | TyInt16 | TyInt32 | TyInt64 => Some validateInt
  | TyUint | TyUint8 | TyUint16 | TyUint32 | TyUint64 | TyUintptr => Some validateUInt
  | TyFloat32 | TyFloat64 => Some validateFloat
  | TyNullBool => Some validateBool
  | TyNullString => Some validateString
  | TyNullInt64 => Some validateInt
  | TyNullFloat64 => Some validateFloat
  | TyTime => Some (validateTime (Layout f))
  | TyTimeLike => Some (validateTime (Layout f))
  | TyStruct => None
  | TyOther => None
  end.

(** *** Parser helpers (rql.go, 558-576) *)

Definition op (p : Parser) (o : Op) : string := OpPrefix p +:+ o.

Definition colName (p : Parser) (field : string) : string :=
  if negb (String.eqb (FieldSep p) DefaultFieldSep)
  then ReplaceAll field (FieldSep p) DefaultFieldSep
  else field.

Definition fmtOp (p : Parser) (f : Field) (o : Op) : string :=
  colName p (Name f) +:+ " " +:+ GetDBOp p o (Some (Meta f)) +:+ " ?".

Definition call_ValidateFn (f : Field) (o : Op) (v : value) : result error :=
  match ValidateFn f with
  | Some fn => Ok (fn o (Meta f) v)
  | None => Panic nil_call
  end.

Definition call_CovertFn (f : Field) (o : Op) (v : value) : result value :=
  match CovertFn f with
  | Some fn => fn o (Meta f) v
  | None => Panic nil_call
  end.

Definition newParseState (p : Parser) : parseState :=
  {| Buffer := ""; values := [] |}.

(** *** field (rql.go, 526-556) *)

Local Open Scope parse_scope.

(** The body of [for opName, opVal := range terms], entry by entry;
    [i] counts the entries already visited. *)
Fixpoint field_terms (p : Parser) (f : Field) (terms : list (string * value))
         (i : nat) : M unit :=
  match terms with
  | [] => ret tt
  | (opName, opVal) :: rest =>
      when (0 <? i)%nat (WriteString " AND ") ;;
      o <- lift (slice_from_1 opName) ;;
      lift (expect (supports f opName) "can not apply op %q on field %q"
                   [VString opName; VString (Name f)]) ;;
      err <- lift (call_ValidateFn f o opVal) ;;
      lift (must err "invalid datatype or format for field %q" [VString (Name f)]) ;;
      WriteString (fmtOp p f o) ;;
      arg <- lift (call_CovertFn f o opVal) ;;
      append_value arg ;;
      field_terms p f rest (S i)
  end.

Definition field (p : Parser) (f : Field) (v : value) : M unit :=
  let (terms, ok) := as_map v in
  when (negb ok)
    (let o := EQ in
     err <- lift (call_ValidateFn f o v) ;;
     lift (must err "invalid datatype for field %q" [VString (Name f)]) ;;
     WriteString (fmtOp p f o) ;;
     arg <- lift (call_CovertFn f o v) ;;
     append_value arg) ;;
  when (1 <? length terms)%nat (WriteByte "(") ;;
  field_terms p f terms 0 ;;
  when (1 <? length terms)%nat (WriteByte ")").

(** *** and, relOp (rql.go, 479-524)

    The two call each other through the values of the document, so
    they are written over a function [self] that stands for [and] on
    the documents nested below, and tied together by [and_value]. *)

Section Walk.
Variable p : Parser.
Variable self : value -> M unit.

Fixpoint relOp_terms (o : Op) (terms : list value) (i : nat) : M unit :=
  match terms with
  | [] => ret tt
  | t :: rest =>
      when (0 <? i)%nat
        (WriteByte " " ;; WriteString (GetDBOp p o None) ;; WriteByte " ") ;;
      lift (expect (snd (as_map t))
                   "expressions for $%s operator must be type object" [VString o]) ;;
      self t ;;
      relOp_terms o rest (S i)
  end.

Definition relOp_self (o : Op) (terms : list value) : M unit :=
  when (1 <? length terms)%nat (WriteByte "(") ;;
  relOp_terms o terms 0 ;;
  when (1 <? length terms)%nat (WriteByte ")").

Definition and_entry (k : string) (v : value) : M unit :=
  if String.eqb k (op p OR) then
    match v with
    | VSlice terms =>
        lift (expect true "$or must be type array" []) ;;
        relOp_self OR terms
    | _ => lift (expect false "$or must be type array" [])
    end
  else if String.eqb k (op p AND) then
    match v with
    | VSlice terms =>
        lift (expect true "$and must be type array" []) ;;
        relOp_self AND terms
    | _ => lift (expect false "$and must be type array" [])
    end
  else
    match (fields p !! k : option Field) with
    | Some f =>
        lift (expect (Filterable f) "field %q is not filterable" [VString k]) ;;
        field p f v
    | None =>
        lift (expect false "unrecognized key %q for filtering" [VString k])
    end.

Fixpoint and_entries (f : list (string * value)) (i : nat) : M unit :=
  match f with
  | [] => ret tt
  | (k, v) :: rest =>
      when (0 <? i)%nat (WriteString " AND ") ;;
      and_entry k v ;;
      and_entries rest (S i)
  end.
End Walk.

(** [and] on a value that holds a document. *)
Fixpoint and_value (p : Parser) (v : value) {struct v} : M unit :=
  match v with
  | VMap f => and_entries p (and_value p) f 0
  | _ => ret tt
  end.

Definition and_ (p : Parser) (f : list (string * value)) : M unit :=
  and_value p (VMap f).

Definition relOp (p : Parser) (o : Op) (terms : list value) : M unit :=
  relOp_self p (and_value p) o terms.

Local Close Scope parse_scope.

(** *** sort (rql.go, 455-477) *)

Local Open Scope result_scope.

(** One round of the loop: the entry of [sortParams] for [field]. *)
Definition sort_field (p : Parser) (field : string) : result string :=
  expect (negb (String.eqb field "")) "sort field can not be empty" [] ;;
  match field with
  | EmptyString => Panic "runtime error: index out of range [0] with length 0"
  | String f0 tail =>
      let '(orderBy, field) :=
        if Ascii.eqb f0 ASC || Ascii.eqb f0 DESC
        then (GetDBDir p f0, tail)
        else ("", field) in
      match (fields p !! field : option Field) with
      | None => expect false "unrecognized key %q for sorting" [VString field]
      | Some _ => expect true "unrecognized key %q for sorting" [VString field]
      end ;;
      match (fields p !! field : option Field) with
      | None => Panic nil_call
      | Some f => expect (Sortable f) "field %q is not sortable" [VString field]
      end ;;
      let colName := colName p field in
      let colName :=
        if negb (String.eqb orderBy "") then colName +:+ " " +:+ orderBy
        else colName in
      Ok colName
  end.

Fixpoint sort_fields (p : Parser) (fields_ : list string) : result (list string) :=
  match fields_ with
  | [] => Ok []
  | field :: rest =>
      colName <- sort_field p field ;;
      sortParams <- sort_fields p rest ;;
      Ok (colName :: sortParams)
  end.

Definition sort (p : Parser) (fields_ : list string) : result string :=
  sortParams <- sort_fields p fields_ ;;
  Ok (Join sortParams ", ").

(** *** ParseQuery, Parse (rql.go, 166-209) *)

(** The body of [ParseQuery] up to its [return]; [pr] is filled
    field by field as in the source. *)
Definition ParseQuery_body (p : Parser) (q : Query.t) : result Params.t :=
  let Limit := DefaultLimit p in
  expect (0 <=? Query.Offset q) "offset must be greater than or equal to 0" [] ;;
  let Offset := Query.Offset q in
  Limit <-
    (if negb (Query.Limit q =? 0) then
       expect ((0 <? Query.Limit q) && (Query.Limit q <=? LimitMaxValue p))
              "limit must be greater than 0 and less than or equal to %d"
              [VInt (LimitMaxValue p)] ;;
       Ok (Query.Limit q)
     else Ok Limit) ;;
  let ps := newParseState p in
  r <- and_ p (Query.Filter q) ps ;;
  let ps := snd r in
  let FilterExp := Buffer ps in
  let FilterArgs := values ps in
  Sort <- sort p (Query.Sort q) ;;
  Sort <-
    (if (String.length Sort =? 0)%nat && (0 <? length (DefaultSort p))%nat
     then sort p (DefaultSort p)
     else Ok Sort) ;;
  let Select := Join (Query.Select q) ", " in
  Ok {| Params.Limit := Limit; Params.Offset := Offset; Params.Select := Select;
        Params.Sort := Sort; Params.FilterExp := FilterExp;
        Params.FilterArgs := FilterArgs |}.

(** The deferred handler: a [*ParseError] panic becomes the error
    result and [pr] is set to [nil]; any other panic goes on. *)
Definition ParseQuery (p : Parser) (q : Query.t) : outcome :=
  match ParseQuery_body p q with
  | Ok pr => Returned (Some pr) None
  | ParseErr e => Returned None (Some e)
  | Panic w => Panicked w
  end.

(** [q.UnmarshalJSON(b)]: the generated decoder, an error text or
    the decoded query. *)
Variable UnmarshalJSON : string -> string + Query.t.

Definition Parse (p : Parser) (b : string) : outcome :=
  match UnmarshalJSON b with
  | inl err => Returned None (Some {| msg := "decoding buffer to *Query: " +:+ err |})
  | inr q => ParseQuery p q
  end.

Local Close Scope result_scope.
End Rql.

(** ** Building fields and parsers

    The second half of [parseField] (rql.go, 413-427) with the default
    resolution hooks: the operators the type supports, prefixed, make
    [FilterOps]; the validator and the converter come from the type. *)

Section Build.
Variable Sprintf : string -> list value -> string.
Variable time_Parse : string -> string -> error.

Definition parseField_resolve (OpPrefix_ : string) (name : string)
           (sortable filterable : bool) (ty : reflect_Type) (layout : string) : Field :=
  let meta0 := {| Name := name; Sortable := sortable; Filterable := filterable;
                  FilterOps := ∅; Type_ := ty; Layout := layout |} in
  let filterOps := GetSupportedOps meta0 in
  let meta := {| Name := name; Sortable := sortable; Filterable := filterable;
                 FilterOps := list_to_map (map (fun o => (OpPrefix_ +:+ o, true)) filterOps);
                 Type_ := ty; Layout := layout |} in
  {| Meta := meta;
     ValidateFn := GetValidateFn Sprintf time_Parse meta;
     CovertFn := Some (GetConverterFn meta) |}.

(** [p.fields[f.Name] = f] for every field of the list. *)
Definition field_table (fs : list Field) : gmap string Field :=
  list_to_map (map (fun f : Field => (Name f, f)) fs).
End Build.

(** The configuration [defaults] yields (config.go, 166-208) when the
    caller sets nothing, with [opFormat] as operator rendering. *)
Definition default_Config : Config :=
  {| OpPrefix := DefaultOpPrefix;
     FieldSep := DefaultFieldSep;
     DefaultLimit := DefaultLimit_;
     LimitMaxValue := DefaultMaxLimit;
     DefaultSort := [];
     GetDBOp := fun o _ => opFormat o;
     GetDBDir := sortDirection |}.

(** The float64 of a whole number. *)
Definition f64_of_Z (z : Z) : float64 :=
  match z with
  | Z0 => F64Zero false
  | Z.pos m => F64Finite false m 0
  | Z.neg m => F64Finite true m 0
  end.

(** ** What a walk writes

    The walkers only append: text to the buffer, arguments to the
    list.  A walk is described by the pieces it appends, in order: a
    piece of plain text, or the predicate of a field [f] under an
    operator [o] on the raw value [v], written as [fmtOp p f o]
    together with the converted argument [arg]. *)

Inductive chunk :=
| Sep (s : string)
| Pred (f : Field) (o : Op) (v : value) (arg : value).

Section Chunks.
Variable p : Parser.

Definition chunk_text (c : chunk) : string :=
  match c with
  | Sep s => s
  | Pred f o _ _ => fmtOp p f o
  end.

Definition chunk_args (c : chunk) : list value :=
  match c with
  | Sep _ => []
  | Pred _ _ _ arg => [arg]
  end.

Fixpoint chunks_text (cs : list chunk) : string :=
  match cs with
  | [] => ""
  | c :: cs' => chunk_text c +:+ chunks_text cs'
  end.

Definition chunks_args (cs : list chunk) : list value := flat_map chunk_args cs.

Definition emit (ps : parseState) (cs : list chunk) : parseState :=
  {| Buffer := Buffer ps +:+ chunks_text cs; values := values ps ++ chunks_args cs |}.

(** [c] behaves the same from every state: it appends the pieces of
    [r], or fails as [r] does. *)
Definition writes (c : M unit) (r : result (list chunk)) : Prop :=
  forall ps,
    c ps = match r with
           | Ok cs => Ok (tt, emit ps cs)
           | ParseErr e => ParseErr e
           | Panic w => Panic w
           end.

(** The plain text the walkers write between predicates. *)
Definition sep_text (s : string) : Prop :=
  s = " AND " \/ s = "(" \/ s = ")" \/ s = " " \/ exists o, s = GetDBOp p o None.

(** A predicate piece stands for a field of the table, reached under
    some key, whose validator accepted [v] and whose converter made
    [arg] of it. *)
Definition wf_chunk (c : chunk) : Prop :=
  match c with
  | Sep s => sep_text s
  | Pred f o v arg =>
      (exists k, fields p !! k = Some f) /\
      call_ValidateFn f o v = Ok None /\
      call_CovertFn f o v = Ok arg
  end.

Definition wf_trace (r : result (list chunk)) : Prop :=
  match r with
  | Ok cs => Forall wf_chunk cs
  | _ => True
  end.

Definition writer (c : M unit) : Prop :=
  exists r, writes c r /\ wf_trace r.

(** Sequencing two traces. *)
Definition then_ (r1 r2 : result (list chunk)) : result (list chunk) :=
  match r1 with
  | Ok a => match r2 with
            | Ok b => Ok (a ++ b)
            | ParseErr e => ParseErr e
            | Panic w => Panic w
            end
  | ParseErr e => ParseErr e
  | Panic w => Panic w
  end.

(** The predicate pieces of a trace, in order. *)
Fixpoint predicates (cs : list chunk) : list (Field * Op * value * value) :=
  match cs with
  | [] => []
  | Sep _ :: cs' => predicates cs'
  | Pred f o v arg :: cs' => (f, o, v, arg) :: predicates cs'
  end.
End Chunks.

(** The five statements [field] runs for one operator and one value:
    validate, [must], write the text, convert, keep the argument. *)
Definition predicate (Sprintf : string -> list value -> string) (p : Parser)
           (msg_ : string) (f : Field) (o : Op) (v : value) : M unit :=
  (err <- lift (call_ValidateFn f o v) ;;
   lift (must Sprintf err msg_ [VString (Name f)]) ;;
   WriteString (fmtOp p f o) ;;
   arg <- lift (call_CovertFn f o v) ;;
   append_value arg)%parse.

(** ** The stages of ParseQuery *)

Definition limit_ok (p : Parser) (q : Query.t) : bool :=
  (Query.Limit q =? 0) || (0 <? Query.Limit q) && (Query.Limit q <=? LimitMaxValue p).

(** The sort clause of the result: the caller's, or the default one
    when the caller's is empty and a default is configured. *)
Definition sort_or_default (Sprintf : string -> list value -> string)
           (p : Parser) (q : Query.t) : result string :=
  match sort Sprintf p (Query.Sort q) with
  | Ok s =>
      if (String.length s =? 0)%nat && (0 <? length (DefaultSort p))%nat
      then sort Sprintf p (DefaultSort p)
      else Ok s
  | ParseErr e => ParseErr e
  | Panic w => Panic w
  end.

(** ** Comparing two calls

    Two calls end alike when both return the same Params, or both
    return an error, or both panic the same way. *)



Definition with_Filter (q : Query.t) (filter : list (string * value)) : Query.t :=
  {| Query.Limit := Query.Limit q; Query.Offset := Query.Offset q;
     Query.Select := Query.Select q; Query.Sort := Query.Sort q;
     Query.Filter := filter |}.

(** ** The text of a group

    [group_text p sep i docs]: the expressions of the documents
    [docs], each one after the first preceded by the separator; [i]
    counts the documents already written. *)

Fixpoint group_text (p : Parser) (sep : string) (i : nat) (docs : list (list chunk)) : string :=
  match docs with
  | [] => ""
  | d :: rest =>
      (if (0 <? i)%nat then sep else "") +:+ chunks_text p d +:+ group_text p sep (S i) rest
  end.

(** The rendering of a logical operator between two documents. *)
Definition op_separator (p : Parser) (o : Op) : string :=
  " " +:+ GetDBOp p o None +:+ " ".

(** What the walk needs to know about a value: [and] on its elements
    is a writer when it is an array. *)
Definition walkable (p : Parser) (self : value -> M unit) (v : value) : Prop :=
  match v with
  | VSlice terms => Forall (fun t => writer p (self t)) terms
  | _ => True
  end.


(** ** Placeholder markers

    A piece of plain text holds no marker; the text of a predicate is
    a marker-free body followed by the one marker. *)

Definition marker : ascii := "?"%char.

Definition marker_free (s : string) : Prop := count_byte marker s = O.

Definition one_marker_last (s : string) : Prop :=
  exists body, s = body +:+ "?" /\ marker_free body.

Definition aligned_chunk (p : Parser) (c : chunk) : Prop :=
  match c with
  | Sep s => marker_free s
  | Pred f o v arg => one_marker_last (fmtOp p f o)
  end.

(** ** Sort references in words

    A reference is a field name with an optional leading '+' or '-'. *)

Definition is_direction (c : ascii) : bool := Ascii.eqb c ASC || Ascii.eqb c DESC.

(** The reference without its direction marker. *)
Definition field_of (r : string) : string :=
  match r with
  | String c tail => if is_direction c then tail else r
  | EmptyString => EmptyString
  end.

(** The suffix as the specification has it. *)
Definition stated_suffix (r : string) : string :=
  match r with
  | String c _ =>
      if Ascii.eqb c DESC then " desc" else if Ascii.eqb c ASC then " asc" else ""
  | EmptyString => ""
  end.

(** The suffix through the configured direction rendering: a space
    and the rendering, nothing when the rendering is empty. *)
Definition rendered_suffix (p : Parser) (r : string) : string :=
  match r with
  | String c _ =>
      if is_direction c then
        if String.eqb (GetDBDir p c) "" then "" else " " +:+ GetDBDir p c
      else ""
  | EmptyString => ""
  end.

Definition stated_entry (p : Parser) (r : string) : string :=
  colName p (field_of r) +:+ stated_suffix r.

Definition rendered_entry (p : Parser) (r : string) : string :=
  colName p (field_of r) +:+ rendered_suffix p r.

(** A non-empty reference that names an existing sortable field. *)
Definition sortable_ref (p : Parser) (r : string) : bool :=
  negb (String.eqb r "") &&
  match (fields p !! field_of r : option Field) with
  | Some f => Sortable f
  | None => false
  end.

(** ** Numbers and field types in words

    The number a float stands for, as a fraction; NaN and the
    infinities stand for none.  A JSON number is always finite. *)

Definition signed (neg : bool) (z : Z) : Z := if neg then - z else z.

Definition f64_value (x : float64) : option Q :=
  match x with
  | F64Zero _ => Some (0 # 1)
  | F64Finite neg m e =>
      if 0 <=? e then Some (signed neg (Z.pos m * 2 ^ e) # 1)
      else Some (signed neg (Z.pos m) # Z.to_pos (2 ^ (- e)))
  | _ => None
  end.

(** A fraction with zero fractional part. *)
Definition whole (q : Q) : Prop := exists z : Z, (q == inject_Z z)%Q.

Definition signed_integer_type (ty : reflect_Type) : bool :=
  match ty with
  | TyInt | TyInt8 | TyInt16 | TyInt32 | TyInt64 => true
  | _ => false
  end.

Definition unsigned_integer_type (ty : reflect_Type) : bool :=
  match ty with
  | TyUint | TyUint8 | TyUint16 | TyUint32 | TyUint64 | TyUintptr => true
  | _ => false
  end.

Definition integer_type (ty : reflect_Type) : bool :=
  signed_integer_type ty || unsigned_integer_type ty.

(** ** A formatter for the examples

    [fmt.Sprintf] for the verbs [%s], [%q] and [%d] as the parser uses
    them, exact on text without quotes, backslashes or unprintable
    bytes. *)

Definition quote_mark : string := byte_string (ascii_of_nat 34).

Definition format_verb (verb : ascii) (a : value) : string :=
  match a with
  | VString s =>
      if Ascii.eqb verb "q" then quote_mark +:+ s +:+ quote_mark else s
  | VInt n => NilZero.string_of_int (Z.to_int n)
  | _ => "%!" +:+ byte_string verb +:+ "(" +:+ kind_string a +:+ ")"
  end.

Fixpoint Sprintf_ascii (format : string) (args : list value) : string :=
  match format with
  | EmptyString => EmptyString
  | String c rest =>
      if Ascii.eqb c "%" then
        match rest, args with
        | String verb rest', a :: args' =>
            format_verb verb a +:+ Sprintf_ascii rest' args'
        | String verb rest', [] =>
            "%!" +:+ byte_string verb +:+ "(MISSING)" +:+ Sprintf_ascii rest' []
        | EmptyString, _ => "%!(NOVERB)"
        end
      else String c (Sprintf_ascii rest args)
  end.

(** [time.Parse] is not called in the examples. *)
Definition no_time_Parse : string -> string -> error :=
  fun _ _ => Some "parsing time: not modelled".

(** ** Example schema

    The model of the specification's examples: [Age int], [Name
    string] and an unsigned [ID], all filterable and sortable, behind
    the default configuration. *)

Definition example_field : string -> bool -> bool -> reflect_Type -> string -> Field :=
  parseField_resolve Sprintf_ascii no_time_Parse DefaultOpPrefix.

Definition age_field : Field := example_field "age" true true TyInt "".
Definition name_field : Field := example_field "name" true true TyString "".
Definition id_field : Field := example_field "id" true true TyUint "".

Definition example_parser : Parser :=
  {| Config_ := default_Config;
     fields := field_table [age_field; name_field; id_field] |}.

(** 2.0, 1.5 and 2^70 as binary64 data. *)
Definition two : float64 := F64Finite false 4503599627370496 (-51).
Definition one_and_a_half : float64 := F64Finite false 6755399441055744 (-52).
Definition two_to_the_70 : float64 := F64Finite false 4503599627370496 18.

(** A query with the given limit, offset, sort list and filter. *)
Definition example_query (limit offset : Z) (sort_ : list string)
           (filter : list (string * value)) : Query.t :=
  {| Query.Limit := limit; Query.Offset := offset; Query.Select := [];
     Query.Sort := sort_; Query.Filter := filter |}.

(** A decoder for the examples: every buffer is malformed. *)
Definition no_UnmarshalJSON : string -> string + Query.t :=
  fun _ => inl "unexpected end of JSON input".

(** The operator table and the map-typed field of the repository's
    test of custom operators (rql_custom_ops_test.go): the operator
    [exists] is rendered as the operator [?|]. *)
Definition IN : Op := "in".
Definition NIN : Op := "nin".
Definition OVERLAP : Op := "overlap".
Definition ALL : Op := "all".
Definition CONTAINS : Op := "contains".
Definition EXISTS : Op := "exists".

Definition customOpFormat (o : Op) : string :=
  if String.eqb o EQ then "="
  else if String.eqb o NEQ then "<>"
  else if String.eqb o LT then "<"
  else if String.eqb o GT then ">"
  else if String.eqb o LTE then "<="
  else if String.eqb o GTE then ">="
  else if String.eqb o LIKE then "ILIKE"
  else if String.eqb o OR then "OR"
  else if String.eqb o AND then "AND"
  else if String.eqb o IN then "IN"
  else if String.eqb o NIN then "NOT IN"
  else if String.eqb o ALL then "@>"
  else if String.eqb o OVERLAP then "&&"
  else if String.eqb o CONTAINS then "@>"
  else if String.eqb o EXISTS then "?|"
  else "".

Definition validateMapOp : Validator := fun o f v =>
  if String.eqb o EXISTS && negb (match v with VString _ => true | _ => false end)
  then Some (Sprintf_ascii "exists expects a string arg" [])
  else if String.eqb o ALL && negb (snd (as_map v))
  then Some (Sprintf_ascii "exists expects a string arg" [])
  else None.

Definition alias_map_field : Field :=
  {| Meta := {| Name := "alias_map"; Sortable := false; Filterable := true;
                FilterOps := list_to_map [("$contains", true); ("$exists", true)];
                Type_ := TyOther; Layout := "" |};
     ValidateFn := Some validateMapOp;
     CovertFn := Some valueFn |}.

Definition custom_ops_parser : Parser :=
  {| Config_ := {| OpPrefix := DefaultOpPrefix;
                   FieldSep := ".";
                   DefaultLimit := DefaultLimit_;
                   LimitMaxValue := DefaultMaxLimit;
                   DefaultSort := [];
                   GetDBOp := fun o _ => customOpFormat o;
                   GetDBDir := sortDirection |};
     fields := field_table [alias_map_field] |}.

(** A whole JSON number. *)
Definition number (z : Z) : value := VFloat64 (f64_of_Z z).

(** The disjunction of the specification's end-to-end example. *)
Definition two_ages : list value :=
  [VMap [("age", VMap [("$neq", number 10)])];
   VMap [("age", VMap [("$neq", number 20)])]].

(** A parser whose direction hook renders upper-case keywords, and
    one with the separator '.' and the nested field of the
    specification's sort example. *)
Definition upper_case_dir (d : Direction) : string :=
  if Ascii.eqb d ASC then "ASC"
  else if Ascii.eqb d DESC then "DESC"
  else "".

Definition upper_case_parser : Parser :=
  {| Config_ := {| OpPrefix := DefaultOpPrefix;
                   FieldSep := DefaultFieldSep;
                   DefaultLimit := DefaultLimit_;
                   LimitMaxValue := DefaultMaxLimit;
                   DefaultSort := [];
                   GetDBOp := fun o _ => opFormat o;
                   GetDBDir := upper_case_dir |};
     fields := field_table [age_field; name_field; id_field] |}.

Definition address_name_field : Field :=
  example_field "address.name" true true TyString "".

Definition dotted_parser : Parser :=
  {| Config_ := {| OpPrefix := DefaultOpPrefix;
                   FieldSep := ".";
                   DefaultLimit := DefaultLimit_;
                   LimitMaxValue := DefaultMaxLimit;
                   DefaultSort := [];
                   GetDBOp := fun o _ => opFormat o;
                   GetDBDir := sortDirection |};
     fields := field_table [address_name_field; age_field; id_field] |}.

(** A parser whose operator prefix has more than one byte. *)
Definition long_prefix_parser : Parser :=
  {| Config_ := {| OpPrefix := "op_";
                   FieldSep := DefaultFieldSep;
                   DefaultLimit := DefaultLimit_;
                   LimitMaxValue := DefaultMaxLimit;
                   DefaultSort := [];
                   GetDBOp := fun o _ => opFormat o;
                   GetDBDir := sortDirection |};
     fields := field_table
                 [parseField_resolve Sprintf_ascii no_time_Parse "op_" "age" true true TyInt ""] |}.

(** ** Invariants of a walk

    A walk is [traced] by an invariant when it has a trace, the same
    from every state, and the trace satisfies the invariant. *)

Definition traced (p : Parser) (inv : result (list chunk) -> Prop) (c : M unit) : Prop :=
  exists r, writes p c r /\ inv r.

(** No runtime panic: the walk goes through or stops on a
    [*ParseError]. *)
Definition calm (r : result (list chunk)) : Prop :=
  match r with
  | Panic _ => False
  | _ => True
  end.

(** A field whose two function slots are set and whose converter
    takes every value its validator accepts. *)
Definition sound_field (f : Field) : Prop :=
  exists vf cf,
    ValidateFn f = Some vf /\ CovertFn f = Some cf /\
    forall o v, vf o (Meta f) v = None -> exists arg, cf o (Meta f) v = Ok arg.

Definition sound_parser (p : Parser) : Prop :=
  forall k (f : Field), fields p !! k = Some f -> sound_field f.

(** No object of the value, at any depth, has the empty string as a
    key. *)
Fixpoint no_empty_key (v : value) : bool :=
  match v with
  | VSlice l => forallb no_empty_key l
  | VMap m => forallb (fun kv => negb (String.eqb (fst kv) "") && no_empty_key (snd kv)) m
  | _ => true
  end.

(** The predicate of a piece went through the two gates of the walk:
    its field is in the table and filterable, and its operator is the
    equality of the shorthand or comes from a key of the field's
    operator set, less the key's first byte. *)
Definition gated (p : Parser) (c : chunk) : Prop :=
  match c with
  | Sep _ => True
  | Pred f o v arg =>
      (exists k, fields p !! k = Some f) /\
      Filterable f = true /\
      ((o = EQ /\ snd (as_map v) = false) \/
       exists b, supports f (String b o) = true)
  end.

Definition all_gated (p : Parser) (r : result (list chunk)) : Prop :=
  match r with
  | Ok cs => Forall (gated p) cs
  | _ => True
  end.

(** The predicate piece of one entry of an operator object. *)
Definition operator_piece (f : Field) (kv : string * value) (c : chunk) : Prop :=
  exists o arg,
    slice_from_1 (fst kv) = Ok o /\
    supports f (fst kv) = true /\
    call_ValidateFn f o (snd kv) = Ok None /\
    call_CovertFn f o (snd kv) = Ok arg /\
    c = Pred f o (snd kv) arg.

(** An entry of a document that writes nothing: an empty array under
    [$or] or [$and], or an empty operator object on a filterable
    field. *)
Definition silent_entry (p : Parser) (k : string) (v : value) : Prop :=
  ((k = op p OR \/ k = op p AND) /\ v = VSlice []) \/
  (k <> op p OR /\ k <> op p AND /\
   exists f : Field, fields p !! k = Some f /\ Filterable f = true /\ v = VMap []).

Definition with_Select (q : Query.t) (sel : list string) : Query.t :=
  {| Query.Limit := Query.Limit q; Query.Offset := Query.Offset q;
     Query.Select := sel; Query.Sort := Query.Sort q;
     Query.Filter := Query.Filter q |}.

Definition with_Sort (q : Query.t) (refs : list string) : Query.t :=
  {| Query.Limit := Query.Limit q; Query.Offset := Query.Offset q;
     Query.Select := Query.Select q; Query.Sort := refs;
     Query.Filter := Query.Filter q |}.

(** Every byte [old] of the string turned into [new]. *)
Fixpoint replace_byte (old new : ascii) (s : string) : string :=
  match s with
  | EmptyString => EmptyString
  | String c s' => String (if Ascii.eqb c old then new else c) (replace_byte old new s')
  end.


(** ** Parentheses

    A text with as many opening as closing parentheses. *)
Definition balanced (s : string) : Prop := count_byte "(" s = count_byte ")" s.

Definition all_balanced (p : Parser) (r : result (list chunk)) : Prop :=
  match r with
  | Ok cs => balanced (chunks_text p cs)
  | _ => True
  end.

(** ** The query with an empty operator name

    The filter {name: {"": "foo"}} on the example schema, and a
    decoder that yields a given query whatever the buffer. *)
Definition empty_operator_query : Query.t :=
  example_query 0 0 [] [("name", VMap [("", VString "foo")])].

Definition decodes_to (q : Query.t) : string -> string + Query.t := fun _ => inr q.

(** ** Strings: what [parseField] uses (rql.go, 387-405) *)

(** [strings.Split(s, sep)] for a separator of one byte: the pieces
    between the separators, one piece for a string without
    separator, the empty string included. *)
Fixpoint Split (s : string) (sep : ascii) : list string :=
  match s with
  | EmptyString => [""]
  | String c s' =>
      if Ascii.eqb c sep then "" :: Split s' sep
      else match Split s' sep with
           | piece :: rest => String c piece :: rest
           | [] => [byte_string c]
           end
  end.

(** [strings.TrimPrefix(s, prefix)] *)
Definition TrimPrefix (s pre : string) : string :=
  if HasPrefix s pre then drop_bytes (String.length pre) s else s.

Fixpoint rev_string (s : string) : string :=
  match s with
  | EmptyString => EmptyString
  | String c s' => rev_string s' +:+ byte_string c
  end.

Definition bytes (l : list Z) : string :=
  fold_right (fun n s => String (byte_of_Z n) s) EmptyString l.

(** The UTF-8 encodings of the runes [unicode.IsSpace] accepts:
    U+0009..U+000D, U+0020, U+0085, U+00A0, U+1680, U+2000..U+200A,
    U+2028, U+2029, U+202F, U+205F and U+3000. *)
Definition space_runes : list string :=
  map bytes
    [[9]; [10]; [11]; [12]; [13]; [32];
     [194; 133]; [194; 160];
     [225; 154; 128];
     [226; 128; 128]; [226; 128; 129]; [226; 128; 130]; [226; 128; 131];
     [226; 128; 132]; [226; 128; 133]; [226; 128; 134]; [226; 128; 135];
     [226; 128; 136]; [226; 128; 137]; [226; 128; 138];
     [226; 128; 168]; [226; 128; 169]; [226; 128; 175];
     [226; 129; 159];
     [227; 128; 128]].

(** The string without the first of [pres] it starts with. *)
Fixpoint strip_one (pres : list string) (s : string) : option string :=
  match pres with
  | [] => None
  | pre :: rest =>
      if HasPrefix s pre then Some (drop_bytes (String.length pre) s)
      else strip_one rest s
  end.

(** Leading runes of [pres] dropped, as long as there are any; every
    round drops a byte at least, so [String.length s] rounds do. *)
Fixpoint strip_all (fuel : nat) (pres : list string) (s : string) : string :=
  match fuel with
  | O => s
  | S fuel' =>
      match strip_one pres s with
      | Some rest => strip_all fuel' pres rest
      | None => s
      end
  end.

Definition TrimLeft_space (s : string) : string :=
  strip_all (String.length s) space_runes s.

(** From the right a rune is decoded backwards; a string ends with a
    space rune when its last bytes are the encoding of one. *)
Definition TrimRight_space (s : string) : string :=
  rev_string (strip_all (String.length s) (map rev_string space_runes) (rev_string s)).

(** [strings.TrimSpace(s)] *)
Definition TrimSpace (s : string) : string := TrimRight_space (TrimLeft_space s).

(** [strings.NewReplacer("_", " ", "Z", "+").Replace(s)]: with
    one-byte patterns the replacer maps byte by byte. *)
Fixpoint Replacer_Replace (s : string) : string :=
  match s with
  | EmptyString => EmptyString
  | String c s' =>
      String (if Ascii.eqb c "_" then " "%char
              else if Ascii.eqb c "Z" then "+"%char else c)
             (Replacer_Replace s')
  end.

(** The layouts of package [time] (rql.go, 688-705). *)
Definition RFC3339 : string := "2006-01-02T15:04:05Z07:00".

Definition layouts : gmap string string :=
  list_to_map
    [("ANSIC", "Mon Jan _2 15:04:05 2006");
     ("UnixDate", "Mon Jan _2 15:04:05 MST 2006");
     ("RubyDate", "Mon Jan 02 15:04:05 -0700 2006");
     ("RFC822", "02 Jan 06 15:04 MST");
     ("RFC822Z", "02 Jan 06 15:04 -0700");
     ("RFC850", "Monday, 02-Jan-06 15:04:05 MST");
     ("RFC1123", "Mon, 02 Jan 2006 15:04:05 MST");
     ("RFC1123Z", "Mon, 02 Jan 2006 15:04:05 -0700");
     ("RFC3339", RFC3339);
     ("RFC3339Nano", "2006-01-02T15:04:05.999999999Z07:00");
     ("Kitchen", "3:04PM");
     ("Stamp", "Jan _2 15:04:05");
     ("StampMilli", "Jan _2 15:04:05.000");
     ("StampMicro", "Jan _2 15:04:05.000000");
     ("StampNano", "Jan _2 15:04:05.000000000")].

(** ** Struct types as [reflect] shows them

    A type is a pointer to a type, or a type of its own with the
    class the resolution tells apart and, for a struct, its fields in
    the order of declaration.  A struct tag is kept as its key-value
    pairs in the order they are written.  The types are finite trees:
    a struct that reaches itself through a pointer has no place
    here. *)

Module StructField.
Record t (T : Type) := mk {
  Name : string;
  Type_ : T;
  Tag : list (string * string);
  Anonymous : bool
}.
Arguments mk {T} _ _ _ _.
Arguments Name {T} _.
Arguments Type_ {T} _.
Arguments Tag {T} _.
Arguments Anonymous {T} _.
End StructField.

#[local] Unset Elimination Schemes.
Inductive rtype :=
| PtrTo (elem : rtype)
| Declared (class : reflect_Type) (members : list (StructField.t rtype)).
#[local] Set Elimination Schemes.

Definition StructField_ : Type := StructField.t rtype.

(** [t.Kind() == reflect.Struct] *)
Definition struct_class (c : reflect_Type) : bool :=
  match c with
  | TyNullBool | TyNullString | TyNullInt64 | TyNullFloat64
  | TyTime | TyTimeLike | TyStruct => true
  | _ => false
  end.

Definition Kind_Struct (t : rtype) : bool :=
  match t with
  | Declared c _ => struct_class c
  | PtrTo _ => false
  end.

(** The fields [t.Field(0)], ..., [t.Field(t.NumField()-1)] of a
    struct type. *)
Definition struct_fields (t : rtype) : list StructField_ :=
  match t with
  | Declared _ ms => ms
  | PtrTo _ => []
  end.

Definition class_of (t : rtype) : reflect_Type :=
  match t with
  | Declared c _ => c
  | PtrTo _ => TyOther
  end.

(** [indirect] (rql.go, 593-598) *)
Fixpoint indirect (t : rtype) : rtype :=
  match t with
  | PtrTo e => indirect e
  | Declared _ _ => t
  end.

(** [tag.Lookup(key)] and [tag.Get(key)]: the first pair with the
    key. *)
Fixpoint Tag_Lookup (tag : list (string * string)) (key : string) : option string :=
  match tag with
  | [] => None
  | (k, v) :: rest => if String.eqb k key then Some v else Tag_Lookup rest key
  end.

Definition Tag_Get (tag : list (string * string)) (key : string) : string :=
  default "" (Tag_Lookup tag key).

(** ** Configuration (config.go, 75-220) *)

Definition DefaultTagName : string := "rql".

(** [GetAllOps] (config.go, 61-73) *)
Definition GetAllOps : list Op := [EQ; NEQ; LT; GT; LTE; GTE; LIKE; OR; AND].

(** [defaultString], [defaultInt]: the value that is left behind the
    pointer. *)
Definition defaultString (s v : string) : string := if String.eqb s "" then v else s.
Definition defaultInt (i v : Z) : Z := if i =? 0 then v else i.

(** The [Config] as the caller fills it: a hook that is not set is
    [nil], a [Model] that is not set is the [nil] interface.  The
    logging hook only reports; its calls are kept as the log of the
    construction. *)
Module Caller.
Record Config := {
  TagName : string;
  Model : option rtype;
  OpPrefix : string;
  FieldSep : string;
  ColumnFn : option (string -> string);
  DefaultLimit : Z;
  LimitMaxValue : Z;
  DefaultSort : list string;
  GetDBOp : option (Op -> option FieldMeta -> string);
  GetDBDir : option (Direction -> string);
  GetValidator : option (FieldMeta -> option Validator);
  GetConverter : option (FieldMeta -> option Converter);
  GetSupportedOps : option (FieldMeta -> list Op)
}.
End Caller.

(** The part of [Config] that only the construction reads, after
    [defaults]: every hook is set.  A hook is a function of the field
    description it is given; one that writes through the pointer is
    outside this model, as the default hooks do not. *)
Module Schema.
Record t := {
  TagName : string;
  Model : rtype;
  ColumnFn : string -> string;
  GetValidator : FieldMeta -> option Validator;
  GetConverter : FieldMeta -> option Converter;
  GetSupportedOps : FieldMeta -> list Op
}.
End Schema.

(** One call of [p.Log]: the format and its arguments. *)
Definition log_entry : Type := string * list value.

(** What a step of the construction leaves: the result and the log,
    or the error and the log. *)
Inductive built (A : Type) :=
| Built (a : A) (log : list log_entry)
| Failed (err : string) (log : list log_entry).
Arguments Built {A} a log.
Arguments Failed {A} err log.

Section Construction.
Variable Sprintf : string -> list value -> string.
Variable time_Parse : string -> string -> error.

(** *** defaults (config.go, 166-208)

    The operator rendering is read by [relOp] and [fmtOp] under the
    name [GetDBOp]; its default renders an operator by [opFormat]. *)
Definition defaults (c : Caller.Config) : string + Schema.t * Config :=
  match Caller.Model c with
  | None => inl "rql: 'Model' is a required field"
  | Some model =>
      if negb (Kind_Struct (indirect model))
      then inl "rql: 'Model' must be a struct type"
      else
        inr ({| Schema.TagName := defaultString (Caller.TagName c) DefaultTagName;
                Schema.Model := model;
                Schema.ColumnFn := default Column (Caller.ColumnFn c);
                Schema.GetValidator :=
                  default (GetValidateFn Sprintf time_Parse) (Caller.GetValidator c);
                Schema.GetConverter :=
                  default (fun f => Some (GetConverterFn f)) (Caller.GetConverter c);
                Schema.GetSupportedOps :=
                  default GetSupportedOps (Caller.GetSupportedOps c) |},
             {| OpPrefix := defaultString (Caller.OpPrefix c) DefaultOpPrefix;
                FieldSep := defaultString (Caller.FieldSep c) DefaultFieldSep;
                DefaultLimit := defaultInt (Caller.DefaultLimit c) DefaultLimit_;
                LimitMaxValue := defaultInt (Caller.LimitMaxValue c) DefaultMaxLimit;
                DefaultSort := Caller.DefaultSort c;
                GetDBOp := default (fun o _ => opFormat o) (Caller.GetDBOp c);
                GetDBDir := default sortDirection (Caller.GetDBDir c) |})
  end.

(** *** parseField (rql.go, 378-428) *)

(** What the loop over the tag options has set so far. *)
Record options := {
  opt_Name : string;
  opt_Sortable : bool;
  opt_Filterable : bool;
  opt_layout : string
}.

(** The loop [for _, opt := range opts]. *)
Fixpoint parseField_options (opts : list string) (o : options) (log : list log_entry)
  : built options :=
  match opts with
  | [] => Built o log
  | opt :: rest =>
      let s := TrimSpace opt in
      if String.eqb s "sort" then
        parseField_options rest
          {| opt_Name := opt_Name o; opt_Sortable := true;
             opt_Filterable := opt_Filterable o; opt_layout := opt_layout o |} log
      else if String.eqb s "filter" then
        parseField_options rest
          {| opt_Name := opt_Name o; opt_Sortable := opt_Sortable o;
             opt_Filterable := true; opt_layout := opt_layout o |} log
      else if HasPrefix opt "column" then
        parseField_options rest
          {| opt_Name := TrimPrefix opt "column="; opt_Sortable := opt_Sortable o;
             opt_Filterable := opt_Filterable o; opt_layout := opt_layout o |} log
      else if HasPrefix opt "layout" then
        let layout := TrimPrefix opt "layout=" in
        let layout := match layouts !! layout with
                      | Some ly => ly
                      | None => layout
                      end in
        let v := Replacer_Replace layout in
        match time_Parse layout v with
        | Some err =>
            Failed (Sprintf "rql: layout %q is not parsable: %v"
                            [VString layout; VString err]) log
        | None =>
            parseField_options rest
              {| opt_Name := opt_Name o; opt_Sortable := opt_Sortable o;
                 opt_Filterable := opt_Filterable o; opt_layout := layout |} log
        end
      else
        parseField_options rest o
          (log ++ [("Ignoring unknown option %q in struct tag", [VString opt])])
  end.

(** [f.FilterOps[p.op(op)] = true] for every operator of the list. *)
Definition parseField_FilterOps (p : Parser) (filterOps : list Op) : gmap string bool :=
  fold_left (fun m o => <[op p o := true]> m) filterOps ∅.

(** The field that [parseField] builds, up to the statement that
    registers it. *)
Definition parseField_field (s : Schema.t) (p : Parser) (sf : StructField_)
           (log : list log_entry) : built Field :=
  let o0 := {| opt_Name := Schema.ColumnFn s (StructField.Name sf);
               opt_Sortable := false; opt_Filterable := false;
               opt_layout := RFC3339 |} in
  let opts := Split (Tag_Get (StructField.Tag sf) (Schema.TagName s)) "," in
  match parseField_options opts o0 log with
  | Failed err log => Failed err log
  | Built o log =>
      let meta0 := {| Name := opt_Name o; Sortable := opt_Sortable o;
                      Filterable := opt_Filterable o; FilterOps := ∅;
                      Type_ := class_of (indirect (StructField.Type_ sf));
                      Layout := opt_layout o |} in
      let filterOps := Schema.GetSupportedOps s meta0 in
      if (length filterOps =? 0)%nat then
        Failed (Sprintf "rql: field type for %q is not supported"
                        [VString (StructField.Name sf)]) log
      else
        let CovertFn_ := Schema.GetConverter s meta0 in
        let ValidateFn_ := Schema.GetValidator s meta0 in
        Built {| Meta := {| Name := opt_Name o; Sortable := opt_Sortable o;
                            Filterable := opt_Filterable o;
                            FilterOps := parseField_FilterOps p filterOps;
                            Type_ := class_of (indirect (StructField.Type_ sf));
                            Layout := opt_layout o |};
                 ValidateFn := ValidateFn_;
                 CovertFn := CovertFn_ |} log
  end.

(** [parseField]: the field, then [p.fields[f.Name] = f]. *)
Definition parseField (s : Schema.t) (p : Parser) (sf : StructField_)
           (log : list log_entry) : built Parser :=
  match parseField_field s p sf log with
  | Failed err log => Failed err log
  | Built f log =>
      Built {| Config_ := Config_ p; fields := <[Name f := f]> (fields p) |} log
  end.

(** *** init (rql.go, 344-374)

    The list [l] is used as a stack: [PushFront] puts a field in front
    and the loop takes the front one. *)

Definition PushFront (l : list StructField_) (f : StructField_) : list StructField_ :=
  f :: l.

(** [f1.Name = f.Name + p.FieldSep + f1.Name] unless [f] is
    embedded. *)
Definition nested_field (FieldSep_ : string) (f f1 : StructField_) : StructField_ :=
  if negb (StructField.Anonymous f)
  then StructField.mk (StructField.Name f +:+ FieldSep_ +:+ StructField.Name f1)
                      (StructField.Type_ f1) (StructField.Tag f1)
                      (StructField.Anonymous f1)
  else f1.

(** The loop [for l.Len() > 0], at most [fuel] rounds of it; [None]
    when the rounds are used up before the list is empty. *)
Fixpoint init_loop (s : Schema.t) (fuel : nat) (l : list StructField_) (p : Parser)
         (log : list log_entry) : option (built Parser) :=
  match l with
  | [] => Some (Built p log)
  | f :: l =>
      match fuel with
      | O => None
      | S fuel' =>
          let t := indirect (StructField.Type_ f) in
          match Tag_Lookup (StructField.Tag f) (Schema.TagName s) with
          | Some _ =>
              match parseField s p f log with
              | Failed err log => Some (Failed err log)
              | Built p log => init_loop s fuel' l p log
              end
          | None =>
              if Kind_Struct t then
                init_loop s fuel'
                  (fold_left PushFront (map (nested_field (FieldSep p) f) (struct_fields t)) l)
                  p log
              else if StructField.Anonymous f then
                init_loop s fuel' l p
                  (log ++ [("ignore embedded field %q that is not struct type",
                            [VString (StructField.Name f)])])
              else init_loop s fuel' l p log
          end
      end
  end.

(** The rounds a type can cause: one for each field below it. *)
Fixpoint rounds (t : rtype) : nat :=
  match t with
  | PtrTo e => rounds e
  | Declared _ ms =>
      list_sum (map (fun f : StructField_ => S (rounds (StructField.Type_ f))) ms)
  end.

Definition init (s : Schema.t) (fuel : nat) (p : Parser) : option (built Parser) :=
  let t := indirect (Schema.Model s) in
  init_loop s fuel (fold_left PushFront (struct_fields t) []) p [].

(** *** NewParser (rql.go, 142-154) *)

Definition NewParser (fuel : nat) (c : Caller.Config) : option (built Parser) :=
  match defaults c with
  | inl err => Some (Failed err [])
  | inr (s, c) => init s fuel {| Config_ := c; fields := ∅ |}
  end.

(** [MustNewParser] (rql.go, 158-164): the parser, or the panic with
    the error. *)
Definition MustNewParser (fuel : nat) (c : Caller.Config) : option (result Parser) :=
  match NewParser fuel c with
  | Some (Built p _) => Some (Ok p)
  | Some (Failed err _) => Some (Panic err)
  | None => None
  end.

End Construction.

(** ** What the loop of [init] meets

    The same walk by recursion on the type.  Below a field the loop
    meets, in the order of declaration: the field itself when it has
    the tag; otherwise, when its type is a struct, what it meets below
    the fields of that struct under their composed names; otherwise
    the report of an embedded field that is no struct, or nothing. *)

Inductive event :=
| Tagged (f : StructField_)
| Ignored (name : string).

Fixpoint meets (TagName_ FieldSep_ : string) (t : rtype) (f : StructField_)
  : list event :=
  match t with
  | PtrTo e => meets TagName_ FieldSep_ e f
  | Declared c ms =>
      match Tag_Lookup (StructField.Tag f) TagName_ with
      | Some _ => [Tagged f]
      | None =>
          if struct_class c then
            flat_map (fun f1 : StructField_ =>
                        meets TagName_ FieldSep_ (StructField.Type_ f1)
                              (nested_field FieldSep_ f f1)) ms
          else if StructField.Anonymous f then [Ignored (StructField.Name f)]
          else []
      end
  end.

Definition below (TagName_ FieldSep_ : string) (f : StructField_) : list event :=
  meets TagName_ FieldSep_ (StructField.Type_ f) f.

(** Everything below the model, in the order of declaration. *)
Definition declared (s : Schema.t) (FieldSep_ : string) : list event :=
  flat_map (below (Schema.TagName s) FieldSep_) (struct_fields (indirect (Schema.Model s))).

Definition tagged_fields (evs : list event) : list StructField_ :=
  flat_map (fun e => match e with Tagged f => [f] | Ignored _ => [] end) evs.

(** The rounds of a list of fields waiting on the stack. *)
Definition stack_rounds (l : list StructField_) : nat :=
  list_sum (map (fun f : StructField_ => S (rounds (StructField.Type_ f))) l).

Section Events.
Variable Sprintf : string -> list value -> string.
Variable time_Parse : string -> string -> error.

(** The events handled one after the other, up to the first field
    that [parseField] refuses. *)
Fixpoint run (s : Schema.t) (evs : list event) (p : Parser) (log : list log_entry)
  : built Parser :=
  match evs with
  | [] => Built p log
  | Tagged f :: rest =>
      match parseField Sprintf time_Parse s p f log with
      | Failed err log => Failed err log
      | Built p log => run s rest p log
      end
  | Ignored name :: rest =>
      run s rest p
        (log ++ [("ignore embedded field %q that is not struct type", [VString name])])
  end.

(** The fields that [parseField] builds from a list of struct
    fields, when it accepts them all. *)
Fixpoint built_fields (s : Schema.t) (p : Parser) (sfs : list StructField_)
  : option (list Field) :=
  match sfs with
  | [] => Some []
  | sf :: rest =>
      match parseField_field Sprintf time_Parse s p sf [] with
      | Built f _ =>
          match built_fields s p rest with
          | Some fs => Some (f :: fs)
          | None => None
          end
      | Failed _ _ => None
      end
  end.
End Events.

(** A configuration in which the caller sets no hook. *)
Definition default_hooks (c : Caller.Config) : Prop :=
  Caller.GetValidator c = None /\
  Caller.GetConverter c = None /\
  Caller.GetSupportedOps c = None.

(** ** Example models (rql_test.go) *)

Definition tag_rql (s : string) : list (string * string) := [("rql", s)].
Definition basic (c : reflect_Type) : rtype := Declared c [].
Definition struct_ (ms : list StructField_) : rtype := Declared TyStruct ms.
Definition member (name : string) (t : rtype) (tag : string) : StructField_ :=
  StructField.mk name t (tag_rql tag) false.
Definition untagged (name : string) (t : rtype) : StructField_ :=
  StructField.mk name t [] false.
Definition embedded (name : string) (t : rtype) : StructField_ :=
  StructField.mk name t [] true.

(** A configuration with the model, the separator and the two
    limits set and nothing else. *)
Definition caller_config (model : rtype) (sep : string) (limit max : Z) : Caller.Config :=
  {| Caller.TagName := "";
     Caller.Model := Some model;
     Caller.OpPrefix := "";
     Caller.FieldSep := sep;
     Caller.ColumnFn := None;
     Caller.DefaultLimit := limit;
     Caller.LimitMaxValue := max;
     Caller.DefaultSort := [];
     Caller.GetDBOp := None;
     Caller.GetDBDir := None;
     Caller.GetValidator := None;
     Caller.GetConverter := None;
     Caller.GetSupportedOps := None |}.

(** The model of the test "sort". *)
Definition address_model : rtype :=
  struct_
    [member "Age" (basic TyInt) "filter,sort";
     member "Name" (basic TyString) "filter,sort";
     untagged "Address"
       (struct_
          [member "Name" (basic TyString) "filter,sort";
           untagged "ZIP" (PtrTo (struct_ [member "Code" (basic TyInt) "filter,sort"]))])].

(** The model of the test "embed models". *)
Definition person_model : rtype :=
  struct_ [member "Age" (basic TyInt) "filter"; member "Name" (basic TyString) "filter"].

Definition embed_model : rtype :=
  struct_ [embedded "Person" person_model; member "Address" (basic TyString) "filter"].

(** Two fields under one column name, and a field of a type
    without operators after a good one. *)
Definition twice_model : rtype :=
  struct_ [member "Name" (basic TyString) "filter";
           member "Alias" (basic TyInt) "sort,column=name"].

Definition unsupported_model : rtype :=
  struct_ [member "Age" (basic TyInt) "filter"; member "Any" (basic TyOther) "filter"].

(** The parser of a construction that went through. *)
Definition the_parser (r : option (built Parser)) : option Parser :=
  match r with
  | Some (Built p _) => Some p
  | _ => None
  end.

(** The schema and the configuration [defaults] makes of
    [caller_config model "." 25 0]. *)
Definition default_schema (model : rtype) : Schema.t :=
  {| Schema.TagName := DefaultTagName;
     Schema.Model := model;
     Schema.ColumnFn := Column;
     Schema.GetValidator := GetValidateFn Sprintf_ascii no_time_Parse;
     Schema.GetConverter := fun f => Some (GetConverterFn f);
     Schema.GetSupportedOps := GetSupportedOps |}.

Definition dotted_config : Config := Config_ dotted_parser.

(** The description [parseField] hands to the hooks: the field's,
    with the operator set still empty. *)
Definition bare (m : FieldMeta) : FieldMeta :=
  {| Name := Name m; Sortable := Sortable m; Filterable := Filterable m;
     FilterOps := ∅; Type_ := Type_ m; Layout := Layout m |}.

(** The options of a struct field's tag. *)
Definition tag_options (s : Schema.t) (sf : StructField_) : list string :=
  Split (Tag_Get (StructField.Tag sf) (Schema.TagName s)) ",".

Definition is_option (name opt : string) : bool := String.eqb (TrimSpace opt) name.

(** The struct of the specification's examples, and a struct with an
    option written with spaces and an unknown one. *)
Definition example_model : rtype :=
  struct_ [member "Age" (basic TyInt) "filter,sort";
           member "Name" (basic TyString) "filter,sort";
           member "ID" (basic TyUint) "filter,sort"].

Definition spaced_field : StructField_ :=
  member "FullName" (basic TyString) " filter ,foo,column=name".

Definition plain_config : Config := Config_ example_parser.

(** The parser and the log of a construction that went through;
    [d] and the empty log otherwise. *)
Definition built_parser (r : option (built Parser)) (d : Parser) : Parser :=
  match r with
  | Some (Built p _) => p
  | _ => d
  end.

Definition built_log (r : option (built Parser)) : list log_entry :=
  match r with
  | Some (Built _ log) => log
  | _ => []
  end.

Abbreviation address_built :=
  (NewParser Sprintf_ascii no_time_Parse 6 (caller_config address_model "." 25 0)).

Definition twice_built : option (built Parser) :=
  NewParser Sprintf_ascii no_time_Parse 2 (caller_config twice_model "" 0 0).

(** The example struct behind a maximum of 10 and no default limit. *)
Definition low_max_built : option (built Parser) :=
  NewParser Sprintf_ascii no_time_Parse 3 (caller_config example_model "" 0 10).

(** Two refused fields: a layout that does not parse on the first,
    a type without operators on the second. *)
Definition refused_model : rtype :=
  struct_ [member "At" (basic TyTime) "filter,layout=Kitchen";
           member "Age" (basic TyInt) "filter";
           member "Any" (basic TyOther) "filter"].

(** ** The options that name the column and the layout *)

(** The last option of the list that satisfies [P]. *)
Fixpoint last_such (P : string -> bool) (opts : list string) : option string :=
  match opts with
  | [] => None
  | opt :: rest =>
      match last_such P rest with
      | Some x => Some x
      | None => if P opt then Some opt else None
      end
  end.

(** An option that reaches the "column" case of the switch, and one
    that reaches the "layout" case. *)
Definition names_column (opt : string) : bool :=
  negb (is_option "sort" opt) && negb (is_option "filter" opt) && HasPrefix opt "column".

Definition names_layout (opt : string) : bool :=
  negb (is_option "sort" opt) && negb (is_option "filter" opt) &&
  negb (HasPrefix opt "column") && HasPrefix opt "layout".

(** The layout an option stands for: the standard layout of that
    name, or the text itself. *)
Definition option_layout (opt : string) : string :=
  let layout := TrimPrefix opt "layout=" in
  match layouts !! layout with
  | Some ly => ly
  | None => layout
  end.

(** A struct field whose tag names the column twice. *)
Definition renamed_field : StructField_ :=
  member "FullName" (basic TyString) "column=a,filter,column=full_name".

(** An embedded struct inside a named one. *)
Definition job_model : rtype :=
  struct_ [untagged "Job" (struct_ [embedded "Person" person_model;
                                    member "Title" (basic TyString) "filter"])].

Definition job_built : option (built Parser) :=
  NewParser Sprintf_ascii no_time_Parse 5 (caller_config job_model "" 0 0).

(** * Properties *)

(** ** Strings *)

Lemma append_nil_r (s : string) : s +:+ "" = s.
Proof. induction s as [|c s IH]; simpl; [reflexivity | now rewrite IH]. Qed.

Lemma append_assoc (a b c : string) : (a +:+ b) +:+ c = a +:+ b +:+ c.
Proof. induction a as [|x a IH]; simpl; [reflexivity | now rewrite IH]. Qed.

Lemma length_append (a b : string) :
  String.length (a +:+ b) = (String.length a + String.length b)%nat.
Proof. induction a as [|x a IH]; simpl; [reflexivity | now rewrite IH]. Qed.

Lemma count_byte_append (c : ascii) (a b : string) :
  count_byte c (a +:+ b) = (count_byte c a + count_byte c b)%nat.
Proof. induction a as [|x a IH]; simpl; [reflexivity | rewrite IH; lia]. Qed.

Lemma Join_cons (e : string) (rest : list string) (sep : string) :
  rest <> [] -> Join (e :: rest) sep = e +:+ sep +:+ Join rest sep.
Proof. destruct rest; [congruence | reflexivity]. Qed.

(** ** Column *)

Example Column_Username : Column "Username" = "username".
Proof. reflexivity. Qed.
Example Column_FullName : Column "FullName" = "full_name".
Proof. reflexivity. Qed.
Example Column_HTTPCode : Column "HTTPCode" = "http_code".
Proof. reflexivity. Qed.
Example rule_split_HTTPCode :
  Naming.rule_split Naming.boundary "HTTPCode" = ["HTTP"; "Code"].
Proof. reflexivity. Qed.
Example rule_split_UserN :
  Naming.rule_split Naming.boundary "UserN" = ["User"; "N"].
Proof. reflexivity. Qed.
Example rule_split_inner_UserN :
  Naming.rule_split Naming.inner_boundary "UserN" = ["UserN"].
Proof. reflexivity. Qed.
Example Column_UserN : Column "UserN" = "usern".
Proof. reflexivity. Qed.

Module NamingFacts.
Import Naming.

Lemma lower_case_append (a b : string) :
  lower_case (a +:+ b) = lower_case a +:+ lower_case b.
Proof. induction a as [|x a IH]; simpl; [reflexivity | now rewrite IH]. Qed.

Lemma words_from_nonempty bnd prev cur s : words_from bnd prev cur s <> [].
Proof.
  revert prev cur; induction s as [|c s IH]; intros prev cur; simpl.
  - discriminate.
  - destruct (bnd prev c (first_byte s)); [discriminate | apply IH].
Qed.

(** Splitting, joining and lower-casing is the one-pass rule. *)
Lemma rule_underscored bnd prev cur s :
  lower_case (Join (words_from bnd prev cur s) "_") =
  lower_case cur +:+ underscored bnd prev s.
Proof.
  revert prev cur; induction s as [|c s IH]; intros prev cur; simpl.
  - now rewrite append_nil_r.
  - destruct (bnd prev c (first_byte s)).
    + rewrite Join_cons by apply words_from_nonempty.
      rewrite !lower_case_append, IH. reflexivity.
    + rewrite IH, lower_case_append, append_assoc. reflexivity.
Qed.

Lemma ascii_upper c :
  (nat_of_ascii c <? 128)%nat = true -> IsUpper (rune_of_byte c) = upper c.
Proof.
  destruct c as [[] [] [] [] [] [] [] []]; vm_compute; congruence.
Qed.

Lemma ascii_lower c :
  (nat_of_ascii c <? 128)%nat = true -> IsLower (rune_of_byte c) = lower c.
Proof.
  destruct c as [[] [] [] [] [] [] [] []]; vm_compute; congruence.
Qed.

Lemma ascii_letter c :
  (nat_of_ascii c <? 128)%nat = true -> IsLetter (rune_of_byte c) = letter c.
Proof.
  destruct c as [[] [] [] [] [] [] [] []]; vm_compute; congruence.
Qed.

Lemma ascii_to_lower c :
  (nat_of_ascii c <? 128)%nat = true ->
  utf8 (ToLower (rune_of_byte c)) = byte_string (to_lower c).
Proof.
  destruct c as [[] [] [] [] [] [] [] []]; vm_compute; congruence.
Qed.

Lemma get_append_at pre c r :
  String.get (String.length pre) (pre +:+ String c r) = Some c.
Proof. induction pre as [|x pre IH]; simpl; [reflexivity | exact IH]. Qed.

Lemma get_append_next pre c r :
  String.get (String.length pre + 1) (pre +:+ String c r) = first_byte r.
Proof.
  induction pre as [|x pre IH]; simpl; [now destruct r | exact IH].
Qed.

Lemma get_append_prev pre rest d :
  last_byte pre = Some d ->
  String.get (String.length pre - 1) (pre +:+ rest) = Some d.
Proof.
  induction pre as [|x pre IH]; simpl; [discriminate |].
  destruct pre as [|y pre]; [intros [= ->]; reflexivity |].
  intros H. specialize (IH H). simpl in IH |- *.
  now rewrite Nat.sub_0_r in IH.
Qed.

Lemma last_byte_None pre : last_byte pre = None -> pre = "".
Proof.
  induction pre as [|x pre IH]; [reflexivity |].
  simpl. destruct pre; [discriminate |]. intros H. now specialize (IH H).
Qed.

Lemma last_byte_Some_length pre d :
  last_byte pre = Some d -> (0 < String.length pre)%nat.
Proof. destruct pre; [discriminate | simpl; lia]. Qed.

Lemma last_byte_snoc pre c : last_byte (pre +:+ byte_string c) = Some c.
Proof.
  induction pre as [|x pre IH]; [reflexivity |].
  simpl. destruct pre; [reflexivity | exact IH].
Qed.

Lemma ascii_only_append a b :
  ascii_only (a +:+ b) = ascii_only a && ascii_only b.
Proof.
  induction a as [|x a IH]; simpl; [reflexivity |].
  now rewrite IH, andb_assoc.
Qed.

Lemma ascii_only_last pre d :
  ascii_only pre = true -> last_byte pre = Some d ->
  (nat_of_ascii d <? 128)%nat = true.
Proof.
  induction pre as [|x pre IH]; [discriminate |].
  simpl. intros [Hx Hp]%andb_prop.
  destruct pre; [intros [= <-]; exact Hx | now apply IH].
Qed.

(** One round of the loop of [Column], at the index that follows
    [pre], against the one-pass rule. *)
Lemma Column_step_at pre c r b :
  ascii_only (pre +:+ String c r) = true ->
  Column_step (pre +:+ String c r) b (String.length pre) =
  b +:+ (if inner_boundary (last_byte pre) c (first_byte r) then "_" else "")
    +:+ byte_string (to_lower c).
Proof.
  intros Hascii.
  rewrite ascii_only_append in Hascii.
  apply andb_prop in Hascii as [Hpre Hcr].
  simpl in Hcr. apply andb_prop in Hcr as [Hc Hr].
  unfold Column_step, byte_at.
  rewrite get_append_at, length_append.
  rewrite (ascii_upper c Hc), (ascii_to_lower c Hc).
  rewrite get_append_next.
  unfold inner_boundary, boundary.
  destruct (last_byte pre) as [d|] eqn:Hlast.
  - pose proof (last_byte_Some_length _ _ Hlast) as Hlen.
    rewrite (get_append_prev _ _ _ Hlast).
    pose proof (ascii_only_last _ _ Hpre Hlast) as Hd.
    rewrite (ascii_lower d Hd), (ascii_letter d Hd).
    destruct (Nat.ltb_spec 0 (String.length pre)) as [_|]; [|lia].
    destruct r as [|e r]; simpl first_byte; simpl String.length.
    + destruct (Nat.ltb_spec (String.length pre) (String.length pre + 1 - 1)) as [|_]; [lia|].
      simpl. reflexivity.
    + destruct (Nat.ltb_spec (String.length pre)
                  (String.length pre + S (S (String.length r)) - 1)) as [_|]; [|lia].
      simpl in Hr. apply andb_prop in Hr as [He _].
      rewrite (ascii_lower e He). simpl.
      destruct (upper c && (lower d || lower e && letter d));
        rewrite ?append_assoc; reflexivity.
  - apply last_byte_None in Hlast. subst pre. simpl.
    destruct (first_byte r); simpl.
    + now rewrite !andb_false_r.
    + reflexivity.
Qed.

Lemma Column_fold rest : forall pre b,
  ascii_only (pre +:+ rest) = true ->
  fold_left (Column_step (pre +:+ rest))
            (seq (String.length pre) (String.length rest)) b =
  b +:+ underscored inner_boundary (last_byte pre) rest.
Proof.
  induction rest as [|c r IH]; intros pre b Hascii.
  - simpl. now rewrite append_nil_r.
  - simpl String.length. simpl seq. simpl fold_left.
    rewrite Column_step_at by exact Hascii.
    assert (Hs : pre +:+ String c r = (pre +:+ byte_string c) +:+ r)
      by now rewrite append_assoc.
    assert (Hl : S (String.length pre) = String.length (pre +:+ byte_string c))
      by (rewrite length_append; simpl; lia).
    rewrite Hs, Hl, IH by now rewrite <- Hs.
    rewrite last_byte_snoc. simpl underscored.
    rewrite !append_assoc. reflexivity.
Qed.

End NamingFacts.

(** A two-byte letter is read as two Latin-1 runes and written back
    as four bytes: the rule is about ASCII identifiers. *)
Example Column_two_byte_letter :
  Column (String (ascii_of_nat 195) (byte_string (ascii_of_nat 137))) =
  String (ascii_of_nat 195) (String (ascii_of_nat 163)
    (String (ascii_of_nat 194) (byte_string (ascii_of_nat 137)))).
Proof. vm_compute. reflexivity. Qed.

(** C7, as stated: the rule of the specification puts a boundary in
    front of a final uppercase letter that follows a lowercase letter,
    [Column] does not; on the identifier UserN the two differ. *)
Lemma Column_final_upper_counterexample :
  Naming.ascii_only "UserN" = true /\
  Column "UserN" = "usern" /\
  Naming.rule Naming.boundary "UserN" = "user_n" /\
  Column "UserN" <> Naming.rule Naming.boundary "UserN".
Proof. vm_compute. repeat split; discriminate. Qed.

(** C7, amended: on every ASCII identifier [Column] cuts the
    identifier in front of every uppercase letter that is not the last
    character and is either preceded by a lowercase letter, or followed
    by a lowercase letter and preceded by a letter; it joins the words
    with underscores and lower-cases the result.  In particular
    UserName gives user_name and HTTPCode gives http_code. *)
Theorem Column_rule :
  (forall s : string,
     Naming.ascii_only s = true ->
     Column s = Naming.rule Naming.inner_boundary s) /\
  Column "UserName" = "user_name" /\
  Column "HTTPCode" = "http_code".
Proof.
  split; [| split; reflexivity].
  intros s Hs. unfold Column, Naming.rule, Naming.rule_split.
  rewrite NamingFacts.rule_underscored. simpl Naming.lower_case.
  exact (NamingFacts.Column_fold s "" "" Hs).
Qed.

Lemma Column_rule_witness :
  Naming.ascii_only "HTTPCode" = true /\
  Column "HTTPCode" = Naming.rule Naming.inner_boundary "HTTPCode".
Proof.
  split; [reflexivity |].
  apply (proj1 Column_rule). reflexivity.
Defined.

(** ** Integral numbers: validateInt, validateUInt, convertInt *)

Lemma magnitude_up m e : 0 <= e -> magnitude m e = Z.pos m * 2 ^ e.
Proof. intros He. unfold magnitude. now rewrite Z.shiftl_mul_pow2. Qed.

Lemma magnitude_down m e : e < 0 -> magnitude m e = Z.pos m / 2 ^ (- e).
Proof.
  intros He. unfold magnitude.
  rewrite <- Z.shiftr_opp_r, Z.shiftr_div_pow2 by lia. reflexivity.
Qed.

Lemma whole_fraction (n : Z) (d : Z) :
  0 < d -> (whole (n # Z.to_pos d) <-> n / d * d = n).
Proof.
  intros Hd. unfold whole, Qeq. simpl.
  rewrite Z2Pos.id by exact Hd. split.
  - intros [z Hz]. rewrite Z.mul_1_r in Hz. subst n.
    now rewrite Z.div_mul by lia.
  - intros H. exists (n / d). lia.
Qed.

Lemma signed_div_exact neg (m d : Z) :
  0 < d -> (signed neg m / d * d = signed neg m <-> m / d * d = m).
Proof.
  intros Hd. destruct neg; simpl; [| tauto].
  split; intros H.
  - assert (Hm : m = (- (- m / d)) * d) by lia.
    rewrite Hm at 1. rewrite Z.div_mul by lia. lia.
  - assert (Hm : - m = (- (m / d)) * d) by lia.
    rewrite Hm at 1. rewrite Z.div_mul by lia. lia.
Qed.

(** [math.Trunc(n) == n] holds exactly for the floats that stand for
    a whole number. *)
Lemma Trunc_fixed_iff_whole x q :
  f64_value x = Some q -> (f64_eqb (Trunc x) x = true <-> whole q).
Proof.
  destruct x as [neg|neg| |neg m e]; simpl; try discriminate.
  - intros [= <-]. split; [|reflexivity]. intros _. now exists 0.
  - destruct (Z.leb_spec 0 e) as [He|He]; intros [= <-].
    + split.
      * intros _. now exists (signed neg (Z.pos m * 2 ^ e)).
      * intros _. simpl. rewrite Bool.eqb_reflx, Z.eqb_refl. reflexivity.
    + assert (Hd : 0 < 2 ^ (- e)) by (apply Z.pow_pos_nonneg; lia).
      rewrite whole_fraction, signed_div_exact by exact Hd.
      rewrite magnitude_down by exact He.
      destruct (Z.pos m / 2 ^ (- e)) as [|k|k] eqn:Hq.
      * simpl. split; [discriminate | lia].
      * simpl f64_eqb. rewrite Bool.eqb_reflx. simpl andb.
        rewrite Z.min_r by lia.
        replace (e - e) with 0 by lia. rewrite Z.shiftl_0_r.
        rewrite Z.shiftl_mul_pow2 by lia.
        replace (0 - e) with (- e) by lia.
        rewrite Z.eqb_eq. tauto.
      * assert (0 <= Z.pos m / 2 ^ (- e)) by (apply Z.div_pos; lia). lia.
Qed.

(** [int(n)] is the whole number a float stands for, when that number
    is an [int]. *)
Lemma int_of_float64_whole x q z :
  f64_value x = Some q -> (q == inject_Z z)%Q ->
  min_int <= z <= max_int -> int_of_float64 x = z.
Proof.
  destruct x as [neg|neg| |neg m e]; simpl; try discriminate.
  - intros [= <-]. unfold Qeq. simpl. lia.
  - destruct (Z.leb_spec 0 e) as [He|He]; intros [= <-]; unfold Qeq; simpl.
    + rewrite magnitude_up by exact He. intros Hz Hr.
      assert (Hs : (if neg then - (Z.pos m * 2 ^ e) else Z.pos m * 2 ^ e) = z)
        by (unfold signed in Hz; lia).
      rewrite Hs.
      destruct (Z.leb_spec min_int z), (Z.leb_spec z max_int); simpl; lia.
    + assert (Hd : 0 < 2 ^ (- e)) by (apply Z.pow_pos_nonneg; lia).
      rewrite Z2Pos.id by exact Hd.
      rewrite magnitude_down by exact He. intros Hz Hr.
      assert (Hs : (if neg then - (Z.pos m / 2 ^ (- e)) else Z.pos m / 2 ^ (- e)) = z).
      { destruct neg; simpl in Hz.
        - assert (Hm : Z.pos m = (- z) * 2 ^ (- e)) by lia.
          rewrite Hm, Z.div_mul by lia. lia.
        - assert (Hm : Z.pos m = z * 2 ^ (- e)) by lia.
          rewrite Hm, Z.div_mul by lia. lia. }
      rewrite Hs.
      destruct (Z.leb_spec min_int z), (Z.leb_spec z max_int); simpl; lia.
Qed.

Lemma negative_value x q :
  f64_value x = Some q -> (q < 0)%Q -> f64_ltb_zero x = true.
Proof.
  destruct x as [neg|neg| |neg m e]; simpl; try discriminate.
  - intros [= <-]. unfold Qlt. simpl. lia.
  - destruct (Z.leb_spec 0 e) as [He|He]; intros [= <-]; unfold Qlt; simpl;
      destruct neg; simpl; try reflexivity.
    + assert (0 < 2 ^ e) by (apply Z.pow_pos_nonneg; lia). nia.
    + lia.
Qed.

Lemma nonnegative_value x q :
  f64_value x = Some q -> (0 <= q)%Q -> f64_ltb_zero x = false.
Proof.
  destruct x as [neg|neg| |neg m e]; simpl; try discriminate.
  - reflexivity.
  - destruct (Z.leb_spec 0 e) as [He|He]; intros [= <-]; unfold Qle; simpl;
      destruct neg; simpl; try reflexivity.
    + assert (0 < 2 ^ e) by (apply Z.pow_pos_nonneg; lia). nia.
    + lia.
Qed.

Example validateInt_one_and_a_half :
  validateInt Sprintf_ascii EQ age_field (VFloat64 one_and_a_half) = Some "not an integer".
Proof. reflexivity. Qed.

Example validateInt_two :
  validateInt Sprintf_ascii EQ age_field (VFloat64 two) = None /\
  convertInt EQ age_field (VFloat64 two) = Ok (VInt 2).
Proof. split; reflexivity. Qed.

Example validateUInt_minus_two :
  validateUInt Sprintf_ascii EQ id_field (VFloat64 (f64_of_Z (-2))) =
  Some "not an unsigned integer".
Proof. reflexivity. Qed.

(** C8, as stated: 2^70 is a JSON number with zero fractional part;
    the validator of an [int] field accepts it, and the converter does
    not give the integer of equal value (no [int] has it). *)
Lemma convertInt_beyond_int_counterexample :
  integer_type (Type_ age_field) = true /\
  f64_value two_to_the_70 = Some (inject_Z (2 ^ 70)) /\
  GetValidateFn Sprintf_ascii no_time_Parse age_field = Some (validateInt Sprintf_ascii) /\
  validateInt Sprintf_ascii EQ age_field (VFloat64 two_to_the_70) = None /\
  GetConverterFn age_field = convertInt /\
  convertInt EQ age_field (VFloat64 two_to_the_70) = Ok (VInt min_int) /\
  convertInt EQ age_field (VFloat64 two_to_the_70) <> Ok (VInt (2 ^ 70)).
Proof.
  split; [reflexivity |]. split; [reflexivity |]. split; [reflexivity |].
  split; [reflexivity |]. split; [reflexivity |]. split; [reflexivity |].
  vm_compute. discriminate.
Qed.

(** C8, amended: for every integer-typed field the validator
    rejects every JSON number with a non-zero fractional part and
    accepts every JSON number with zero fractional part (non-negative,
    when the field is unsigned); the converter turns an accepted
    number into the integer of equal value whenever that value is an
    [int], that is between -2^63 and 2^63-1; the validator of an
    unsigned field rejects every negative number. *)
Theorem integer_field_validation
    (Sprintf : string -> list value -> string)
    (time_Parse : string -> string -> error)
    (o : Op) (f : FieldMeta) (x : float64) (q : Q) :
  integer_type (Type_ f) = true ->
  f64_value x = Some q ->
  exists validate : Validator,
    GetValidateFn Sprintf time_Parse f = Some validate /\
    GetConverterFn f = convertInt /\
    (~ whole q -> validate o f (VFloat64 x) <> None) /\
    (unsigned_integer_type (Type_ f) = true -> (q < 0)%Q ->
     validate o f (VFloat64 x) <> None) /\
    (forall z : Z,
       (q == inject_Z z)%Q ->
       (unsigned_integer_type (Type_ f) = true -> 0 <= z) ->
       validate o f (VFloat64 x) = None /\
       (min_int <= z <= max_int -> convertInt o f (VFloat64 x) = Ok (VInt z))).
Proof.
  intros Hty Hq.
  pose proof (Trunc_fixed_iff_whole x q Hq) as Hfix.
  assert (Hint : forall z, (q == inject_Z z)%Q ->
            validateInt Sprintf o f (VFloat64 x) = None).
  { intros z Hz. unfold validateInt. simpl.
    assert (Hw : whole q) by now exists z.
    apply Hfix in Hw. now rewrite Hw. }
  assert (Hfrac : ~ whole q -> validateInt Sprintf o f (VFloat64 x) <> None).
  { intros Hn. unfold validateInt. simpl.
    destruct (f64_eqb (Trunc x) x) eqn:E; [| discriminate].
    exfalso. apply Hn, Hfix. reflexivity. }
  assert (Hconv : forall z, (q == inject_Z z)%Q -> min_int <= z <= max_int ->
            convertInt o f (VFloat64 x) = Ok (VInt z)).
  { intros z Hz Hr. unfold convertInt.
    now rewrite (int_of_float64_whole x q z Hq Hz Hr). }
  unfold integer_type in Hty. apply orb_prop in Hty as [Hs | Hu].
  - exists (validateInt Sprintf).
    assert (Hnu : unsigned_integer_type (Type_ f) = false)
      by (destruct (Type_ f); simpl in Hs |- *; congruence).
    unfold GetValidateFn, GetConverterFn.
    destruct (Type_ f); try discriminate Hs;
      (split; [reflexivity | split; [reflexivity |]]);
      (split; [exact Hfrac | split; [intros Hc; discriminate Hc |]]);
      intros z Hz _; (split; [exact (Hint z Hz) | exact (Hconv z Hz)]).
  - exists (validateUInt Sprintf).
    assert (Huint : forall z, (q == inject_Z z)%Q -> 0 <= z ->
              validateUInt Sprintf o f (VFloat64 x) = None).
    { intros z Hz Hpos. unfold validateUInt. rewrite (Hint z Hz). simpl.
      rewrite (nonnegative_value x q Hq); [reflexivity |].
      rewrite Hz. unfold Qle. simpl. lia. }
    assert (Hufrac : ~ whole q -> validateUInt Sprintf o f (VFloat64 x) <> None).
    { intros Hn. unfold validateUInt.
      destruct (validateInt Sprintf o f (VFloat64 x)) eqn:E; [discriminate |].
      now apply Hfrac in Hn. }
    assert (Hneg : (q < 0)%Q -> validateUInt Sprintf o f (VFloat64 x) <> None).
    { intros Hn. unfold validateUInt.
      destruct (validateInt Sprintf o f (VFloat64 x)); [discriminate |].
      simpl. now rewrite (negative_value x q Hq Hn). }
    unfold GetValidateFn, GetConverterFn.
    destruct (Type_ f); try discriminate Hu;
      (split; [reflexivity | split; [reflexivity |]]);
      (split; [exact Hufrac | split; [intros _; exact Hneg |]]);
      intros z Hz Hpos;
      (split; [exact (Huint z Hz (Hpos eq_refl)) | exact (Hconv z Hz)]).
Qed.

Lemma integer_field_validation_witness :
  integer_type (Type_ age_field) = true /\
  f64_value two = Some (4503599627370496 # Z.to_pos (2 ^ 51)) /\
  exists validate : Validator,
    GetValidateFn Sprintf_ascii no_time_Parse age_field = Some validate /\
    GetConverterFn age_field = convertInt /\
    (~ whole (4503599627370496 # Z.to_pos (2 ^ 51)) ->
     validate EQ age_field (VFloat64 two) <> None) /\
    (unsigned_integer_type (Type_ age_field) = true ->
     (4503599627370496 # Z.to_pos (2 ^ 51) < 0)%Q ->
     validate EQ age_field (VFloat64 two) <> None) /\
    (forall z : Z,
       (4503599627370496 # Z.to_pos (2 ^ 51) == inject_Z z)%Q ->
       (unsigned_integer_type (Type_ age_field) = true -> 0 <= z) ->
       validate EQ age_field (VFloat64 two) = None /\
       (min_int <= z <= max_int -> convertInt EQ age_field (VFloat64 two) = Ok (VInt z))).
Proof.
  split; [reflexivity |]. split; [reflexivity |].
  apply (integer_field_validation Sprintf_ascii no_time_Parse EQ age_field two);
    reflexivity.
Defined.

(** ** Induction on values *)

Lemma value_ind_nested (P : value -> Prop) :
  P VNil ->
  (forall b, P (VBool b)) ->
  (forall x, P (VFloat64 x)) ->
  (forall s, P (VString s)) ->
  (forall l, Forall P l -> P (VSlice l)) ->
  (forall m, Forall (fun kv => P (snd kv)) m -> P (VMap m)) ->
  (forall n, P (VInt n)) ->
  (forall layout s, P (VTime layout s)) ->
  forall v, P v.
Proof.
  intros HNil HBool HFloat HString HSlice HMap HInt HTime.
  fix IH 1. intros [ | b | x | s | l | m | n | layout s].
  - exact HNil.
  - apply HBool.
  - apply HFloat.
  - apply HString.
  - apply HSlice. induction l as [|v l IHl]; constructor; [apply IH | exact IHl].
  - apply HMap. induction m as [|[k v] m IHm]; constructor; [apply IH | exact IHm].
  - apply HInt.
  - apply HTime.
Qed.

(** ** The walkers append, whatever the state *)

Section Writers.
Variable p : Parser.

Local Open Scope parse_scope.

Lemma chunks_text_app a b :
  chunks_text p (a ++ b) = chunks_text p a +:+ chunks_text p b.
Proof.
  induction a as [|c a IH]; simpl; [reflexivity |].
  now rewrite IH, append_assoc.
Qed.

Lemma chunks_args_app a b :
  chunks_args (a ++ b) = chunks_args a ++ chunks_args b.
Proof. unfold chunks_args. now rewrite flat_map_app. Qed.

Lemma emit_nil ps : emit p ps [] = ps.
Proof.
  unfold emit. simpl. rewrite append_nil_r, app_nil_r. now destruct ps.
Qed.

Lemma emit_app ps a b : emit p (emit p ps a) b = emit p ps (a ++ b).
Proof.
  unfold emit. simpl.
  now rewrite chunks_text_app, chunks_args_app, append_assoc, app_assoc.
Qed.

Lemma writes_ret : writes p (ret tt) (Ok []).
Proof. intros ps. unfold ret. now rewrite emit_nil. Qed.

Lemma writes_WriteString s : writes p (WriteString s) (Ok [Sep s]).
Proof.
  intros ps. unfold WriteString, emit. simpl.
  now rewrite append_nil_r, app_nil_r.
Qed.

Lemma writes_seq c1 c2 r1 r2 :
  writes p c1 r1 -> writes p c2 r2 -> writes p (c1 ;; c2) (then_ r1 r2).
Proof.
  intros H1 H2 ps. unfold bind. rewrite H1.
  destruct r1 as [a | e | w]; simpl; try reflexivity.
  rewrite H2. destruct r2 as [b | e | w]; simpl; try reflexivity.
  now rewrite emit_app.
Qed.

Lemma wf_then r1 r2 : wf_trace p r1 -> wf_trace p r2 -> wf_trace p (then_ r1 r2).
Proof.
  destruct r1 as [a | |], r2 as [b | |]; simpl; try tauto.
  intros Ha Hb. apply Forall_app. now split.
Qed.

Lemma writer_ret : writer p (ret tt).
Proof. exists (Ok []). split; [apply writes_ret | constructor]. Qed.

Lemma writer_sep s : sep_text p s -> writer p (WriteString s).
Proof.
  intros Hs. exists (Ok [Sep s]). split; [apply writes_WriteString |].
  constructor; [exact Hs | constructor].
Qed.

Lemma writer_byte c : sep_text p (byte_string c) -> writer p (WriteByte c).
Proof. apply writer_sep. Qed.

Lemma writer_seq c1 c2 : writer p c1 -> writer p c2 -> writer p (c1 ;; c2).
Proof.
  intros [r1 [H1 W1]] [r2 [H2 W2]]. exists (then_ r1 r2).
  split; [now apply writes_seq | now apply wf_then].
Qed.

Lemma writer_when b c : writer p c -> writer p (when b c).
Proof. destruct b; simpl; [tauto | intros _; apply writer_ret]. Qed.

Lemma writer_lift {A} (r : result A) (k : A -> M unit) :
  (forall a, r = Ok a -> writer p (k a)) -> writer p (x <- lift r ;; k x).
Proof.
  intros H. destruct r as [a | e | w].
  - destruct (H a eq_refl) as [ra [Hw Hwf]]. exists ra. split; [| exact Hwf].
    intros ps. unfold bind, lift. simpl. apply Hw.
  - exists (ParseErr e). split; [| exact I]. intros ps. reflexivity.
  - exists (Panic w). split; [| exact I]. intros ps. reflexivity.
Qed.

Lemma writer_lift_unit (r : result unit) : writer p (lift r).
Proof.
  destruct r as [[] | e | w].
  - exists (Ok []). split; [| constructor].
    intros ps. unfold lift. simpl. now rewrite emit_nil.
  - exists (ParseErr e). split; [| exact I]. intros ps. reflexivity.
  - exists (Panic w). split; [| exact I]. intros ps. reflexivity.
Qed.

Lemma sep_AND : sep_text p " AND ".  Proof. left. reflexivity. Qed.
Lemma sep_open : sep_text p "(".  Proof. right. left. reflexivity. Qed.
Lemma sep_close : sep_text p ")".  Proof. right. right. left. reflexivity. Qed.
Lemma sep_space : sep_text p " ".  Proof. right. right. right. left. reflexivity. Qed.
Lemma sep_op o : sep_text p (GetDBOp p o None).
Proof. right. right. right. right. now exists o. Qed.

End Writers.

Section FieldWriters.
Variable Sprintf : string -> list value -> string.
Variable p : Parser.

Local Open Scope parse_scope.

Lemma writes_ext c1 c2 r :
  (forall ps, c1 ps = c2 ps) -> writes p c2 r -> writes p c1 r.
Proof. intros H Hw ps. rewrite H. apply Hw. Qed.

Lemma writer_ext c1 c2 :
  (forall ps, c1 ps = c2 ps) -> writer p c2 -> writer p c1.
Proof. intros H [r [Hw Hwf]]. exists r. split; [now apply (writes_ext c1 c2) | exact Hwf]. Qed.

(** The five statements, followed by [k], are [predicate] followed
    by [k]. *)
Lemma predicate_then msg_ f o v (k : M unit) ps :
  (err <- lift (call_ValidateFn f o v) ;;
   lift (must Sprintf err msg_ [VString (Name f)]) ;;
   WriteString (fmtOp p f o) ;;
   arg <- lift (call_CovertFn f o v) ;;
   append_value arg ;;
   k) ps =
  (predicate Sprintf p msg_ f o v ;; k) ps.
Proof.
  unfold predicate, bind, lift.
  destruct (call_ValidateFn f o v) as [[e|] | e | w]; simpl; try reflexivity.
  destruct (call_CovertFn f o v) as [arg | e | w]; simpl; reflexivity.
Qed.

Lemma predicate_writes msg_ f o v :
  writes p (predicate Sprintf p msg_ f o v)
    (match call_ValidateFn f o v with
     | Ok None =>
         match call_CovertFn f o v with
         | Ok arg => Ok [Pred f o v arg]
         | ParseErr e => ParseErr e
         | Panic w => Panic w
         end
     | Ok (Some e) =>
         ParseErr {| msg := Sprintf (msg_ +:+ ": %s") ([VString (Name f)] ++ [VString e]) |}
     | ParseErr e => ParseErr e
     | Panic w => Panic w
     end).
Proof.
  intros ps. unfold predicate, bind, lift.
  destruct (call_ValidateFn f o v) as [[e|] | e | w]; simpl; try reflexivity.
  destruct (call_CovertFn f o v) as [arg | e | w]; simpl; try reflexivity.
  unfold emit. simpl. now rewrite append_nil_r.
Qed.

Lemma predicate_writer msg_ f o v :
  (exists k, fields p !! k = Some f) -> writer p (predicate Sprintf p msg_ f o v).
Proof.
  intros Hf. eexists. split; [apply predicate_writes |].
  destruct (call_ValidateFn f o v) as [[e|] | e | w] eqn:Hv; simpl; try exact I.
  destruct (call_CovertFn f o v) as [arg | e | w] eqn:Hc; simpl; try exact I.
  constructor; [| constructor]. simpl. auto.
Qed.

Lemma field_terms_writer f terms i :
  (exists k, fields p !! k = Some f) -> writer p (field_terms Sprintf p f terms i).
Proof.
  intros Hf. revert i. induction terms as [|[opName opVal] rest IH]; intros i.
  - apply writer_ret.
  - simpl. apply writer_seq; [apply writer_when, writer_sep, sep_AND |].
    apply writer_lift. intros o _.
    apply writer_lift. intros _ _.
    eapply writer_ext; [intros ps; apply predicate_then |].
    apply writer_seq; [now apply predicate_writer | apply IH].
Qed.

Lemma field_writer f v :
  (exists k, fields p !! k = Some f) -> writer p (field Sprintf p f v).
Proof.
  intros Hf. unfold field. destruct (as_map v) as [terms ok].
  apply writer_seq.
  - apply writer_when. now apply (predicate_writer "invalid datatype for field %q").
  - apply writer_seq; [apply writer_when, writer_byte, sep_open |].
    apply writer_seq; [now apply field_terms_writer |].
    apply writer_when, writer_byte, sep_close.
Qed.
End FieldWriters.

Section Walkers.
Variable Sprintf : string -> list value -> string.
Variable p : Parser.

Local Open Scope parse_scope.

Lemma relOp_terms_writer self o terms i :
  Forall (fun t => writer p (self t)) terms ->
  writer p (relOp_terms Sprintf p self o terms i).
Proof.
  intros Hall. revert i. induction Hall as [|t rest Ht _ IH]; intros i.
  - apply writer_ret.
  - cbn [relOp_terms]. apply writer_seq.
    + apply writer_when.
      apply writer_seq; [apply writer_byte, sep_space |].
      apply writer_seq; [apply writer_sep, sep_op | apply writer_byte, sep_space].
    + apply writer_lift. intros _ _.
      apply writer_seq; [exact Ht | apply IH].
Qed.

Lemma relOp_self_writer self o terms :
  Forall (fun t => writer p (self t)) terms ->
  writer p (relOp_self Sprintf p self o terms).
Proof.
  intros Hall. unfold relOp_self.
  apply writer_seq; [apply writer_when, writer_byte, sep_open |].
  apply writer_seq; [now apply relOp_terms_writer |].
  apply writer_when, writer_byte, sep_close.
Qed.

Lemma and_entry_writer self k v :
  walkable p self v -> writer p (and_entry Sprintf p self k v).
Proof.
  intros Hv. unfold and_entry.
  destruct (String.eqb k (op p OR)).
  { destruct v; try apply writer_lift_unit.
    apply writer_lift. intros _ _. now apply relOp_self_writer. }
  destruct (String.eqb k (op p AND)).
  { destruct v; try apply writer_lift_unit.
    apply writer_lift. intros _ _. now apply relOp_self_writer. }
  destruct (fields p !! k) as [f|] eqn:Hf.
  - apply writer_lift. intros _ _. apply field_writer. now exists k.
  - apply writer_lift_unit.
Qed.

Lemma and_entries_writer self f i :
  Forall (fun kv => walkable p self (snd kv)) f ->
  writer p (and_entries Sprintf p self f i).
Proof.
  intros Hall. revert i. induction Hall as [|[k v] rest Hv _ IH]; intros i.
  - apply writer_ret.
  - cbn [and_entries]. apply writer_seq; [apply writer_when, writer_sep, sep_AND |].
    apply writer_seq; [now apply and_entry_writer | apply IH].
Qed.

(** [and] is a writer on every document, at every depth. *)
Lemma and_value_writer v :
  writer p (and_value Sprintf p v) /\ walkable p (and_value Sprintf p) v.
Proof.
  induction v as [ | b | x | s | l IH | m IH | n | layout s] using value_ind_nested;
    try (split; [apply writer_ret | exact I]).
  - split; [apply writer_ret |]. simpl.
    eapply Forall_impl; [exact IH |]. intros t [Ht _]. exact Ht.
  - split; [| exact I]. simpl. apply and_entries_writer.
    eapply Forall_impl; [exact IH |]. intros kv [_ Hkv]. exact Hkv.
Qed.

Lemma and_writer f : writer p (and_ Sprintf p f).
Proof. apply (and_value_writer (VMap f)). Qed.

End Walkers.

(** ** ParseQuery *)

Section ParseQueryFacts.
Variable Sprintf : string -> list value -> string.
Variable p : Parser.

(** [ParseQuery_body], stage by stage. *)
Lemma ParseQuery_body_stages q :
  ParseQuery_body Sprintf p q =
  if negb (0 <=? Query.Offset q) then
    ParseErr {| msg := Sprintf "offset must be greater than or equal to 0" [] |}
  else if negb (limit_ok p q) then
    ParseErr {| msg := Sprintf "limit must be greater than 0 and less than or equal to %d"
                               [VInt (LimitMaxValue p)] |}
  else
    match and_ Sprintf p (Query.Filter q) (newParseState p) with
    | Ok (_, ps) =>
        match sort_or_default Sprintf p q with
        | Ok s =>
            Ok {| Params.Limit := if Query.Limit q =? 0 then DefaultLimit p
                                  else Query.Limit q;
                  Params.Offset := Query.Offset q;
                  Params.Select := Join (Query.Select q) ", ";
                  Params.Sort := s;
                  Params.FilterExp := Buffer ps;
                  Params.FilterArgs := values ps |}
        | ParseErr e => ParseErr e
        | Panic w => Panic w
        end
    | ParseErr e => ParseErr e
    | Panic w => Panic w
    end.
Proof.
  unfold ParseQuery_body, limit_ok, sort_or_default, expect.
  destruct (0 <=? Query.Offset q); simpl; [| reflexivity].
  destruct (Query.Limit q =? 0); simpl.
  - destruct (and_ Sprintf p (Query.Filter q) (newParseState p)) as [[[] ps] | e | w];
      simpl; try reflexivity.
    destruct (sort Sprintf p (Query.Sort q)) as [s | e | w]; simpl; reflexivity.
  - destruct ((0 <? Query.Limit q) && (Query.Limit q <=? LimitMaxValue p));
      simpl; [| reflexivity].
    destruct (and_ Sprintf p (Query.Filter q) (newParseState p)) as [[[] ps] | e | w];
      simpl; try reflexivity.
    destruct (sort Sprintf p (Query.Sort q)) as [s | e | w]; simpl; reflexivity.
Qed.

Lemma ParseQuery_Returned_Some q pr err :
  ParseQuery Sprintf p q = Returned (Some pr) err ->
  ParseQuery_body Sprintf p q = Ok pr /\ err = None.
Proof.
  unfold ParseQuery. destruct (ParseQuery_body Sprintf p q); intros [=]; subst; auto.
Qed.

(** What a successful call went through. *)
Lemma ParseQuery_body_Ok q pr :
  ParseQuery_body Sprintf p q = Ok pr ->
  0 <= Query.Offset q /\
  limit_ok p q = true /\
  exists ps s,
    and_ Sprintf p (Query.Filter q) (newParseState p) = Ok (tt, ps) /\
    sort_or_default Sprintf p q = Ok s /\
    pr = {| Params.Limit := if Query.Limit q =? 0 then DefaultLimit p
                            else Query.Limit q;
            Params.Offset := Query.Offset q;
            Params.Select := Join (Query.Select q) ", ";
            Params.Sort := s;
            Params.FilterExp := Buffer ps;
            Params.FilterArgs := values ps |}.
Proof.
  rewrite ParseQuery_body_stages.
  destruct (Z.leb_spec 0 (Query.Offset q)); simpl; [| discriminate].
  destruct (limit_ok p q); simpl; [| discriminate].
  destruct (and_ Sprintf p (Query.Filter q) (newParseState p)) as [[[] ps] | e | w];
    try discriminate.
  destruct (sort_or_default Sprintf p q) as [s | e | w]; try discriminate.
  intros [= <-]. repeat split; try assumption. now exists ps, s.
Qed.
End ParseQueryFacts.


(** Unfold the numbers of the example queries and parsers. *)
Ltac concrete_query :=
  cbv [example_query example_parser default_Config DefaultMaxLimit DefaultLimit_
       Query.Limit Query.Offset LimitMaxValue DefaultLimit Config_].


(** ** The first failure decides *)

Section FirstFailure.
Variable Sprintf : string -> list value -> string.
Variable p : Parser.

Local Open Scope parse_scope.

Lemma bind_Ok {A B} (c : M A) (k : A -> M B) ps a ps' :
  c ps = Ok (a, ps') -> bind c k ps = k a ps'.
Proof. intros H. unfold bind. now rewrite H. Qed.


Lemma writes_Ok_inv c r ps ps' :
  writes p c r -> c ps = Ok (tt, ps') ->
  exists cs, r = Ok cs /\ ps' = emit p ps cs.
Proof.
  intros Hw H. rewrite Hw in H. destruct r as [cs | e | w]; try discriminate.
  injection H as <-. now exists cs.
Qed.

Lemma writes_ParseErr_inv c r ps e :
  writes p c r -> c ps = ParseErr e -> r = ParseErr e.
Proof.
  intros Hw H. rewrite Hw in H. destruct r as [cs | e' | w]; try discriminate.
  now injection H as ->.
Qed.

Lemma writes_Panic_inv c r ps w :
  writes p c r -> c ps = Panic w -> r = Panic w.
Proof.
  intros Hw H. rewrite Hw in H. destruct r as [cs | e' | w']; try discriminate.
  now injection H as ->.
Qed.

(** A writer that fails from one state fails alike from every
    state. *)
Lemma writer_ParseErr c ps e :
  writer p c -> c ps = ParseErr e -> forall ps', c ps' = ParseErr e.
Proof.
  intros [r [Hw _]] H ps'.
  rewrite (writes_ParseErr_inv c r ps e Hw H) in Hw. apply Hw.
Qed.

Lemma writer_Ok c ps ps1 :
  writer p c -> c ps = Ok (tt, ps1) ->
  exists cs, Forall (wf_chunk p) cs /\ forall ps', c ps' = Ok (tt, emit p ps' cs).
Proof.
  intros [r [Hw Hwf]] H.
  destruct (writes_Ok_inv c r ps ps1 Hw H) as [cs [-> _]].
  exists cs. split; [exact Hwf | exact Hw].
Qed.

Lemma and_entries_app self l1 l2 i ps :
  and_entries Sprintf p self (l1 ++ l2) i ps =
  match and_entries Sprintf p self l1 i ps with
  | Ok (_, ps1) => and_entries Sprintf p self l2 (i + length l1) ps1
  | ParseErr e => ParseErr e
  | Panic w => Panic w
  end.
Proof.
  revert i ps. induction l1 as [|[k v] l1 IH]; intros i ps.
  - simpl. now rewrite Nat.add_0_r.
  - cbn [and_entries app length]. unfold bind.
    destruct (when (0 <? i)%nat (WriteString " AND ") ps) as [[[] ps0] | e | w];
      try reflexivity.
    destruct (and_entry Sprintf p self k v ps0) as [[[] ps1] | e | w];
      try reflexivity.
    rewrite IH. now replace (S i + length l1)%nat with (i + S (length l1))%nat by lia.
Qed.


Lemma when_Ok b s ps : exists ps', when b (WriteString s) ps = Ok (tt, ps').
Proof. destruct b; simpl; eexists; reflexivity. Qed.

(** Once the entries before it are through, a failing entry decides
    the walk, whatever comes after it. *)
Lemma and_first_failure l1 k v l2 ps0 ps1 ps e :
  and_ Sprintf p l1 ps0 = Ok (tt, ps1) ->
  and_ Sprintf p [(k, v)] ps = ParseErr e ->
  and_ Sprintf p (l1 ++ (k, v) :: l2) ps0 = ParseErr e.
Proof.
  unfold and_. cbn [and_value]. intros H1 Hkv.
  rewrite and_entries_app, H1.
  cbn [and_entries] in Hkv |- *.
  assert (He : forall ps', and_entry Sprintf p (and_value Sprintf p) k v ps' = ParseErr e).
  { unfold bind in Hkv. simpl in Hkv.
    destruct (and_entry Sprintf p (and_value Sprintf p) k v ps)
      as [[[] ps2] | e' | w] eqn:E; try discriminate.
    injection Hkv as ->.
    eapply writer_ParseErr; [| exact E].
    apply and_entry_writer. destruct v; try exact I.
    apply Forall_forall. intros t _. apply and_value_writer. }
  unfold bind.
  destruct (when_Ok (0 <? 0 + length l1)%nat " AND " ps1) as [ps' ->].
  now rewrite He.
Qed.

Lemma sort_fields_app l1 l2 :
  sort_fields Sprintf p (l1 ++ l2) =
  match sort_fields Sprintf p l1 with
  | Ok c1 =>
      match sort_fields Sprintf p l2 with
      | Ok c2 => Ok (c1 ++ c2)
      | ParseErr e => ParseErr e
      | Panic w => Panic w
      end
  | ParseErr e => ParseErr e
  | Panic w => Panic w
  end.
Proof.
  induction l1 as [|r l1 IH]; simpl.
  - destruct (sort_fields Sprintf p l2); reflexivity.
  - unfold rbind. destruct (sort_field Sprintf p r) as [c | e | w]; try reflexivity.
    rewrite IH. destruct (sort_fields Sprintf p l1) as [c1 | e | w]; try reflexivity.
    destruct (sort_fields Sprintf p l2); reflexivity.
Qed.

Lemma sort_first_failure l1 r l2 cols e :
  sort_fields Sprintf p l1 = Ok cols ->
  sort_field Sprintf p r = ParseErr e ->
  sort Sprintf p (l1 ++ r :: l2) = ParseErr e.
Proof.
  intros H1 Hr. unfold sort. rewrite sort_fields_app, H1. simpl.
  unfold rbind. now rewrite Hr.
Qed.
End FirstFailure.

(** The error policy, for the calls that return.  When ParseQuery or
    Parse returns, it returns either a Params and no error, or no
    Params and one ParseError, never both.  A ParseError raised
    anywhere in the body is the one returned.  The checks run in
    order - offset, limit, filter entries as the walk visits them,
    sort entries from the left - and the first one that fails decides
    the error, whatever comes after it; a buffer that does not decode
    is reported the same way.  A call that ends in a runtime panic
    does not return and is not covered here. *)
Theorem first_failure_only
    (Sprintf : string -> list value -> string)
    (UnmarshalJSON : string -> string + Query.t)
    (p : Parser) :
  (forall q pr err,
     ParseQuery Sprintf p q = Returned pr err ->
     (exists r, pr = Some r /\ err = None) \/ (pr = None /\ exists e, err = Some e)) /\
  (forall b pr err,
     Parse Sprintf UnmarshalJSON p b = Returned pr err ->
     (exists r, pr = Some r /\ err = None) \/ (pr = None /\ exists e, err = Some e)) /\
  (forall q e,
     ParseQuery_body Sprintf p q = ParseErr e ->
     ParseQuery Sprintf p q = Returned None (Some e)) /\
  (forall q,
     Query.Offset q < 0 ->
     ParseQuery Sprintf p q =
     Returned None (Some {| msg := Sprintf "offset must be greater than or equal to 0" [] |})) /\
  (forall q,
     0 <= Query.Offset q -> limit_ok p q = false ->
     ParseQuery Sprintf p q =
     Returned None
       (Some {| msg := Sprintf "limit must be greater than 0 and less than or equal to %d"
                               [VInt (LimitMaxValue p)] |})) /\
  (forall q l1 k v l2 ps1 ps e,
     0 <= Query.Offset q -> limit_ok p q = true ->
     Query.Filter q = l1 ++ (k, v) :: l2 ->
     and_ Sprintf p l1 (newParseState p) = Ok (tt, ps1) ->
     and_ Sprintf p [(k, v)] ps = ParseErr e ->
     ParseQuery Sprintf p q = Returned None (Some e)) /\
  (forall q ps l1 r l2 cols e,
     0 <= Query.Offset q -> limit_ok p q = true ->
     and_ Sprintf p (Query.Filter q) (newParseState p) = Ok (tt, ps) ->
     Query.Sort q = l1 ++ r :: l2 ->
     sort_fields Sprintf p l1 = Ok cols ->
     sort_field Sprintf p r = ParseErr e ->
     ParseQuery Sprintf p q = Returned None (Some e)) /\
  (forall b err,
     UnmarshalJSON b = inl err ->
     Parse Sprintf UnmarshalJSON p b =
     Returned None (Some {| msg := "decoding buffer to *Query: " +:+ err |})).
Proof.
  assert (Hshape : forall q pr err,
            ParseQuery Sprintf p q = Returned pr err ->
            (exists r, pr = Some r /\ err = None) \/ (pr = None /\ exists e, err = Some e)).
  { intros q pr err. unfold ParseQuery.
    destruct (ParseQuery_body Sprintf p q) as [r | e | w]; intros [=]; subst; eauto. }
  repeat split.
  - exact Hshape.
  - intros b pr err. unfold Parse. destruct (UnmarshalJSON b) as [e | q].
    + intros [=]; subst. right. eauto.
    + apply Hshape.
  - intros q e H. unfold ParseQuery. now rewrite H.
  - intros q Hneg. unfold ParseQuery. rewrite ParseQuery_body_stages.
    destruct (Z.leb_spec 0 (Query.Offset q)); [lia | reflexivity].
  - intros q Hoff Hlim. unfold ParseQuery. rewrite ParseQuery_body_stages, Hlim.
    destruct (Z.leb_spec 0 (Query.Offset q)); [reflexivity | lia].
  - intros q l1 k v l2 ps1 ps e Hoff Hlim Hf H1 Hkv.
    unfold ParseQuery. rewrite ParseQuery_body_stages, Hlim, Hf.
    destruct (Z.leb_spec 0 (Query.Offset q)); [| lia]. simpl.
    now rewrite (and_first_failure Sprintf p l1 k v l2 _ ps1 ps e H1 Hkv).
  - intros q ps l1 r l2 cols e Hoff Hlim Hand Hs H1 Hr.
    unfold ParseQuery. rewrite ParseQuery_body_stages, Hlim, Hand.
    destruct (Z.leb_spec 0 (Query.Offset q)); [| lia]. simpl.
    unfold sort_or_default.
    now rewrite Hs, (sort_first_failure Sprintf p l1 r l2 cols e H1 Hr).
  - intros b err H. unfold Parse. now rewrite H.
Qed.

(** A good entry, then an unknown key, then an entry that is never
    looked at. *)
Lemma first_failure_only_witness :
  ParseQuery Sprintf_ascii example_parser
    (example_query 0 0 ["bogus"]
       [("name", VString "foo"); ("colour", VString "red"); ("", VNil)]) =
  Returned None
    (Some {| msg := "unrecognized key " +:+ quote_mark +:+ "colour" +:+ quote_mark
                    +:+ " for filtering" |}).
Proof.
  apply (proj1 (proj2 (proj2 (proj2 (proj2 (proj2
           (first_failure_only Sprintf_ascii no_UnmarshalJSON example_parser)))))))
    with (l1 := [("name", VString "foo")]) (k := "colour") (v := VString "red")
         (l2 := [("", VNil)])
         (ps1 := {| Buffer := "name = ?"; values := [VString "foo"] |})
         (ps := newParseState example_parser).
  - concrete_query. lia.
  - reflexivity.
  - reflexivity.
  - vm_compute. reflexivity.
  - vm_compute. reflexivity.
Defined.

(** C5, at the failing input: the filter {name: {"": "foo"}} applies
    an operator the field [name] does not have, so parsing fails; yet
    neither ParseQuery nor Parse returns a nil Params with a
    ParseError: the call panics and returns nothing at all.  The same
    document with the operator $regex, equally outside the operator
    set, comes back as the policy asks.  With a second violation in
    the same document the outcome depends on the entry the walk visits
    first: the unknown key first gives its ParseError, the empty
    operator first gives the panic. *)
Theorem failure_without_ParseError :
  supports name_field "" = false /\
  ParseQuery Sprintf_ascii example_parser empty_operator_query =
    Panicked "runtime error: slice bounds out of range [1:0]" /\
  (forall pr err,
     ParseQuery Sprintf_ascii example_parser empty_operator_query <> Returned pr err) /\
  (forall b,
     Parse Sprintf_ascii (decodes_to empty_operator_query) example_parser b =
     Panicked "runtime error: slice bounds out of range [1:0]") /\
  ParseQuery Sprintf_ascii example_parser
    (example_query 0 0 [] [("name", VMap [("$regex", VString "foo")])]) =
    Returned None
      (Some {| msg := "can not apply op " +:+ quote_mark +:+ "$regex" +:+ quote_mark
                      +:+ " on field " +:+ quote_mark +:+ "name" +:+ quote_mark |}) /\
  ParseQuery Sprintf_ascii example_parser
    (example_query 0 0 []
       [("colour", VString "red"); ("name", VMap [("", VString "foo")])]) =
    Returned None
      (Some {| msg := "unrecognized key " +:+ quote_mark +:+ "colour" +:+ quote_mark
                      +:+ " for filtering" |}) /\
  ParseQuery Sprintf_ascii example_parser
    (example_query 0 0 []
       [("name", VMap [("", VString "foo")]); ("colour", VString "red")]) =
    Panicked "runtime error: slice bounds out of range [1:0]".
Proof.
  assert (H : ParseQuery Sprintf_ascii example_parser empty_operator_query =
              Panicked "runtime error: slice bounds out of range [1:0]")
    by (vm_compute; reflexivity).
  split; [vm_compute; reflexivity |].
  split; [exact H |].
  split; [intros pr err; rewrite H; discriminate |].
  split; [intros b; unfold Parse, decodes_to; exact H |].
  split; [vm_compute; reflexivity |].
  split; vm_compute; reflexivity.
Qed.

(** ** The empty operator name *)

Section EmptyOperator.
Variable Sprintf : string -> list value -> string.
Variable p : Parser.

Local Open Scope parse_scope.


End EmptyOperator.



(** C6, at the failing input: the empty string is not an operator of
    the field [name], yet the filter {name: {"": "foo"}} gives no
    error result; the call panics.  The operator $regex, equally
    outside the operator set, is refused with a ParseError. *)
Theorem empty_operator_not_rejected :
  supports name_field "" = false /\
  ParseQuery Sprintf_ascii example_parser
    (example_query 0 0 [] [("name", VMap [("", VString "foo")])]) =
  Panicked "runtime error: slice bounds out of range [1:0]" /\
  supports name_field "$regex" = false /\
  ParseQuery Sprintf_ascii example_parser
    (example_query 0 0 [] [("name", VMap [("$regex", VString "foo")])]) =
  Returned None
    (Some {| msg := "can not apply op " +:+ quote_mark +:+ "$regex" +:+ quote_mark
                    +:+ " on field " +:+ quote_mark +:+ "name" +:+ quote_mark |}).
Proof. repeat split; vm_compute; reflexivity. Qed.

(** ** Equality shorthand *)

Section Shorthand.
Variable Sprintf : string -> list value -> string.
Variable p : Parser.

Local Open Scope parse_scope.







End Shorthand.



(** The operator handed to the rendering hook is what follows the
    first byte of the key: behind a prefix of more than one byte it is
    no longer the operator's name, and [opFormat] has no text for it. *)
Example long_prefix_operator :
  ParseQuery Sprintf_ascii long_prefix_parser
    (example_query 0 0 [] [("age", VMap [("op_eq", VFloat64 two)])]) =
  Returned (Some {| Params.Limit := 25; Params.Offset := 0; Params.Select := "";
                    Params.Sort := ""; Params.FilterExp := "age  ?";
                    Params.FilterArgs := [VInt 2] |}) None.
Proof. vm_compute. reflexivity. Qed.

Example eq_shorthand_both_forms :
  ParseQuery Sprintf_ascii example_parser
    (example_query 0 0 [] [("age", VFloat64 two)]) =
  Returned (Some {| Params.Limit := 25; Params.Offset := 0; Params.Select := "";
                    Params.Sort := ""; Params.FilterExp := "age = ?";
                    Params.FilterArgs := [VInt 2] |}) None /\
  ParseQuery Sprintf_ascii example_parser
    (example_query 0 0 [] [("age", VMap [("$eq", VFloat64 two)])]) =
  Returned (Some {| Params.Limit := 25; Params.Offset := 0; Params.Select := "";
                    Params.Sort := ""; Params.FilterExp := "age = ?";
                    Params.FilterArgs := [VInt 2] |}) None.
Proof. split; vm_compute; reflexivity. Qed.

(** ** Groups and their parentheses *)

Section Groups.
Variable Sprintf : string -> list value -> string.
Variable p : Parser.

Local Open Scope parse_scope.

Lemma group_text_later sep i docs :
  group_text p sep (S i) docs =
  String.concat "" (map (fun d => sep +:+ chunks_text p d) docs).
Proof.
  revert i. induction docs as [|d rest IH]; intros i; [reflexivity |].
  cbn [group_text map Nat.ltb Nat.leb]. rewrite IH.
  destruct rest as [|d' rest']; simpl; now rewrite ?append_assoc, ?append_nil_r.
Qed.

Lemma Join_concat sep d docs :
  Join (map (chunks_text p) (d :: docs)) sep =
  chunks_text p d +:+ String.concat "" (map (fun d => sep +:+ chunks_text p d) docs).
Proof.
  revert d. induction docs as [|d' rest IH]; intros d.
  - simpl. now rewrite append_nil_r.
  - cbn [map]. rewrite Join_cons by discriminate.
    rewrite <- (map_cons (chunks_text p) d' rest), IH.
    destruct rest as [|d'' rest'']; simpl; now rewrite ?append_assoc, ?append_nil_r.
Qed.

(** Written from the start, a group is its documents joined by the
    separator. *)
Lemma group_text_Join sep docs :
  group_text p sep 0 docs = Join (map (chunks_text p) docs) sep.
Proof.
  destruct docs as [|d rest]; [reflexivity |].
  cbn [group_text Nat.ltb Nat.leb]. rewrite group_text_later, Join_concat.
  reflexivity.
Qed.

Lemma space_op_space o ps :
  (WriteByte " " ;; WriteString (GetDBOp p o None) ;; WriteByte " ") ps =
  Ok (tt, {| Buffer := Buffer ps +:+ op_separator p o; values := values ps |}).
Proof.
  unfold bind, WriteByte, WriteString, op_separator. simpl.
  now rewrite !append_assoc.
Qed.

(** A walk over the terms that goes through wrote the documents one
    after the other, the separator between them. *)
Lemma relOp_terms_Ok self o terms i ps ps' :
  Forall (fun t => writer p (self t)) terms ->
  relOp_terms Sprintf p self o terms i ps = Ok (tt, ps') ->
  exists docs,
    Forall2 (fun t d => snd (as_map t) = true /\ writes p (self t) (Ok d)) terms docs /\
    Buffer ps' = Buffer ps +:+ group_text p (op_separator p o) i docs /\
    values ps' = values ps ++ concat (map chunks_args docs).
Proof.
  intros Hall. revert i ps. induction Hall as [|t rest Ht _ IH]; intros i ps H.
  - injection H as <-. exists []. simpl. rewrite append_nil_r, app_nil_r. auto.
  - cbn [relOp_terms] in H.
    assert (Hsep : exists ps1,
               when (0 <? i)%nat
                 (WriteByte " " ;; WriteString (GetDBOp p o None) ;; WriteByte " ") ps =
               Ok (tt, ps1) /\
               Buffer ps1 = Buffer ps +:+ (if (0 <? i)%nat then op_separator p o else "") /\
               values ps1 = values ps).
    { destruct (0 <? i)%nat; simpl when.
      - rewrite space_op_space. eexists. split; [reflexivity |]. simpl. auto.
      - exists ps. unfold ret. now rewrite append_nil_r. }
    destruct Hsep as (ps1 & Hw & Hb1 & Hv1).
    rewrite (bind_Ok _ _ ps tt ps1 Hw) in H.
    unfold bind at 1, lift, expect in H.
    destruct (snd (as_map t)) eqn:Hmap; [| discriminate]. simpl in H.
    destruct Ht as [r [Hr _]].
    unfold bind at 1 in H. rewrite Hr in H.
    destruct r as [d | e | w]; try discriminate.
    apply IH in H as (docs & Hdocs & Hb & Hv).
    exists (d :: docs). split; [| split].
    + constructor; [split; [exact Hmap | exact Hr] | exact Hdocs].
    + rewrite Hb. unfold emit. simpl. rewrite Hb1, !append_assoc. reflexivity.
    + rewrite Hv. unfold emit. simpl. rewrite Hv1, app_assoc. reflexivity.
Qed.

Lemma relOp_Ok o terms ps ps' :
  relOp Sprintf p o terms ps = Ok (tt, ps') ->
  exists docs,
    Forall2 (fun t d => snd (as_map t) = true /\
                        writes p (and_value Sprintf p t) (Ok d)) terms docs /\
    Buffer ps' =
      Buffer ps +:+ (if (1 <? length terms)%nat then "(" else "")
                +:+ Join (map (chunks_text p) docs) (op_separator p o)
                +:+ (if (1 <? length terms)%nat then ")" else "") /\
    values ps' = values ps ++ concat (map chunks_args docs).
Proof.
  unfold relOp, relOp_self. intros H.
  destruct (when_Ok (1 <? length terms)%nat "(" ps) as [ps1 Hp1].
  assert (Hb1 : Buffer ps1 = Buffer ps +:+ (if (1 <? length terms)%nat then "(" else "")
                /\ values ps1 = values ps).
  { destruct (1 <? length terms)%nat; simpl in Hp1; injection Hp1 as <-; simpl;
      now rewrite ?append_nil_r. }
  unfold WriteByte in H. rewrite (bind_Ok _ _ ps tt ps1 Hp1) in H.
  unfold bind at 1 in H.
  destruct (relOp_terms Sprintf p (and_value Sprintf p) o terms 0 ps1)
    as [[[] ps2] | e | w] eqn:Hterms; try discriminate.
  apply relOp_terms_Ok in Hterms as (docs & Hdocs & Hb & Hv).
  2:{ apply Forall_forall. intros t _. apply and_value_writer. }
  exists docs. split; [exact Hdocs |].
  rewrite group_text_Join in Hb. destruct Hb1 as [Hb1 Hv1].
  destruct (1 <? length terms)%nat; simpl in H; injection H as <-; simpl.
  - rewrite Hb, Hb1, Hv, Hv1, !append_assoc. auto.
  - rewrite Hb, Hb1, Hv, Hv1, !append_assoc, append_nil_r. auto.
Qed.

Lemma op_OR_AND : op p OR <> op p AND.
Proof.
  unfold op. intros H. apply (f_equal String.length) in H.
  rewrite !length_append in H. simpl in H. lia.
Qed.

Lemma and_entry_group k o terms ps :
  (k = op p OR /\ o = OR) \/ (k = op p AND /\ o = AND) ->
  and_entry Sprintf p (and_value Sprintf p) k (VSlice terms) ps =
  relOp Sprintf p o terms ps.
Proof.
  intros [[-> ->] | [-> ->]]; unfold and_entry.
  - rewrite String.eqb_refl. reflexivity.
  - destruct (String.eqb_spec (op p AND) (op p OR)) as [E |_].
    + symmetry in E. now apply op_OR_AND in E.
    + rewrite String.eqb_refl. reflexivity.
Qed.
End Groups.

(** C3: under the key $or or $and (the marker with the configured
    prefix) with an array of documents, a walk that goes through
    wrote, for the documents' own expressions [docs]: with exactly one
    document, that expression and nothing around it; with two or more,
    an opening parenthesis, the expressions joined by the operator's
    rendering between two spaces, and a closing parenthesis.  The
    arguments are those of the documents, in order. *)
Theorem group_parentheses
    (Sprintf : string -> list value -> string) (p : Parser)
    (k : string) (o : Op) (terms : list value) (ps ps' : parseState) :
  (k = op p OR /\ o = OR) \/ (k = op p AND /\ o = AND) ->
  and_entry Sprintf p (and_value Sprintf p) k (VSlice terms) ps = Ok (tt, ps') ->
  exists docs : list (list chunk),
    Forall2 (fun t d => snd (as_map t) = true /\
                        writes p (and_value Sprintf p t) (Ok d)) terms docs /\
    values ps' = values ps ++ concat (map chunks_args docs) /\
    (forall d, docs = [d] -> Buffer ps' = Buffer ps +:+ chunks_text p d) /\
    ((2 <= length terms)%nat ->
     Buffer ps' =
       Buffer ps +:+ "(" +:+ Join (map (chunks_text p) docs) (op_separator p o) +:+ ")").
Proof.
  intros Hk H. rewrite (and_entry_group Sprintf p k o terms ps Hk) in H.
  apply relOp_Ok in H as (docs & Hdocs & Hb & Hv).
  exists docs. split; [exact Hdocs |]. split; [exact Hv |]. split.
  - intros d ->. apply Forall2_length in Hdocs. simpl in Hdocs.
    destruct terms as [|t [|t' rest]]; try discriminate.
    simpl in Hb. now rewrite append_nil_r in Hb.
  - intros Hlen. destruct (Nat.ltb_spec 1 (length terms)) as [_ |]; [| lia].
    exact Hb.
Qed.

Lemma group_parentheses_witness :
  exists docs : list (list chunk),
    Forall2 (fun t d => snd (as_map t) = true /\
                        writes example_parser (and_value Sprintf_ascii example_parser t) (Ok d))
            two_ages docs /\
    values {| Buffer := "(age <> ? OR age <> ?)"; values := [VInt 10; VInt 20] |} =
      values (newParseState example_parser) ++ concat (map chunks_args docs) /\
    (forall d, docs = [d] ->
       Buffer {| Buffer := "(age <> ? OR age <> ?)"; values := [VInt 10; VInt 20] |} =
       Buffer (newParseState example_parser) +:+ chunks_text example_parser d) /\
    ((2 <= length two_ages)%nat ->
     Buffer {| Buffer := "(age <> ? OR age <> ?)"; values := [VInt 10; VInt 20] |} =
       Buffer (newParseState example_parser) +:+ "(" +:+
       Join (map (chunks_text example_parser) docs) (op_separator example_parser OR) +:+ ")").
Proof.
  apply (group_parentheses Sprintf_ascii example_parser "$or" OR two_ages
           (newParseState example_parser)
           {| Buffer := "(age <> ? OR age <> ?)"; values := [VInt 10; VInt 20] |}).
  - left. split; reflexivity.
  - vm_compute. reflexivity.
Defined.

Example group_of_one :
  ParseQuery Sprintf_ascii example_parser
    (example_query 0 0 [] [("$or", VSlice [VMap [("age", number 10)]])]) =
  Returned (Some {| Params.Limit := 25; Params.Offset := 0; Params.Select := "";
                    Params.Sort := ""; Params.FilterExp := "age = ?";
                    Params.FilterArgs := [VInt 10] |}) None.
Proof. vm_compute. reflexivity. Qed.

Example group_of_two :
  ParseQuery Sprintf_ascii example_parser
    (example_query 0 0 []
       [("name", VString "foo"); ("age", number 12); ("$or", VSlice two_ages)]) =
  Returned (Some {| Params.Limit := 25; Params.Offset := 0; Params.Select := "";
                    Params.Sort := "";
                    Params.FilterExp := "name = ? AND age = ? AND (age <> ? OR age <> ?)";
                    Params.FilterArgs := [VString "foo"; VInt 12; VInt 10; VInt 20] |})
           None.
Proof. vm_compute. reflexivity. Qed.

(** ** Placeholders and arguments *)

Section Placeholders.
Variable p : Parser.

Hypothesis columns_marker_free :
  forall k (f : Field), fields p !! k = Some f -> marker_free (colName p (Name f)).
Hypothesis operators_marker_free :
  forall o m, marker_free (GetDBOp p o m).

Lemma sep_marker_free s : sep_text p s -> marker_free s.
Proof.
  intros [-> | [-> | [-> | [-> | [o ->]]]]]; try reflexivity.
  apply operators_marker_free.
Qed.

Lemma fmtOp_one_marker k (f : Field) o :
  fields p !! k = Some f -> one_marker_last (fmtOp p f o).
Proof.
  intros Hf. exists (colName p (Name f) +:+ " " +:+ GetDBOp p o (Some (Meta f)) +:+ " ").
  split.
  - unfold fmtOp. now rewrite !append_assoc.
  - unfold marker_free. rewrite !count_byte_append.
    rewrite (columns_marker_free k f Hf), (operators_marker_free o (Some (Meta f))).
    reflexivity.
Qed.

Lemma wf_aligned c : wf_chunk p c -> aligned_chunk p c.
Proof.
  destruct c as [s | f o v arg]; simpl.
  - apply sep_marker_free.
  - intros [[k Hk] _]. now apply (fmtOp_one_marker k).
Qed.

Lemma aligned_count cs :
  Forall (aligned_chunk p) cs ->
  count_byte marker (chunks_text p cs) = length (chunks_args cs).
Proof.
  induction 1 as [|c cs Hc _ IH]; [reflexivity |].
  cbn [chunks_text]. unfold chunks_args in *. cbn [flat_map].
  rewrite count_byte_append, length_app, IH. f_equal.
  destruct c as [s | f o v arg]; simpl in Hc |- *.
  - exact Hc.
  - destruct Hc as [body [-> Hbody]]. rewrite count_byte_append, Hbody. reflexivity.
Qed.
End Placeholders.

Lemma chunks_args_predicates cs :
  chunks_args cs = map (fun x : Field * Op * value * value => snd x) (predicates cs).
Proof.
  induction cs as [|[s | f o v arg] cs IH]; simpl; [reflexivity | exact IH |].
  now rewrite <- IH.
Qed.

(** C1, as stated: with the operator table of the repository's own
    test of custom operators, where [exists] is rendered [?|], the
    accepted filter {"alias_map": {"$exists": "str"}} gives the
    expression [alias_map ?| ?] with two '?' and one argument. *)
Lemma custom_operator_marker_counterexample :
  ParseQuery Sprintf_ascii custom_ops_parser
    (example_query 0 0 [] [("alias_map", VMap [("$exists", VString "str")])]) =
  Returned (Some {| Params.Limit := 25; Params.Offset := 0; Params.Select := "";
                    Params.Sort := ""; Params.FilterExp := "alias_map ?| ?";
                    Params.FilterArgs := [VString "str"] |}) None /\
  count_byte marker "alias_map ?| ?" = 2%nat /\
  length [VString "str"] = 1%nat.
Proof. repeat split; vm_compute; reflexivity. Qed.

(** C1, amended: when no column name (as written by [colName]) and
    no operator rendering holds a '?', every filter ParseQuery accepts
    gives an expression with as many '?' as there are arguments.  The
    expression is the concatenation of pieces [cs]: plain pieces
    without '?', and one piece per predicate, whose text ends in its
    one '?'; the arguments are the converted values of those
    predicates, in the same left-to-right order. *)
Theorem placeholders_match_arguments
    (Sprintf : string -> list value -> string) (p : Parser) (q : Query.t)
    (pr : Params.t) (err : option ParseError) :
  (forall k (f : Field), fields p !! k = Some f -> marker_free (colName p (Name f))) ->
  (forall o m, marker_free (GetDBOp p o m)) ->
  ParseQuery Sprintf p q = Returned (Some pr) err ->
  count_byte marker (Params.FilterExp pr) = length (Params.FilterArgs pr) /\
  exists cs : list chunk,
    Params.FilterExp pr = chunks_text p cs /\
    Params.FilterArgs pr =
      map (fun x : Field * Op * value * value => snd x) (predicates cs) /\
    Forall (aligned_chunk p) cs /\
    Forall (fun x : Field * Op * value * value =>
              let '(f, o, v, arg) := x in
              (exists k, fields p !! k = Some f) /\
              call_ValidateFn f o v = Ok None /\
              call_CovertFn f o v = Ok arg) (predicates cs).
Proof.
  intros Hcol Hop H. apply ParseQuery_Returned_Some in H as [H _].
  apply ParseQuery_body_Ok in H as (_ & _ & ps & s & Hand & _ & ->).
  destruct (writer_Ok p _ _ _ (and_writer Sprintf p (Query.Filter q)) Hand)
    as (cs & Hwf & Hcs).
  rewrite Hcs in Hand. injection Hand as <-.
  assert (Hal : Forall (aligned_chunk p) cs).
  { eapply Forall_impl; [exact Hwf |]. intros c. now apply wf_aligned. }
  cbn [Params.FilterExp Params.FilterArgs emit newParseState Buffer values].
  cbn [String.append app].
  split; [now apply aligned_count |].
  exists cs. split; [reflexivity |]. split; [apply chunks_args_predicates |].
  split; [exact Hal |].
  clear - Hwf. induction Hwf as [|[s | f o v arg] cs Hc _ IH]; simpl.
  - constructor.
  - exact IH.
  - constructor; [exact Hc | exact IH].
Qed.

Lemma placeholders_match_arguments_witness :
  count_byte marker "name = ? AND age = ? AND (age <> ? OR age <> ?)" =
  length [VString "foo"; VInt 12; VInt 10; VInt 20] /\
  exists cs : list chunk,
    "name = ? AND age = ? AND (age <> ? OR age <> ?)" = chunks_text example_parser cs /\
    [VString "foo"; VInt 12; VInt 10; VInt 20] =
      map (fun x : Field * Op * value * value => snd x) (predicates cs) /\
    Forall (aligned_chunk example_parser) cs /\
    Forall (fun x : Field * Op * value * value =>
              let '(f, o, v, arg) := x in
              (exists k, fields example_parser !! k = Some f) /\
              call_ValidateFn f o v = Ok None /\
              call_CovertFn f o v = Ok arg) (predicates cs).
Proof.
  apply (placeholders_match_arguments Sprintf_ascii example_parser
           (example_query 0 0 []
              [("name", VString "foo"); ("age", number 12); ("$or", VSlice two_ages)])
           {| Params.Limit := 25; Params.Offset := 0; Params.Select := "";
              Params.Sort := "";
              Params.FilterExp := "name = ? AND age = ? AND (age <> ? OR age <> ?)";
              Params.FilterArgs := [VString "foo"; VInt 12; VInt 10; VInt 20] |}
           None).
  - intros k f Hf.
    assert (Hk : In (Name f) ["age"; "name"; "id"]).
    { unfold example_parser, fields, field_table in Hf.
      apply elem_of_list_to_map_2 in Hf. apply list_elem_of_In in Hf.
      simpl in Hf. destruct Hf as [[= _ <-] | [[= _ <-] | [[= _ <-] | []]]];
        simpl; auto. }
    simpl in Hk. destruct Hk as [<- | [<- | [<- | []]]]; reflexivity.
  - intros o m. unfold example_parser, default_Config, GetDBOp, Config_, opFormat.
    repeat (match goal with |- context [String.eqb ?a ?b] => destruct (String.eqb a b) end;
            [reflexivity |]).
    reflexivity.
  - vm_compute. reflexivity.
Defined.

(** ** Sort *)

Example sort_example :
  sort Sprintf_ascii dotted_parser ["address.name"; "-age"; "+id"] =
  Ok "address_name, age desc, id asc".
Proof. vm_compute. reflexivity. Qed.

Section SortFacts.
Variable Sprintf : string -> list value -> string.
Variable p : Parser.

(** One reference, by cases. *)
Lemma sort_field_cases r :
  sort_field Sprintf p r =
  if String.eqb r "" then
    ParseErr {| msg := Sprintf "sort field can not be empty" [] |}
  else
    match (fields p !! field_of r : option Field) with
    | None =>
        ParseErr {| msg := Sprintf "unrecognized key %q for sorting" [VString (field_of r)] |}
    | Some f =>
        if Sortable f then Ok (rendered_entry p r)
        else ParseErr {| msg := Sprintf "field %q is not sortable" [VString (field_of r)] |}
    end.
Proof.
  destruct r as [|c tail]; [reflexivity |].
  unfold sort_field, rendered_entry, rendered_suffix, field_of, is_direction, expect.
  cbn [String.eqb negb rbind].
  destruct (Ascii.eqb c ASC || Ascii.eqb c DESC).
  - destruct (fields p !! tail) as [f|]; cbn [rbind]; [| reflexivity].
    destruct (Sortable f); cbn [rbind]; [| reflexivity].
    destruct (String.eqb (GetDBDir p c) ""); simpl;
      now rewrite ?append_nil_r.
  - destruct (fields p !! String c tail) as [f|]; cbn [rbind]; [| reflexivity].
    destruct (Sortable f); cbn [rbind]; [| reflexivity].
    simpl. now rewrite append_nil_r.
Qed.

Lemma sort_field_sortable r :
  sortable_ref p r = true -> sort_field Sprintf p r = Ok (rendered_entry p r).
Proof.
  unfold sortable_ref. rewrite sort_field_cases. intros [Hne Hf]%andb_prop.
  destruct (String.eqb r ""); [discriminate |].
  destruct (fields p !! field_of r) as [f|]; [| discriminate].
  now rewrite Hf.
Qed.

Lemma sort_field_not_sortable r :
  sortable_ref p r = false -> exists e, sort_field Sprintf p r = ParseErr e.
Proof.
  unfold sortable_ref. rewrite sort_field_cases.
  destruct (String.eqb r ""); [eauto |].
  destruct (fields p !! field_of r) as [f|]; [| eauto].
  simpl. intros ->. eauto.
Qed.

Lemma sort_fields_sortable refs :
  forallb (sortable_ref p) refs = true ->
  sort_fields Sprintf p refs = Ok (map (rendered_entry p) refs).
Proof.
  induction refs as [|r refs IH]; [reflexivity |].
  simpl. intros [Hr Hrest]%andb_prop.
  now rewrite (sort_field_sortable r Hr), (IH Hrest).
Qed.

Lemma sort_fields_bad refs :
  forallb (sortable_ref p) refs = false ->
  exists e, sort_fields Sprintf p refs = ParseErr e.
Proof.
  induction refs as [|r refs IH]; [discriminate |].
  simpl. destruct (sortable_ref p r) eqn:Hr; simpl.
  - intros H. destruct (IH H) as [e He].
    rewrite (sort_field_sortable r Hr), He. simpl. eauto.
  - intros _. destruct (sort_field_not_sortable r Hr) as [e ->]. simpl. eauto.
Qed.
End SortFacts.

(** C9, as stated: with a direction hook that renders upper-case
    keywords the reference -age, which names a sortable field, gives
    [age DESC] and not [age desc]. *)
Lemma upper_case_direction_counterexample :
  forallb (sortable_ref upper_case_parser) ["-age"] = true /\
  sort Sprintf_ascii upper_case_parser ["-age"] = Ok "age DESC" /\
  Join (map (stated_entry upper_case_parser) ["-age"]) ", " = "age desc" /\
  sort Sprintf_ascii upper_case_parser ["-age"] <>
  Ok (Join (map (stated_entry upper_case_parser) ["-age"]) ", ").
Proof. repeat split; vm_compute; discriminate || reflexivity. Qed.

(** C9, amended: when every reference of the list is non-empty and
    names, after its optional '+' or '-', an existing sortable field,
    the sort clause lists the column names ([colName]: the configured
    separator rewritten to '_') joined by ", " in the caller's order,
    each followed by a space and the configured rendering of its
    direction when it has one and the rendering is not empty; with the
    default rendering that suffix is " desc" for '-' and " asc" for
    '+', and nothing for an entry without prefix.  If the references
    before a non-empty reference are good and that reference names a
    missing or a non-sortable field, [sort] fails with the error that
    names the field; and a query whose sort list holds a reference
    that is not good never gets a Params back. *)
Theorem sort_clause
    (Sprintf : string -> list value -> string) (p : Parser) (refs : list string) :
  (forallb (sortable_ref p) refs = true ->
   sort Sprintf p refs = Ok (Join (map (rendered_entry p) refs) ", ")) /\
  (GetDBDir p ASC = "asc" -> GetDBDir p DESC = "desc" ->
   forall r, rendered_entry p r = stated_entry p r) /\
  (forall l1 r l2,
     refs = l1 ++ r :: l2 ->
     forallb (sortable_ref p) l1 = true ->
     r <> "" ->
     (fields p !! field_of r = None ->
      sort Sprintf p refs =
      ParseErr {| msg := Sprintf "unrecognized key %q for sorting" [VString (field_of r)] |}) /\
     (forall f : Field,
        fields p !! field_of r = Some f -> Sortable f = false ->
        sort Sprintf p refs =
        ParseErr {| msg := Sprintf "field %q is not sortable" [VString (field_of r)] |})) /\
  (forall q pr err,
     Query.Sort q = refs ->
     forallb (sortable_ref p) refs = false ->
     ParseQuery Sprintf p q <> Returned (Some pr) err).
Proof.
  split; [| split; [| split]].
  - intros H. unfold sort. now rewrite (sort_fields_sortable Sprintf p refs H).
  - intros Hasc Hdesc r. unfold rendered_entry, stated_entry. f_equal.
    destruct r as [|c tail]; [reflexivity |].
    unfold rendered_suffix, stated_suffix, is_direction.
    destruct (Ascii.eqb_spec c ASC) as [-> | Hna].
    + rewrite Hasc. reflexivity.
    + destruct (Ascii.eqb_spec c DESC) as [-> | Hnd]; [| reflexivity].
      rewrite Hdesc. reflexivity.
  - intros l1 r l2 -> Hl1 Hr.
    pose proof (sort_fields_sortable Sprintf p l1 Hl1) as H1.
    assert (Hne : String.eqb r "" = false) by now apply String.eqb_neq.
    split.
    + intros Hf. apply (sort_first_failure Sprintf p l1 r l2 _ _ H1).
      rewrite sort_field_cases, Hne, Hf. reflexivity.
    + intros f Hf Hs. apply (sort_first_failure Sprintf p l1 r l2 _ _ H1).
      rewrite sort_field_cases, Hne, Hf, Hs. reflexivity.
  - intros q pr err Hq Hbad H.
    apply ParseQuery_Returned_Some in H as [H _].
    apply ParseQuery_body_Ok in H as (_ & _ & ps & s & _ & Hs & _).
    unfold sort_or_default, sort in Hs. rewrite Hq in Hs.
    destruct (sort_fields_bad Sprintf p refs Hbad) as [e He].
    rewrite He in Hs. discriminate.
Qed.

Lemma sort_clause_witness :
  sort Sprintf_ascii dotted_parser ["address.name"; "-age"; "+id"] =
  Ok (Join (map (rendered_entry dotted_parser) ["address.name"; "-age"; "+id"]) ", ") /\
  (forall r, rendered_entry dotted_parser r = stated_entry dotted_parser r) /\
  sort Sprintf_ascii dotted_parser ["address.name"; "-colour"; "+id"] =
  ParseErr {| msg := "unrecognized key " +:+ quote_mark +:+ "colour" +:+ quote_mark
                     +:+ " for sorting" |}.
Proof.
  split; [| split].
  - apply (proj1 (sort_clause Sprintf_ascii dotted_parser
                    ["address.name"; "-age"; "+id"])).
    vm_compute. reflexivity.
  - apply (proj1 (proj2 (sort_clause Sprintf_ascii dotted_parser []))); reflexivity.
  - apply (proj1 (proj2 (proj2 (sort_clause Sprintf_ascii dotted_parser
                                  ["address.name"; "-colour"; "+id"])))
             ["address.name"] "-colour" ["+id"]).
    + reflexivity.
    + vm_compute. reflexivity.
    + discriminate.
    + vm_compute. reflexivity.
Defined.

(** * Further properties of the code *)

(** ** Validators and converters agree (rql.go, 234-340, 600-686) *)

Section Resolution.
Variable Sprintf : string -> list value -> string.
Variable time_Parse : string -> string -> error.

Lemma default_functions_agree (m m' : FieldMeta) (vf : Validator) (o : Op) (v : value) :
  GetValidateFn Sprintf time_Parse m = Some vf ->
  vf o m' v = None ->
  exists arg, GetConverterFn m o m' v = Ok arg.
Proof.
  unfold GetValidateFn, GetConverterFn.
  destruct (Type_ m); intros [= <-]; destruct v; simpl; intros H;
    try discriminate H; eauto.
Qed.

Lemma supported_has_validator (m : FieldMeta) :
  GetSupportedOps m <> [] ->
  exists vf, GetValidateFn Sprintf time_Parse m = Some vf.
Proof.
  unfold GetSupportedOps, GetValidateFn.
  destruct (Type_ m); intros H; eauto; now contradiction H.
Qed.
End Resolution.



(** X2: the three resolutions by type agree.  A type has no operator
    exactly when it has no validator; a type with operators has at
    least [eq] and [neq]; [like] belongs to the kind string alone
    (not to [sql.NullString]); the logical operators [or] and [and]
    are never field operators. *)
Theorem operators_and_validator
    (Sprintf : string -> list value -> string) (time_Parse : string -> string -> error)
    (m : FieldMeta) :
  (GetSupportedOps m = [] <-> GetValidateFn Sprintf time_Parse m = None) /\
  (GetSupportedOps m <> [] -> In EQ (GetSupportedOps m) /\ In NEQ (GetSupportedOps m)) /\
  (In LIKE (GetSupportedOps m) <-> Type_ m = TyString) /\
  ~ In OR (GetSupportedOps m) /\ ~ In AND (GetSupportedOps m).
Proof.
  unfold GetSupportedOps, GetValidateFn.
  destruct (Type_ m); (split; [split; intros H; (reflexivity || discriminate H) |]);
    (split; [intros H; (now contradiction H) || (simpl; auto) |]);
    (split; [split; [simpl; intros H; repeat (destruct H as [H | H]; try discriminate H);
                     (reflexivity || contradiction)
                    | intros H; (discriminate H || (simpl; auto 10)) ] |]);
    split; simpl; intros H; repeat (destruct H as [H | H]; try discriminate H);
    exact H.
Qed.

(** ** Invariants of a walk *)

Section Traced.
Variable Sprintf : string -> list value -> string.
Variable p : Parser.
Variable inv : result (list chunk) -> Prop.
Hypothesis inv_nil : inv (Ok []).
Hypothesis inv_err : forall e, inv (ParseErr e).
Hypothesis inv_then : forall r1 r2, inv r1 -> inv r2 -> inv (then_ r1 r2).

Local Open Scope parse_scope.

Lemma traced_ret : traced p inv (ret tt).
Proof. exists (Ok []). split; [apply writes_ret | exact inv_nil]. Qed.

Lemma traced_sep s : inv (Ok [Sep s]) -> traced p inv (WriteString s).
Proof. intros Hs. exists (Ok [Sep s]). split; [apply writes_WriteString | exact Hs]. Qed.

Lemma traced_seq c1 c2 :
  traced p inv c1 -> traced p inv c2 -> traced p inv (c1 ;; c2).
Proof.
  intros [r1 [H1 W1]] [r2 [H2 W2]]. exists (then_ r1 r2).
  split; [apply writes_seq; assumption | apply inv_then; assumption].
Qed.

Lemma traced_when b c : traced p inv c -> traced p inv (when b c).
Proof. destruct b; simpl; [tauto | intros _; apply traced_ret]. Qed.

Lemma traced_ext c1 c2 :
  (forall ps, c1 ps = c2 ps) -> traced p inv c2 -> traced p inv c1.
Proof.
  intros H [r [Hw Hi]]. exists r. split; [| exact Hi].
  intros ps. rewrite H. apply Hw.
Qed.

Lemma traced_lift {A} (r : result A) (k : A -> M unit) :
  (forall a, r = Ok a -> traced p inv (k a)) ->
  (forall w, r = Panic w -> inv (Panic w)) ->
  traced p inv (x <- lift r ;; k x).
Proof.
  intros H Hp. destruct r as [a | e | w].
  - destruct (H a eq_refl) as [ra [Hw Hi]]. exists ra. split; [| exact Hi].
    intros ps. unfold bind, lift. simpl. apply Hw.
  - exists (ParseErr e). split; [| apply inv_err]. intros ps. reflexivity.
  - exists (Panic w). split; [| apply Hp; reflexivity]. intros ps. reflexivity.
Qed.

Lemma traced_expect b msg_ args (k : M unit) :
  (b = true -> traced p inv k) ->
  traced p inv (lift (expect Sprintf b msg_ args) ;; k).
Proof.
  intros H. apply traced_lift.
  - intros [] Hb. apply H. destruct b; [reflexivity | discriminate Hb].
  - intros w Hb. destruct b; discriminate Hb.
Qed.

Lemma traced_expect_unit b msg_ args :
  traced p inv (lift (expect Sprintf b msg_ args)).
Proof.
  destruct b.
  - exists (Ok []). split; [| exact inv_nil].
    intros ps. unfold lift. simpl. now rewrite emit_nil.
  - exists (ParseErr {| msg := Sprintf msg_ args |}). split; [| apply inv_err].
    intros ps. reflexivity.
Qed.

(** A walk between two parentheses that come together or not at
    all, for an invariant that takes each parenthesis by itself. *)
Lemma traced_wrap b (c : M unit) :
  inv (Ok [Sep "("]) -> inv (Ok [Sep ")"]) ->
  traced p inv c ->
  traced p inv (when b (WriteByte "(") ;; c ;; when b (WriteByte ")")).
Proof.
  intros Ho Hc H.
  apply traced_seq; [apply traced_when, traced_sep, Ho |].
  apply traced_seq; [exact H | apply traced_when, traced_sep, Hc].
Qed.
End Traced.

Section TracedWalk.
Variable Sprintf : string -> list value -> string.
Variable p : Parser.
Variable inv : result (list chunk) -> Prop.
Variable doc_ok : value -> Prop.
Hypothesis inv_nil : inv (Ok []).
Hypothesis inv_AND : inv (Ok [Sep " AND "]).
Hypothesis inv_space : inv (Ok [Sep " "]).
Hypothesis inv_op : forall o, inv (Ok [Sep (GetDBOp p o None)]).
Hypothesis inv_err : forall e, inv (ParseErr e).
Hypothesis inv_then : forall r1 r2, inv r1 -> inv r2 -> inv (then_ r1 r2).
Hypothesis inv_wrap :
  forall b (c : M unit),
    traced p inv c ->
    traced p inv (when b (WriteByte "(") ;; c ;; when b (WriteByte ")"))%parse.
Hypothesis doc_slice : forall l, doc_ok (VSlice l) -> Forall doc_ok l.
Hypothesis doc_map : forall m, doc_ok (VMap m) -> Forall (fun kv => doc_ok (snd kv)) m.
Hypothesis field_inv :
  forall k (f : Field) v,
    fields p !! k = Some f -> Filterable f = true -> doc_ok v ->
    traced p inv (field Sprintf p f v).

Local Open Scope parse_scope.

Lemma relOp_terms_traced self o terms i :
  Forall (fun t => traced p inv (self t)) terms ->
  traced p inv (relOp_terms Sprintf p self o terms i).
Proof.
  intros Hall. revert i. induction Hall as [|t rest Ht _ IH]; intros i.
  - apply traced_ret; assumption.
  - cbn [relOp_terms]. apply traced_seq; try assumption.
    + apply traced_when; try assumption.
      apply traced_seq; try assumption; [apply traced_sep; assumption |].
      apply traced_seq; try assumption; apply traced_sep; [apply inv_op | assumption].
    + apply traced_expect; try assumption. intros _.
      apply traced_seq; try assumption. apply IH.
Qed.

Lemma relOp_self_traced self o terms :
  Forall (fun t => traced p inv (self t)) terms ->
  traced p inv (relOp_self Sprintf p self o terms).
Proof.
  intros Hall. unfold relOp_self.
  apply inv_wrap. apply relOp_terms_traced; assumption.
Qed.

Lemma and_entry_traced self k v :
  doc_ok v ->
  (forall l, v = VSlice l -> Forall (fun t => traced p inv (self t)) l) ->
  traced p inv (and_entry Sprintf p self k v).
Proof.
  intros Hv Hl. unfold and_entry.
  destruct (String.eqb k (op p OR)).
  { destruct v; try (apply traced_expect_unit; assumption).
    apply traced_expect; try assumption. intros _.
    apply relOp_self_traced. now apply Hl. }
  destruct (String.eqb k (op p AND)).
  { destruct v; try (apply traced_expect_unit; assumption).
    apply traced_expect; try assumption. intros _.
    apply relOp_self_traced. now apply Hl. }
  destruct (fields p !! k) as [f|] eqn:Hf.
  - apply traced_expect; try assumption. intros Hfilter.
    now apply (field_inv k).
  - apply traced_expect_unit; assumption.
Qed.

Lemma and_entries_traced self f i :
  Forall (fun kv => doc_ok (snd kv) /\
                    forall l, snd kv = VSlice l ->
                              Forall (fun t => traced p inv (self t)) l) f ->
  traced p inv (and_entries Sprintf p self f i).
Proof.
  intros Hall. revert i. induction Hall as [|[k v] rest [Hv Hl] _ IH]; intros i.
  - apply traced_ret; assumption.
  - cbn [and_entries]. apply traced_seq; try assumption.
    { apply traced_when; try assumption. apply traced_sep; assumption. }
    apply traced_seq; try assumption; [| apply IH].
    apply and_entry_traced; assumption.
Qed.

Lemma and_value_traced_slices v :
  doc_ok v ->
  traced p inv (and_value Sprintf p v) /\
  forall l, v = VSlice l -> Forall (fun t => traced p inv (and_value Sprintf p t)) l.
Proof.
  induction v as [ | b | x | s | l IH | m IH | n | layout s] using value_ind_nested;
    intros Hok;
    try (split; [apply traced_ret; assumption | discriminate]).
  - split; [apply traced_ret; assumption |]. intros l' [= <-].
    apply doc_slice in Hok. rewrite Forall_forall in IH, Hok |- *.
    intros t Ht. now apply IH; [| apply Hok].
  - split; [| discriminate]. simpl. apply and_entries_traced.
    apply doc_map in Hok. rewrite Forall_forall in IH, Hok |- *.
    intros kv Hkv. split; [now apply Hok |].
    now apply IH; [| apply Hok].
Qed.

Lemma and_traced f : doc_ok (VMap f) -> traced p inv (and_ Sprintf p f).
Proof. intros H. now apply (and_value_traced_slices (VMap f)). Qed.
End TracedWalk.

(** ** No panic on a sound parser *)

Section Calm.
Variable Sprintf : string -> list value -> string.
Variable p : Parser.
Hypothesis Hsound : sound_parser p.

Local Open Scope parse_scope.

Lemma calm_then r1 r2 : calm r1 -> calm r2 -> calm (then_ r1 r2).
Proof. destruct r1, r2; simpl; tauto. Qed.

Lemma predicate_calm msg_ (f : Field) o v :
  sound_field f -> traced p calm (predicate Sprintf p msg_ f o v).
Proof.
  intros (vf & cf & Hvf & Hcf & Hagree).
  eexists. split; [apply predicate_writes |].
  unfold call_ValidateFn, call_CovertFn. rewrite Hvf, Hcf.
  destruct (vf o f v) as [e|] eqn:Hv; [exact I |].
  destruct (Hagree o v Hv) as [arg ->]. exact I.
Qed.

Lemma field_terms_calm (f : Field) terms i :
  sound_field f ->
  forallb (fun kv => negb (String.eqb (fst kv) "") && no_empty_key (snd kv)) terms = true ->
  traced p calm (field_terms Sprintf p f terms i).
Proof.
  intros Hf. revert i. induction terms as [|[opName opVal] rest IH]; intros i Hk.
  - now apply traced_ret.
  - simpl in Hk. apply andb_prop in Hk as [[Hne _]%andb_prop Hrest].
    cbn [field_terms]. apply traced_seq; try exact calm_then.
    { apply traced_when; try exact I. now apply traced_sep. }
    apply traced_lift; [exact (fun _ => I) | |].
    2:{ intros w Hw. destruct opName; [discriminate Hne | discriminate Hw]. }
    intros o _. apply (traced_expect Sprintf); [exact (fun _ => I) | ]. intros _.
    eapply traced_ext; [intros ps; apply predicate_then |].
    apply traced_seq; [exact calm_then | now apply predicate_calm | now apply IH].
Qed.

Lemma field_calm k (f : Field) v :
  fields p !! k = Some f -> Filterable f = true -> no_empty_key v = true ->
  traced p calm (field Sprintf p f v).
Proof.
  intros Hk _ Hv. pose proof (Hsound k f Hk) as Hf.
  unfold field. destruct (as_map v) as [terms ok] eqn:Hmap.
  apply traced_seq; [exact calm_then | |].
  { apply traced_when; try exact I.
    now apply (predicate_calm "invalid datatype for field %q"). }
  apply traced_seq; [exact calm_then | |].
  { apply traced_when; try exact I. now apply traced_sep. }
  apply traced_seq; [exact calm_then | |].
  { apply field_terms_calm; [exact Hf |].
    destruct v; simpl in Hmap; injection Hmap as <- <-; try reflexivity.
    exact Hv. }
  apply traced_when; try exact I. now apply traced_sep.
Qed.

Lemma and_calm f :
  no_empty_key (VMap f) = true -> traced p calm (and_ Sprintf p f).
Proof.
  apply (and_traced Sprintf p calm (fun v => no_empty_key v = true)).
  - exact I.
  - exact I.
  - exact I.
  - exact (fun _ => I).
  - exact (fun _ => I).
  - exact calm_then.
  - intros b c Hc. apply traced_wrap; try exact I; [exact calm_then | exact Hc].
  - intros l H. simpl in H. rewrite forallb_forall in H.
    apply Forall_forall. intros t Ht. apply H. now apply list_elem_of_In.
  - intros m H. simpl in H. rewrite forallb_forall in H.
    apply Forall_forall. intros kv Hkv.
    apply list_elem_of_In, H in Hkv. now apply andb_prop in Hkv as [_ Hkv].
  - exact field_calm.
Qed.
End Calm.

Section Sorting.
Variable Sprintf : string -> list value -> string.
Variable p : Parser.

Lemma sort_fields_calm refs w : sort_fields Sprintf p refs <> Panic w.
Proof.
  induction refs as [|r refs IH]; [discriminate |].
  simpl. rewrite sort_field_cases.
  destruct (String.eqb r ""); [discriminate |].
  destruct (fields p !! field_of r) as [f|]; [| discriminate].
  destruct (Sortable f); [| discriminate]. simpl.
  destruct (sort_fields Sprintf p refs) as [cols | e | w']; simpl;
    [discriminate | discriminate | exact IH].
Qed.

Lemma sort_calm refs w : sort Sprintf p refs <> Panic w.
Proof.
  unfold sort. pose proof (sort_fields_calm refs) as H.
  destruct (sort_fields Sprintf p refs) as [cols | e | w']; simpl;
    [discriminate | discriminate | intros _; exact (H w' eq_refl)].
Qed.

Lemma sort_or_default_calm q w : sort_or_default Sprintf p q <> Panic w.
Proof.
  unfold sort_or_default. pose proof (sort_calm (Query.Sort q)) as H.
  destruct (sort Sprintf p (Query.Sort q)) as [s | e | w']; [| discriminate | apply H].
  destruct ((String.length s =? 0)%nat && (0 <? length (DefaultSort p))%nat);
    [apply sort_calm | discriminate].
Qed.

(** A query whose walk does not panic returns. *)
Lemma ParseQuery_returns q :
  traced p calm (and_ Sprintf p (Query.Filter q)) ->
  exists pr err, ParseQuery Sprintf p q = Returned pr err.
Proof.
  intros [r [Hw Hr]]. unfold ParseQuery. rewrite ParseQuery_body_stages.
  destruct (negb (0 <=? Query.Offset q)); [eauto |].
  destruct (negb (limit_ok p q)); [eauto |].
  rewrite Hw. destruct r as [cs | e | w]; [| eauto | contradiction Hr].
  pose proof (sort_or_default_calm q) as Hs.
  destruct (sort_or_default Sprintf p q) as [s | e | w]; [eauto | eauto |].
  now contradiction (Hs w).
Qed.
End Sorting.

(** X3: on a parser whose fields all have a validator and a converter
    that takes what the validator accepts, a query whose filter has no
    empty key in any object never makes [ParseQuery] panic: the call
    returns, with a Params or with a [*ParseError]. *)
Theorem sound_parser_never_panics
    (Sprintf : string -> list value -> string) (p : Parser) (q : Query.t) :
  sound_parser p ->
  no_empty_key (VMap (Query.Filter q)) = true ->
  exists pr err, ParseQuery Sprintf p q = Returned pr err.
Proof.
  intros Hp Hq. apply ParseQuery_returns. now apply and_calm.
Qed.

(** The fields of a table come from the list it was made of. *)
Lemma field_table_lookup (fs : list Field) k (f : Field) :
  field_table fs !! k = Some f -> In f fs /\ Name f = k.
Proof.
  unfold field_table. intros H. apply elem_of_list_to_map_2 in H.
  apply list_elem_of_In, in_map_iff in H as (f' & [= <- <-] & Hin). auto.
Qed.

Lemma default_field_sound
    (Sprintf : string -> list value -> string) (time_Parse : string -> string -> error)
    (f : Field) (vf : Validator) :
  ValidateFn f = Some vf ->
  GetValidateFn Sprintf time_Parse f = Some vf ->
  CovertFn f = Some (GetConverterFn f) ->
  sound_field f.
Proof.
  intros Hv Hg Hc. exists vf, (GetConverterFn f). split; [exact Hv |]. split; [exact Hc |].
  intros o v. now apply (default_functions_agree Sprintf time_Parse f f).
Qed.

Lemma example_fields_sound k (f : Field) :
  field_table [age_field; name_field; id_field] !! k = Some f -> sound_field f.
Proof.
  intros H. apply field_table_lookup in H as [H _].
  destruct H as [<- | [<- | [<- | []]]];
    eapply (default_field_sound Sprintf_ascii no_time_Parse); reflexivity.
Qed.

Lemma sound_parser_never_panics_witness :
  exists pr err,
    ParseQuery Sprintf_ascii example_parser
      (example_query 0 0 [] [("age", VMap [("$gt", VString "ten")])]) = Returned pr err.
Proof.
  apply (sound_parser_never_panics Sprintf_ascii example_parser
           (example_query 0 0 [] [("age", VMap [("$gt", VString "ten")])])).
  - exact example_fields_sound.
  - reflexivity.
Defined.

(** ** The gates of the filter walk (rql.go, 479-556) *)

Section Gate.
Variable Sprintf : string -> list value -> string.
Variable p : Parser.

Local Open Scope parse_scope.

Lemma gated_then r1 r2 :
  all_gated p r1 -> all_gated p r2 -> all_gated p (then_ r1 r2).
Proof.
  destruct r1 as [a | |], r2 as [b | |]; simpl; try tauto.
  intros Ha Hb. apply Forall_app. now split.
Qed.

Lemma gated_nil : all_gated p (Ok []).
Proof. constructor. Qed.

Lemma gated_sep s : all_gated p (Ok [Sep s]).
Proof. constructor; [exact I | constructor]. Qed.

Lemma gated_err e : all_gated p (ParseErr e).
Proof. exact I. Qed.

Lemma predicate_gated msg_ (f : Field) o v :
  (exists k, fields p !! k = Some f) ->
  Filterable f = true ->
  ((o = EQ /\ snd (as_map v) = false) \/ exists b, supports f (String b o) = true) ->
  traced p (all_gated p) (predicate Sprintf p msg_ f o v).
Proof.
  intros Hk Hf Ho. eexists. split; [apply predicate_writes |].
  destruct (call_ValidateFn f o v) as [[e|] | e | w]; simpl; try exact I.
  destruct (call_CovertFn f o v) as [arg | e | w]; simpl; try exact I.
  constructor; [| constructor]. simpl. auto.
Qed.

Lemma field_terms_gated (f : Field) terms i :
  (exists k, fields p !! k = Some f) ->
  Filterable f = true ->
  traced p (all_gated p) (field_terms Sprintf p f terms i).
Proof.
  intros Hk Hf. revert i. induction terms as [|[opName opVal] rest IH]; intros i.
  - apply traced_ret, gated_nil.
  - cbn [field_terms]. apply traced_seq; [exact gated_then | |].
    { apply traced_when; [exact gated_nil |]. apply traced_sep, gated_sep. }
    apply traced_lift; [exact gated_err | | intros; exact I].
    intros o Ho. apply (traced_expect Sprintf); [exact gated_err |]. intros Hsup.
    eapply traced_ext; [intros ps; apply predicate_then |].
    apply traced_seq; [exact gated_then | | apply IH].
    apply predicate_gated; [exact Hk | exact Hf |].
    right. destruct opName as [|b tail]; [discriminate Ho |].
    injection Ho as <-. now exists b.
Qed.

Lemma field_gated k (f : Field) v :
  fields p !! k = Some f -> Filterable f = true -> True ->
  traced p (all_gated p) (field Sprintf p f v).
Proof.
  intros Hk Hf _. unfold field. destruct (as_map v) as [terms ok] eqn:Hmap.
  apply traced_seq; [exact gated_then | |].
  { destruct ok; simpl when; [apply traced_ret, gated_nil |].
    apply (predicate_gated "invalid datatype for field %q"); [now exists k | exact Hf |].
    left. now rewrite Hmap. }
  apply traced_seq; [exact gated_then | |].
  { apply traced_when; [exact gated_nil |]. apply traced_sep, gated_sep. }
  apply traced_seq; [exact gated_then | |].
  { apply field_terms_gated; [now exists k | exact Hf]. }
  apply traced_when; [exact gated_nil |]. apply traced_sep, gated_sep.
Qed.

Lemma and_gated f : traced p (all_gated p) (and_ Sprintf p f).
Proof.
  apply (and_traced Sprintf p (all_gated p) (fun _ => True)).
  - exact gated_nil.
  - apply gated_sep.
  - apply gated_sep.
  - intros o. apply gated_sep.
  - exact gated_err.
  - exact gated_then.
  - intros b c Hc. apply traced_wrap; try apply gated_sep;
      [exact gated_nil | exact gated_then | exact Hc].
  - intros l _. apply Forall_forall. auto.
  - intros m _. apply Forall_forall. auto.
  - exact field_gated.
  - exact I.
Qed.
End Gate.

(** X4: the filter walk has two gates and nothing gets past them.
    In every Params that [ParseQuery] returns, the filter expression
    and its arguments are made of pieces whose predicates all belong
    to a field of the table that is filterable, under an operator that
    is the equality of the shorthand (on a value that is not an
    object) or a key of the field's operator set less its first
    byte. *)
Theorem filter_gates
    (Sprintf : string -> list value -> string) (p : Parser) (q : Query.t)
    (pr : Params.t) (err : option ParseError) :
  ParseQuery Sprintf p q = Returned (Some pr) err ->
  exists cs : list chunk,
    Params.FilterExp pr = chunks_text p cs /\
    Params.FilterArgs pr = chunks_args cs /\
    Forall (gated p) cs.
Proof.
  intros H. apply ParseQuery_Returned_Some in H as [H _].
  apply ParseQuery_body_Ok in H as (_ & _ & ps & s & Hand & _ & ->).
  destruct (and_gated Sprintf p (Query.Filter q)) as [r [Hw Hr]].
  destruct (writes_Ok_inv p _ r _ _ Hw Hand) as [cs [-> ->]].
  exists cs. simpl. auto.
Qed.

Lemma filter_gates_witness :
  exists cs : list chunk,
    "name = ? AND age > ?" = chunks_text example_parser cs /\
    [VString "foo"; VInt 10] = chunks_args cs /\
    Forall (gated example_parser) cs.
Proof.
  apply (filter_gates Sprintf_ascii example_parser
           (example_query 0 0 [] [("name", VString "foo");
                                  ("age", VMap [("$gt", number 10)])])
           {| Params.Limit := 25; Params.Offset := 0; Params.Select := "";
              Params.Sort := ""; Params.FilterExp := "name = ? AND age > ?";
              Params.FilterArgs := [VString "foo"; VInt 10] |} None).
  vm_compute. reflexivity.
Defined.

(** ** The text of a conjunction and of an operator object *)

Section Conjunction.
Variable Sprintf : string -> list value -> string.
Variable p : Parser.

Local Open Scope parse_scope.

Lemma AND_separator i ps :
  exists ps1,
    when (0 <? i)%nat (WriteString " AND ") ps = Ok (tt, ps1) /\
    Buffer ps1 = Buffer ps +:+ (if (0 <? i)%nat then " AND " else "") /\
    values ps1 = values ps.
Proof.
  destruct (0 <? i)%nat; simpl when.
  - eexists. split; [reflexivity |]. simpl. auto.
  - exists ps. unfold ret. now rewrite append_nil_r.
Qed.

Lemma parenthesis b c ps :
  exists ps1,
    when b (WriteByte c) ps = Ok (tt, ps1) /\
    Buffer ps1 = Buffer ps +:+ (if b then byte_string c else "") /\
    values ps1 = values ps.
Proof.
  destruct b; simpl when.
  - eexists. split; [reflexivity |]. simpl. auto.
  - exists ps. unfold ret. now rewrite append_nil_r.
Qed.

Lemma and_entries_Ok f i ps ps' :
  and_entries Sprintf p (and_value Sprintf p) f i ps = Ok (tt, ps') ->
  exists docs,
    Forall2 (fun kv d =>
               writes p (and_entry Sprintf p (and_value Sprintf p) (fst kv) (snd kv)) (Ok d))
            f docs /\
    Buffer ps' = Buffer ps +:+ group_text p " AND " i docs /\
    values ps' = values ps ++ concat (map chunks_args docs).
Proof.
  revert i ps. induction f as [|[k v] rest IH]; intros i ps H.
  - injection H as <-. exists []. simpl. rewrite append_nil_r, app_nil_r. auto.
  - cbn [and_entries] in H.
    destruct (AND_separator i ps) as (ps1 & Hw & Hb1 & Hv1).
    rewrite (bind_Ok _ _ ps tt ps1 Hw) in H.
    destruct (and_entry_writer Sprintf p (and_value Sprintf p) k v) as [r [Hr _]].
    { apply and_value_writer. }
    unfold bind at 1 in H. rewrite Hr in H.
    destruct r as [d | e | w]; try discriminate.
    apply IH in H as (docs & Hdocs & Hb & Hv).
    exists (d :: docs). split; [| split].
    + constructor; [exact Hr | exact Hdocs].
    + rewrite Hb. unfold emit. simpl. rewrite Hb1, !append_assoc. reflexivity.
    + rewrite Hv. unfold emit. simpl. rewrite Hv1, app_assoc. reflexivity.
Qed.

Lemma field_terms_Ok (f : Field) terms i ps ps' :
  field_terms Sprintf p f terms i ps = Ok (tt, ps') ->
  exists preds,
    Forall2 (operator_piece f) terms preds /\
    Buffer ps' = Buffer ps +:+ group_text p " AND " i (map (fun c => [c]) preds) /\
    values ps' = values ps ++ chunks_args preds.
Proof.
  revert i ps. induction terms as [|[k v] rest IH]; intros i ps H.
  - injection H as <-. exists []. simpl. rewrite append_nil_r, app_nil_r. auto.
  - cbn [field_terms] in H.
    destruct (AND_separator i ps) as (ps1 & Hw & Hb1 & Hv1).
    rewrite (bind_Ok _ _ ps tt ps1 Hw) in H.
    unfold bind, lift, expect in H.
    destruct (slice_from_1 k) as [o | e | w] eqn:Ho; simpl in H; try discriminate.
    destruct (supports f k) eqn:Hs; simpl in H; try discriminate.
    destruct (call_ValidateFn f o v) as [[bad|] | e | w] eqn:Hval; simpl in H;
      try discriminate.
    destruct (call_CovertFn f o v) as [arg | e | w] eqn:Hc; simpl in H;
      try discriminate.
    apply IH in H as (preds & Hp & Hb & Hv).
    exists (Pred f o v arg :: preds). split; [| split].
    + constructor; [| exact Hp]. exists o, arg. auto.
    + rewrite Hb. simpl. rewrite Hb1, !append_assoc. reflexivity.
    + rewrite Hv. simpl. rewrite Hv1, <- app_assoc. reflexivity.
Qed.

Lemma operator_pieces_args (f : Field) terms preds :
  Forall2 (operator_piece f) terms preds ->
  length (chunks_args preds) = length terms.
Proof.
  induction 1 as [|kv c terms preds (o & arg & _ & _ & _ & _ & ->) _ IH];
    [reflexivity |].
  simpl. now rewrite IH.
Qed.

Lemma Join_singletons (preds : list chunk) sep :
  Join (map (chunks_text p) (map (fun c => [c]) preds)) sep =
  Join (map (chunk_text p) preds) sep.
Proof.
  f_equal. rewrite map_map. apply map_ext. intros c. simpl. apply append_nil_r.
Qed.

Lemma field_object_Ok (f : Field) terms ps ps' :
  field Sprintf p f (VMap terms) ps = Ok (tt, ps') ->
  exists preds,
    Forall2 (operator_piece f) terms preds /\
    values ps' = values ps ++ chunks_args preds /\
    Buffer ps' =
      Buffer ps +:+ (if (1 <? length terms)%nat then "(" else "")
                +:+ Join (map (chunk_text p) preds) " AND "
                +:+ (if (1 <? length terms)%nat then ")" else "").
Proof.
  unfold field. cbn [as_map negb when]. intros H.
  unfold bind at 1, ret in H.
  destruct (parenthesis (1 <? length terms)%nat "(" ps) as (ps1 & Hp1 & Hb1 & Hv1).
  rewrite (bind_Ok _ _ ps tt ps1 Hp1) in H.
  unfold bind at 1 in H.
  destruct (field_terms Sprintf p f terms 0 ps1) as [[[] ps2] | e | w] eqn:Hterms;
    try discriminate.
  apply field_terms_Ok in Hterms as (preds & Hpreds & Hb & Hv).
  destruct (parenthesis (1 <? length terms)%nat ")" ps2) as (ps3 & Hp3 & Hb3 & Hv3).
  rewrite Hp3 in H. injection H as <-.
  exists preds. split; [exact Hpreds |]. split.
  - now rewrite Hv3, Hv, Hv1.
  - rewrite Hb3, Hb, Hb1, group_text_Join, Join_singletons, !append_assoc.
    reflexivity.
Qed.

Lemma silent_entry_Ok k v ps :
  silent_entry p k v ->
  and_entry Sprintf p (and_value Sprintf p) k v ps = Ok (tt, ps).
Proof.
  unfold and_entry.
  intros [[[-> | ->] ->] | (Hor & Hand & f & Hf & Hfilter & ->)].
  - now rewrite String.eqb_refl.
  - destruct (String.eqb_spec (op p AND) (op p OR)) as [E | _].
    + symmetry in E. now apply op_OR_AND in E.
    + now rewrite String.eqb_refl.
  - apply String.eqb_neq in Hor, Hand. rewrite Hor, Hand, Hf.
    unfold bind, lift, expect. rewrite Hfilter. reflexivity.
Qed.
End Conjunction.

(** X5: [and] writes the expressions of the entries of a document
    next to each other, " AND " between them and no parentheses around
    them; the arguments follow in the same order.  [docs] are the
    pieces each entry writes on its own. *)
Theorem conjunction_joined
    (Sprintf : string -> list value -> string) (p : Parser)
    (f : list (string * value)) (ps ps' : parseState) :
  and_ Sprintf p f ps = Ok (tt, ps') ->
  exists docs : list (list chunk),
    Forall2 (fun kv d =>
               writes p (and_entry Sprintf p (and_value Sprintf p) (fst kv) (snd kv)) (Ok d))
            f docs /\
    Buffer ps' = Buffer ps +:+ Join (map (chunks_text p) docs) " AND " /\
    values ps' = values ps ++ concat (map chunks_args docs).
Proof.
  unfold and_. cbn [and_value]. intros H.
  apply and_entries_Ok in H as (docs & Hdocs & Hb & Hv).
  exists docs. rewrite group_text_Join in Hb. auto.
Qed.

Lemma conjunction_joined_witness :
  exists docs : list (list chunk),
    Forall2 (fun kv d =>
               writes example_parser
                 (and_entry Sprintf_ascii example_parser
                    (and_value Sprintf_ascii example_parser) (fst kv) (snd kv)) (Ok d))
            [("name", VString "foo"); ("age", number 12)] docs /\
    Buffer {| Buffer := "name = ? AND age = ?"; values := [VString "foo"; VInt 12] |} =
      Buffer (newParseState example_parser) +:+
      Join (map (chunks_text example_parser) docs) " AND " /\
    values {| Buffer := "name = ? AND age = ?"; values := [VString "foo"; VInt 12] |} =
      values (newParseState example_parser) ++ concat (map chunks_args docs).
Proof.
  apply (conjunction_joined Sprintf_ascii example_parser
           [("name", VString "foo"); ("age", number 12)]
           (newParseState example_parser)
           {| Buffer := "name = ? AND age = ?"; values := [VString "foo"; VInt 12] |}).
  vm_compute. reflexivity.
Defined.

(** X6: an operator object on a field.  When [field] goes through on
    an object, every entry gave one predicate: its key is not empty
    and belongs to the field's operator set, the operator is the key
    less its first byte, the validator accepted the value and the
    converter made the argument.  The text is the predicates joined by
    " AND ", inside parentheses when the object has two entries or
    more; an empty object writes nothing.  One argument per entry. *)
Theorem operator_object
    (Sprintf : string -> list value -> string) (p : Parser) (f : Field)
    (terms : list (string * value)) (ps ps' : parseState) :
  field Sprintf p f (VMap terms) ps = Ok (tt, ps') ->
  exists preds : list chunk,
    Forall2 (operator_piece f) terms preds /\
    values ps' = values ps ++ chunks_args preds /\
    length (values ps') = (length (values ps) + length terms)%nat /\
    (terms = [] -> Buffer ps' = Buffer ps) /\
    (forall c, preds = [c] -> Buffer ps' = Buffer ps +:+ chunk_text p c) /\
    ((2 <= length terms)%nat ->
     Buffer ps' =
       Buffer ps +:+ "(" +:+ Join (map (chunk_text p) preds) " AND " +:+ ")").
Proof.
  intros H. apply field_object_Ok in H as (preds & Hpreds & Hv & Hb).
  exists preds. split; [exact Hpreds |]. split; [exact Hv |].
  pose proof (Forall2_length _ _ _ Hpreds) as Hlen.
  split; [| split; [| split]].
  - rewrite Hv, length_app. f_equal. apply (operator_pieces_args f), Hpreds.
  - intros ->. destruct preds; [| discriminate Hlen].
    simpl in Hb. now rewrite !append_nil_r in Hb.
  - intros c ->. destruct terms as [|t [|t' rest]]; try discriminate Hlen.
    simpl in Hb. now rewrite append_nil_r in Hb.
  - intros Hge. destruct (Nat.ltb_spec 1 (length terms)) as [_ |]; [| lia].
    exact Hb.
Qed.

Lemma operator_object_witness :
  exists preds : list chunk,
    Forall2 (operator_piece age_field) [("$gt", number 10); ("$lt", number 20)] preds /\
    values {| Buffer := "(age > ? AND age < ?)"; values := [VInt 10; VInt 20] |} =
      values (newParseState example_parser) ++ chunks_args preds /\
    length (values {| Buffer := "(age > ? AND age < ?)"; values := [VInt 10; VInt 20] |}) =
      (length (values (newParseState example_parser)) +
       length [("$gt", number 10); ("$lt", number 20)])%nat /\
    ([("$gt", number 10); ("$lt", number 20)] = [] ->
     Buffer {| Buffer := "(age > ? AND age < ?)"; values := [VInt 10; VInt 20] |} =
       Buffer (newParseState example_parser)) /\
    (forall c, preds = [c] ->
       Buffer {| Buffer := "(age > ? AND age < ?)"; values := [VInt 10; VInt 20] |} =
       Buffer (newParseState example_parser) +:+ chunk_text example_parser c) /\
    ((2 <= length [("$gt", number 10); ("$lt", number 20)])%nat ->
     Buffer {| Buffer := "(age > ? AND age < ?)"; values := [VInt 10; VInt 20] |} =
       Buffer (newParseState example_parser) +:+ "(" +:+
       Join (map (chunk_text example_parser) preds) " AND " +:+ ")").
Proof.
  apply (operator_object Sprintf_ascii example_parser age_field
           [("$gt", number 10); ("$lt", number 20)]
           (newParseState example_parser)
           {| Buffer := "(age > ? AND age < ?)"; values := [VInt 10; VInt 20] |}).
  vm_compute. reflexivity.
Defined.

(** X7: an entry that writes nothing still takes its place in the
    conjunction.  An empty array under [$or] or [$and], or an empty
    operator object on a filterable field, is accepted and adds no
    text and no argument of its own; after other entries the walk has
    already written " AND " for it, so the expression ends with a
    dangling " AND ". *)
Theorem silent_entry_keeps_separator
    (Sprintf : string -> list value -> string) (p : Parser)
    (l : list (string * value)) (k : string) (v : value) (ps ps1 : parseState) :
  silent_entry p k v ->
  and_ Sprintf p l ps = Ok (tt, ps1) ->
  and_ Sprintf p (l ++ [(k, v)]) ps =
  Ok (tt, {| Buffer := Buffer ps1 +:+ (if (0 <? length l)%nat then " AND " else "");
             values := values ps1 |}).
Proof.
  unfold and_. cbn [and_value]. intros Hs H.
  rewrite and_entries_app, H. cbn [and_entries].
  cbn [Nat.add].
  destruct (AND_separator (length l) ps1) as (ps2 & Hw & Hb & Hv).
  rewrite (bind_Ok _ _ ps1 tt ps2 Hw).
  rewrite (bind_Ok _ _ ps2 tt ps2 (silent_entry_Ok Sprintf p k v ps2 Hs)).
  unfold ret. rewrite <- Hb, <- Hv. now destruct ps2.
Qed.

Lemma silent_entry_keeps_separator_witness :
  and_ Sprintf_ascii example_parser ([("age", number 10)] ++ [("$or", VSlice [])])
       (newParseState example_parser) =
  Ok (tt, {| Buffer := Buffer {| Buffer := "age = ?"; values := [VInt 10] |} +:+
                       (if (0 <? length [("age", number 10)])%nat then " AND " else "");
             values := values {| Buffer := "age = ?"; values := [VInt 10] |} |}).
Proof.
  apply (silent_entry_keeps_separator Sprintf_ascii example_parser
           [("age", number 10)] "$or" (VSlice [])
           (newParseState example_parser)
           {| Buffer := "age = ?"; values := [VInt 10] |}).
  - left. split; [left |]; reflexivity.
  - vm_compute. reflexivity.
Defined.

Example dangling_AND :
  ParseQuery Sprintf_ascii example_parser
    (example_query 0 0 [] [("age", number 10); ("$or", VSlice [])]) =
  Returned (Some {| Params.Limit := 25; Params.Offset := 0; Params.Select := "";
                    Params.Sort := ""; Params.FilterExp := "age = ? AND ";
                    Params.FilterArgs := [VInt 10] |}) None.
Proof. vm_compute. reflexivity. Qed.

(** ** The default sort and the select list (rql.go, 202-206) *)



(** X9: the select list is not looked at.  [ParseQuery] joins the
    caller's select expressions with ", " whatever they are, and
    nothing else in its result depends on them: with another select
    list the call ends the same way, and a returned Params differs in
    its Select alone. *)
Theorem select_passes_through
    (Sprintf : string -> list value -> string) (p : Parser) (q : Query.t)
    (sel : list string) :
  ParseQuery Sprintf p (with_Select q sel) =
  match ParseQuery Sprintf p q with
  | Returned (Some pr) err =>
      Returned (Some {| Params.Limit := Params.Limit pr;
                        Params.Offset := Params.Offset pr;
                        Params.Select := Join sel ", ";
                        Params.Sort := Params.Sort pr;
                        Params.FilterExp := Params.FilterExp pr;
                        Params.FilterArgs := Params.FilterArgs pr |}) err
  | other => other
  end.
Proof.
  unfold ParseQuery. rewrite !ParseQuery_body_stages.
  unfold limit_ok, sort_or_default, with_Select. simpl.
  destruct (negb (0 <=? Query.Offset q)); [reflexivity |].
  destruct (negb ((Query.Limit q =? 0)
                  || (0 <? Query.Limit q) && (Query.Limit q <=? LimitMaxValue p)));
    [reflexivity |].
  destruct (and_ Sprintf p (Query.Filter q) (newParseState p)) as [[[] ps] | e | w];
    try reflexivity.
  destruct (sort Sprintf p (Query.Sort q)) as [s | e | w]; try reflexivity.
  destruct ((String.length s =? 0)%nat && (0 <? length (DefaultSort p))%nat);
    [| reflexivity].
  destruct (sort Sprintf p (DefaultSort p)) as [s' | e | w]; reflexivity.
Qed.

(** ** Column names (rql.go, 567-572) *)

Lemma replace_from_byte (old new : ascii) (s : string) :
  forall fuel, (String.length s <= fuel)%nat ->
  replace_from fuel s (byte_string old) (byte_string new) = replace_byte old new s.
Proof.
  induction s as [|c s IH]; intros fuel Hlen.
  - destruct fuel; reflexivity.
  - destruct fuel as [|fuel]; [simpl in Hlen; lia |].
    simpl in Hlen. cbn [replace_from HasPrefix byte_string replace_byte].
    rewrite (Ascii.eqb_sym old c).
    destruct (Ascii.eqb c old); destruct s; simpl; rewrite ?IH; try reflexivity;
      simpl in *; lia.
Qed.

Lemma replace_byte_same (c : ascii) (s : string) : replace_byte c c s = s.
Proof.
  induction s as [|a s IH]; [reflexivity |]. simpl. rewrite IH.
  destruct (Ascii.eqb_spec a c) as [-> |]; reflexivity.
Qed.

Lemma replace_byte_length (old new : ascii) (s : string) :
  String.length (replace_byte old new s) = String.length s.
Proof. induction s as [|a s IH]; [reflexivity |]. simpl. now rewrite IH. Qed.

Lemma replace_byte_count (old new : ascii) (s : string) :
  old <> new -> count_byte old (replace_byte old new s) = O.
Proof.
  intros Hne. induction s as [|a s IH]; [reflexivity |]. simpl. rewrite IH.
  destruct (Ascii.eqb_spec a old) as [-> | Ha].
  - destruct (Ascii.eqb_spec new old) as [E |]; [now contradiction Hne | reflexivity].
  - destruct (Ascii.eqb_spec a old) as [E |]; [now contradiction Ha | reflexivity].
Qed.

(** X10: with a separator of one byte, [colName] turns every
    separator byte of the field name into an underscore and touches
    nothing else: the column has the length of the name and, unless
    the separator is the underscore itself, no separator byte is
    left. *)
Theorem colName_single_byte (p : Parser) (c : ascii) (field : string) :
  FieldSep p = byte_string c ->
  colName p field = replace_byte c "_" field /\
  String.length (colName p field) = String.length field /\
  (c <> "_"%char -> count_byte c (colName p field) = O).
Proof.
  intros Hsep.
  assert (H : colName p field = replace_byte c "_" field).
  { unfold colName. rewrite Hsep. unfold DefaultFieldSep, byte_string.
    destruct (String.eqb_spec (String c "") "_") as [[= ->] | Hne]; simpl.
    - now rewrite replace_byte_same.
    - apply (replace_from_byte c "_"). lia. }
  rewrite H. split; [reflexivity |]. split.
  - apply replace_byte_length.
  - intros Hne. now apply replace_byte_count.
Qed.

Lemma colName_single_byte_witness :
  colName dotted_parser "address.name" = replace_byte "." "_" "address.name" /\
  String.length (colName dotted_parser "address.name") = String.length "address.name" /\
  ("."%char <> "_"%char -> count_byte "." (colName dotted_parser "address.name") = O).
Proof.
  apply (colName_single_byte dotted_parser "." "address.name"). reflexivity.
Defined.

(** * Construction (rql.go, 142-164, 342-428; config.go, 166-220) *)

(** ** The repository's tests, run *)

Example NewParser_nested :
  option_map (fun p => ParseQuery Sprintf_ascii p
                         (example_query 0 0 ["address.name"; "-address.zip.code"; "+age"]
                            [("address.zip.code", number 100)]))
    (the_parser (NewParser Sprintf_ascii no_time_Parse 10
                   (caller_config address_model "." 25 0))) =
  Some (Returned (Some {| Params.Limit := 25; Params.Offset := 0; Params.Select := "";
                          Params.Sort := "address_name, address_zip_code desc, age asc";
                          Params.FilterExp := "address_zip_code = ?";
                          Params.FilterArgs := [VInt 100] |}) None).
Proof. vm_compute. reflexivity. Qed.

Example NewParser_embedded :
  option_map (fun p => ParseQuery Sprintf_ascii p
                         (example_query 0 0 []
                            [("name", VString "foo"); ("age", number 12);
                             ("$or", VSlice [VMap [("address", VString "DC")];
                                             VMap [("address", VString "Marvel")]])]))
    (the_parser (NewParser Sprintf_ascii no_time_Parse 10
                   (caller_config embed_model "." 25 0))) =
  Some (Returned (Some {| Params.Limit := 25; Params.Offset := 0; Params.Select := "";
                          Params.Sort := "";
                          Params.FilterExp := "name = ? AND age = ? AND (address = ? OR address = ?)";
                          Params.FilterArgs := [VString "foo"; VInt 12; VString "DC";
                                                VString "Marvel"] |}) None).
Proof. vm_compute. reflexivity. Qed.

Example NewParser_unsupported :
  NewParser Sprintf_ascii no_time_Parse 10 (caller_config unsupported_model "" 0 0) =
  Some (Failed ("rql: field type for " +:+ quote_mark +:+ "Any" +:+ quote_mark
                +:+ " is not supported") []).
Proof. vm_compute. reflexivity. Qed.

(** ** TrimSpace leaves no space at the left

    The rounds given to [strip_all] are enough: nothing is left to
    strip. *)

Lemma HasPrefix_length s : forall pre,
  HasPrefix s pre = true -> (String.length pre <= String.length s)%nat.
Proof.
  induction s as [|c s IH]; intros [|a pre]; simpl; try lia; try discriminate.
  intros [_ H]%andb_prop. apply IH in H. lia.
Qed.

Lemma drop_bytes_length n : forall s,
  (n <= String.length s)%nat ->
  String.length (drop_bytes n s) = (String.length s - n)%nat.
Proof.
  induction n as [|n IH]; intros [|c s]; simpl; try lia.
  intros H. apply IH. lia.
Qed.

Lemma strip_one_shorter pres s rest :
  Forall (fun pre => pre <> "") pres ->
  strip_one pres s = Some rest ->
  (String.length rest < String.length s)%nat.
Proof.
  induction 1 as [|pre pres Hne _ IH]; [discriminate |].
  cbn [strip_one]. destruct (HasPrefix s pre) eqn:Hp; [| exact IH].
  intros [= <-]. apply HasPrefix_length in Hp.
  rewrite drop_bytes_length by exact Hp.
  destruct pre; [now contradiction Hne | simpl in *; lia].
Qed.

Lemma strip_all_done pres fuel : forall s,
  Forall (fun pre => pre <> "") pres ->
  (String.length s <= fuel)%nat ->
  strip_one pres (strip_all fuel pres s) = None.
Proof.
  induction fuel as [|fuel IH]; intros s Hpres Hlen; cbn [strip_all].
  - destruct (strip_one pres s) as [rest |] eqn:E; [| reflexivity].
    apply (strip_one_shorter pres s rest Hpres) in E. lia.
  - destruct (strip_one pres s) as [rest |] eqn:E; [| exact E].
    apply IH; [exact Hpres |].
    apply (strip_one_shorter pres s rest Hpres) in E. lia.
Qed.

Lemma TrimLeft_space_done s : strip_one space_runes (TrimLeft_space s) = None.
Proof.
  apply strip_all_done; [| apply Nat.le_refl].
  unfold space_runes. repeat constructor; discriminate.
Qed.

(** ** Induction on types *)

Lemma rtype_ind_nested (P : rtype -> Prop) :
  (forall e, P e -> P (PtrTo e)) ->
  (forall c ms, Forall (fun f : StructField_ => P (StructField.Type_ f)) ms ->
                P (Declared c ms)) ->
  forall t, P t.
Proof.
  intros HP HD. fix IH 1. intros [e | c ms].
  - apply HP, IH.
  - apply HD. induction ms as [|[n t tag a] ms IHms]; constructor;
      [apply IH | exact IHms].
Qed.

Lemma indirect_Declared t : exists c ms, indirect t = Declared c ms.
Proof.
  induction t as [e IH | c ms _] using rtype_ind_nested; [exact IH |].
  now exists c, ms.
Qed.

Lemma indirect_rounds t : rounds (indirect t) = rounds t.
Proof.
  induction t as [e IH | c ms _] using rtype_ind_nested; [exact IH | reflexivity].
Qed.

Lemma meets_indirect tn sep t f : meets tn sep (indirect t) f = meets tn sep t f.
Proof.
  induction t as [e IH | c ms _] using rtype_ind_nested; [exact IH | reflexivity].
Qed.

Lemma nested_field_Type sep f f1 :
  StructField.Type_ (nested_field sep f f1) = StructField.Type_ f1.
Proof. unfold nested_field. now destruct (StructField.Anonymous f). Qed.

(** ** Lists *)

Lemma flat_map_map {A B C} (g : A -> B) (h : B -> list C) (l : list A) :
  flat_map h (map g l) = flat_map (fun x => h (g x)) l.
Proof. induction l as [|x l IH]; [reflexivity |]. simpl. now rewrite IH. Qed.

Lemma rev_flat_map {A B} (h : A -> list B) (l : list A) :
  rev (flat_map h l) = flat_map (fun x => rev (h x)) (rev l).
Proof.
  induction l as [|x l IH]; [reflexivity |].
  simpl. rewrite rev_app_distr, IH, flat_map_app. simpl. now rewrite app_nil_r.
Qed.

Lemma fold_left_PushFront (xs l : list StructField_) :
  fold_left PushFront xs l = rev xs ++ l.
Proof.
  revert l. induction xs as [|x xs IH]; intros l; [reflexivity |].
  simpl. rewrite IH. unfold PushFront. now rewrite <- app_assoc.
Qed.

Lemma stack_rounds_app a b : stack_rounds (a ++ b) = (stack_rounds a + stack_rounds b)%nat.
Proof. unfold stack_rounds. now rewrite map_app, list_sum_app. Qed.

Lemma stack_rounds_rev a : stack_rounds (rev a) = stack_rounds a.
Proof.
  induction a as [|x a IH]; [reflexivity |].
  simpl. rewrite stack_rounds_app, IH. unfold stack_rounds. simpl. lia.
Qed.

Lemma stack_rounds_nested sep f ms :
  stack_rounds (map (nested_field sep f) ms) = stack_rounds ms.
Proof.
  unfold stack_rounds. rewrite map_map. f_equal. apply map_ext.
  intros f1. now rewrite nested_field_Type.
Qed.

Lemma stack_rounds_fields t : stack_rounds (struct_fields (indirect t)) = rounds t.
Proof.
  rewrite <- indirect_rounds. destruct (indirect_Declared t) as (c & ms & ->).
  reflexivity.
Qed.

(** ** The loop of [init] is a walk in depth *)

Section Init.
Variable Sprintf : string -> list value -> string.
Variable time_Parse : string -> string -> error.
Variable s : Schema.t.

Lemma below_cases sep f :
  below (Schema.TagName s) sep f =
  match Tag_Lookup (StructField.Tag f) (Schema.TagName s) with
  | Some _ => [Tagged f]
  | None =>
      if Kind_Struct (indirect (StructField.Type_ f)) then
        flat_map (below (Schema.TagName s) sep)
                 (map (nested_field sep f) (struct_fields (indirect (StructField.Type_ f))))
      else if StructField.Anonymous f then [Ignored (StructField.Name f)]
      else []
  end.
Proof.
  unfold below at 1. rewrite <- meets_indirect.
  destruct (indirect_Declared (StructField.Type_ f)) as (c & ms & ->).
  cbn [meets Kind_Struct struct_fields].
  destruct (Tag_Lookup (StructField.Tag f) (Schema.TagName s)); [reflexivity |].
  destruct (struct_class c); [| reflexivity].
  rewrite flat_map_map. apply flat_map_ext. intros f1.
  unfold below. now rewrite nested_field_Type.
Qed.

Lemma parseField_Config p f log p' log' :
  parseField Sprintf time_Parse s p f log = Built p' log' ->
  Config_ p' = Config_ p.
Proof.
  unfold parseField.
  destruct (parseField_field Sprintf time_Parse s p f log); intros [=]; now subst.
Qed.

Lemma run_app a b p log :
  run Sprintf time_Parse s (a ++ b) p log =
  match run Sprintf time_Parse s a p log with
  | Built p1 log1 => run Sprintf time_Parse s b p1 log1
  | Failed err log1 => Failed err log1
  end.
Proof.
  revert p log. induction a as [|[f | name] a IH]; intros p log; simpl.
  - reflexivity.
  - destruct (parseField Sprintf time_Parse s p f log); [apply IH | reflexivity].
  - apply IH.
Qed.

(** With a round for each field below the stack, the loop ends, and
    it has handled what is below the fields of the stack, each field's
    part from its last declared event to its first. *)
Lemma init_loop_run fuel : forall l p log,
  (stack_rounds l <= fuel)%nat ->
  init_loop Sprintf time_Parse s fuel l p log =
  Some (run Sprintf time_Parse s
          (flat_map (fun f => rev (below (Schema.TagName s) (FieldSep p) f)) l) p log).
Proof.
  induction fuel as [|fuel IH]; intros [|f l] p log Hfuel; try reflexivity.
  - unfold stack_rounds in Hfuel. simpl in Hfuel. lia.
  - assert (Hsplit : (S (rounds (StructField.Type_ f)) + stack_rounds l <= S fuel)%nat)
      by exact Hfuel.
    cbn [init_loop flat_map]. rewrite below_cases.
    destruct (Tag_Lookup (StructField.Tag f) (Schema.TagName s)).
    + cbn [rev app run].
      destruct (parseField Sprintf time_Parse s p f log) as [p' log' | err log'] eqn:Hp;
        [| reflexivity].
      apply parseField_Config in Hp. rewrite IH by lia.
      unfold FieldSep. now rewrite Hp.
    + destruct (Kind_Struct (indirect (StructField.Type_ f))).
      * rewrite IH.
        2:{ rewrite fold_left_PushFront, stack_rounds_app, stack_rounds_rev,
              stack_rounds_nested, stack_rounds_fields. lia. }
        rewrite fold_left_PushFront, flat_map_app, <- rev_flat_map. reflexivity.
      * destruct (StructField.Anonymous f).
        -- cbn [rev app run]. rewrite IH by lia. reflexivity.
        -- cbn [rev app]. rewrite IH by lia. reflexivity.
Qed.

Lemma init_loop_more fuel : forall l p log r fuel',
  init_loop Sprintf time_Parse s fuel l p log = Some r ->
  (fuel <= fuel')%nat ->
  init_loop Sprintf time_Parse s fuel' l p log = Some r.
Proof.
  induction fuel as [|fuel IH]; intros [|f l] p log r fuel' H Hle;
    try discriminate H.
  - destruct fuel'; exact H.
  - destruct fuel'; exact H.
  - destruct fuel' as [|fuel']; [lia |].
    cbn [init_loop] in H |- *.
    destruct (Tag_Lookup (StructField.Tag f) (Schema.TagName s)).
    + destruct (parseField Sprintf time_Parse s p f log); [| exact H].
      apply (IH _ _ _ _ _ H). lia.
    + destruct (Kind_Struct (indirect (StructField.Type_ f)));
        [| destruct (StructField.Anonymous f)]; apply (IH _ _ _ _ _ H); lia.
Qed.

Lemma init_run fuel p :
  (rounds (Schema.Model s) <= fuel)%nat ->
  init Sprintf time_Parse s fuel p =
  Some (run Sprintf time_Parse s (rev (declared s (FieldSep p))) p []).
Proof.
  intros Hfuel. unfold init, declared.
  rewrite init_loop_run.
  2:{ rewrite fold_left_PushFront, app_nil_r, stack_rounds_rev, stack_rounds_fields.
      exact Hfuel. }
  now rewrite fold_left_PushFront, app_nil_r, <- rev_flat_map.
Qed.

(** Whatever the rounds it was given, a loop that ended has done the
    walk. *)
Lemma init_Some fuel p r :
  init Sprintf time_Parse s fuel p = Some r ->
  r = run Sprintf time_Parse s (rev (declared s (FieldSep p))) p [].
Proof.
  intros H. unfold init in H.
  apply (init_loop_more _ _ _ _ _ (fuel + rounds (Schema.Model s))%nat) in H; [| lia].
  fold (init Sprintf time_Parse s (fuel + rounds (Schema.Model s)) p) in H.
  rewrite init_run in H by lia. now injection H.
Qed.
End Init.

(** ** What [parseField] builds *)

Section ParseFieldFacts.
Variable Sprintf : string -> list value -> string.
Variable time_Parse : string -> string -> error.
Variable s : Schema.t.

Lemma parseField_options_log opts : forall o log,
  parseField_options Sprintf time_Parse opts o log =
  match parseField_options Sprintf time_Parse opts o [] with
  | Built o' l => Built o' (log ++ l)
  | Failed err l => Failed err (log ++ l)
  end.
Proof.
  induction opts as [|opt rest IH]; intros o log; cbn [parseField_options].
  - now rewrite app_nil_r.
  - destruct (String.eqb (TrimSpace opt) "sort"); [apply IH |].
    destruct (String.eqb (TrimSpace opt) "filter"); [apply IH |].
    destruct (HasPrefix opt "column"); [apply IH |].
    destruct (HasPrefix opt "layout").
    + destruct (time_Parse _ _); [now rewrite app_nil_r | apply IH].
    + rewrite (IH o (log ++ _)), (IH o ([] ++ _)).
      destruct (parseField_options Sprintf time_Parse rest o []); simpl;
        now rewrite <- app_assoc.
Qed.

Lemma parseField_options_flags opts : forall o log o' log',
  parseField_options Sprintf time_Parse opts o log = Built o' log' ->
  opt_Sortable o' = opt_Sortable o || existsb (is_option "sort") opts /\
  opt_Filterable o' = opt_Filterable o || existsb (is_option "filter") opts.
Proof.
  unfold is_option.
  induction opts as [|opt rest IH]; intros o log o' log'; cbn [parseField_options existsb].
  - intros [= <- _]. now rewrite !orb_false_r.
  - destruct (String.eqb_spec (TrimSpace opt) "sort") as [-> | _].
    { intros H. apply IH in H as [-> ->]. simpl. now rewrite orb_true_r. }
    destruct (String.eqb_spec (TrimSpace opt) "filter") as [_ | _].
    { intros H. apply IH in H as [-> ->]. simpl. now rewrite orb_true_r. }
    cbn [orb].
    destruct (HasPrefix opt "column"); [intros H; now apply IH in H |].
    destruct (HasPrefix opt "layout").
    + destruct (time_Parse _ _); [discriminate |]. intros H. now apply IH in H.
    + intros H. now apply IH in H.
Qed.

Lemma parseField_FilterOps_Config p p' ops :
  Config_ p = Config_ p' -> parseField_FilterOps p ops = parseField_FilterOps p' ops.
Proof. unfold parseField_FilterOps, op. now intros ->. Qed.

Lemma parseField_field_indep p p' sf log f log' :
  Config_ p = Config_ p' ->
  parseField_field Sprintf time_Parse s p sf log = Built f log' ->
  exists l, parseField_field Sprintf time_Parse s p' sf [] = Built f l.
Proof.
  intros Hc. unfold parseField_field. rewrite parseField_options_log.
  destruct (parseField_options Sprintf time_Parse _ _ []) as [o l | err l];
    [| discriminate].
  destruct (length _ =? 0)%nat; [discriminate |].
  intros [= <- _]. rewrite (parseField_FilterOps_Config p p' _ Hc). eauto.
Qed.

Lemma FilterOps_fold p ops key : forall m : gmap string bool,
  fold_left (fun m o => <[op p o := true]> m) ops m !! key = Some true <->
  (exists o, In o ops /\ key = op p o) \/ m !! key = Some true.
Proof.
  induction ops as [|a ops IH]; intros m; cbn [fold_left].
  - split; [auto | intros [(o & [] & _) | H]; exact H].
  - rewrite IH. split.
    + intros [(o & Ho & ->) | H]; [left; exists o; simpl; auto |].
      apply lookup_insert_Some in H as [[<- _] | [_ H]]; [| now right].
      left. exists a. simpl. auto.
    + intros [(o & [<- | Ho] & ->) | H].
      * right. apply lookup_insert_Some. now left.
      * left. now exists o.
      * right. apply lookup_insert_Some.
        destruct (decide (op p a = key)) as [E | E]; [now left | now right].
Qed.

Lemma FilterOps_supports p ops key :
  default false (parseField_FilterOps p ops !! key) = true <->
  exists o, In o ops /\ key = op p o.
Proof.
  unfold parseField_FilterOps.
  destruct (FilterOps_fold p ops key ∅) as [H1 H2]. split.
  - destruct (fold_left _ ops ∅ !! key) as [[|]|] eqn:E; try discriminate.
    intros _. destruct (H1 eq_refl) as [H | H]; [exact H |].
    now rewrite lookup_empty in H.
  - intros H. now rewrite (H2 (or_introl H)).
Qed.

(** The field of one struct field, piece by piece. *)
Lemma parseField_field_Built p sf log f log' :
  parseField_field Sprintf time_Parse s p sf log = Built f log' ->
  Sortable f = existsb (is_option "sort") (tag_options s sf) /\
  Filterable f = existsb (is_option "filter") (tag_options s sf) /\
  Type_ f = class_of (indirect (StructField.Type_ sf)) /\
  Schema.GetSupportedOps s (bare f) <> [] /\
  FilterOps f = parseField_FilterOps p (Schema.GetSupportedOps s (bare f)) /\
  ValidateFn f = Schema.GetValidator s (bare f) /\
  CovertFn f = Schema.GetConverter s (bare f).
Proof.
  unfold parseField_field. fold (tag_options s sf).
  destruct (parseField_options Sprintf time_Parse _ _ log) as [o l | err l] eqn:Ho;
    [| discriminate].
  apply parseField_options_flags in Ho as [Hs Hf]. simpl in Hs, Hf.
  destruct (length _ =? 0)%nat eqn:Hlen; [discriminate |].
  intros [= <- _]. unfold bare. cbn.
  repeat split; try assumption.
  intros E. rewrite E in Hlen. discriminate Hlen.
Qed.

Lemma built_fields_In p sfs : forall fs (f : Field),
  built_fields Sprintf time_Parse s p sfs = Some fs -> In f fs ->
  exists sf l, In sf sfs /\ parseField_field Sprintf time_Parse s p sf [] = Built f l.
Proof.
  induction sfs as [|sf sfs IH]; intros fs f; cbn [built_fields].
  - intros [= <-] [].
  - destruct (parseField_field Sprintf time_Parse s p sf []) as [f0 l | err l] eqn:Hf;
      [| discriminate].
    destruct (built_fields Sprintf time_Parse s p sfs) as [fs0 |]; [| discriminate].
    intros [= <-] [<- | Hin].
    + exists sf, l. simpl. auto.
    + destruct (IH fs0 f eq_refl Hin) as (sf' & l' & Hin' & H').
      exists sf', l'. simpl. auto.
Qed.

(** The table after the walk: a field for every tagged struct field,
    the first declared registered last. *)
Lemma run_fields evs : forall p log p' log',
  run Sprintf time_Parse s (rev evs) p log = Built p' log' ->
  exists fs,
    built_fields Sprintf time_Parse s p (tagged_fields evs) = Some fs /\
    fields p' = foldr (fun (f : Field) m => <[Name f := f]> m) (fields p) fs /\
    Config_ p' = Config_ p.
Proof.
  induction evs as [|e evs IH]; intros p log p' log'.
  - intros [= <- _]. now exists [].
  - cbn [rev]. rewrite run_app.
    destruct (run Sprintf time_Parse s (rev evs) p log) as [p1 l1 | err l1] eqn:Hrun;
      [| discriminate].
    destruct (IH _ _ _ _ Hrun) as (fs & Hfs & Hfields & Hc).
    destruct e as [sf | name]; cbn [run tagged_fields flat_map app].
    + unfold parseField.
      destruct (parseField_field Sprintf time_Parse s p1 sf l1) as [f l2 | err l2] eqn:Hf;
        [| discriminate].
      intros [= <- _].
      destruct (parseField_field_indep p1 p sf l1 f l2 Hc Hf) as [l Hf'].
      exists (f :: fs). cbn [built_fields].
      fold (tagged_fields evs). rewrite Hf', Hfs. simpl.
      now rewrite Hfields.
    + intros [= <- _]. now exists fs.
Qed.

Lemma foldr_insert_table (fs : list Field) :
  foldr (fun (f : Field) m => <[Name f := f]> m) ∅ fs = field_table fs.
Proof. unfold field_table. induction fs as [|f fs IH]; [reflexivity |]. simpl. now rewrite IH. Qed.

Lemma field_table_find (fs : list Field) k :
  field_table fs !! k = find (fun f : Field => String.eqb (Name f) k) fs.
Proof.
  unfold field_table. induction fs as [|f fs IH]; [apply lookup_empty |].
  cbn [map find]. rewrite list_to_map_cons.
  destruct (String.eqb_spec (Name f) k) as [<- | Hne].
  - apply lookup_insert_eq.
  - rewrite lookup_insert_ne by exact Hne. exact IH.
Qed.
End ParseFieldFacts.

(** ** NewParser *)

Section NewParserFacts.
Variable Sprintf : string -> list value -> string.
Variable time_Parse : string -> string -> error.

Lemma NewParser_Some fuel c r :
  NewParser Sprintf time_Parse fuel c = Some r ->
  match defaults Sprintf time_Parse c with
  | inl err => r = Failed err []
  | inr (s, cfg) =>
      r = run Sprintf time_Parse s (rev (declared s (FieldSep cfg)))
            {| Config_ := cfg; fields := ∅ |} []
  end.
Proof.
  unfold NewParser. destruct (defaults Sprintf time_Parse c) as [err | [s cfg]].
  - now intros [= <-].
  - intros H. now apply init_Some in H.
Qed.

Lemma NewParser_fields fuel c p log :
  NewParser Sprintf time_Parse fuel c = Some (Built p log) ->
  exists s cfg fs,
    defaults Sprintf time_Parse c = inr (s, cfg) /\
    Config_ p = cfg /\
    built_fields Sprintf time_Parse s {| Config_ := cfg; fields := ∅ |}
      (tagged_fields (declared s (FieldSep cfg))) = Some fs /\
    fields p = field_table fs.
Proof.
  intros H. apply NewParser_Some in H.
  destruct (defaults Sprintf time_Parse c) as [err | [s cfg]]; [discriminate |].
  symmetry in H. apply run_fields in H as (fs & Hfs & Hfields & Hc).
  exists s, cfg, fs. simpl in Hfields, Hc.
  now rewrite foldr_insert_table in Hfields.
Qed.

Lemma defaults_hooks c s cfg :
  default_hooks c ->
  defaults Sprintf time_Parse c = inr (s, cfg) ->
  Schema.GetValidator s = GetValidateFn Sprintf time_Parse /\
  Schema.GetConverter s = (fun f => Some (GetConverterFn f)) /\
  Schema.GetSupportedOps s = GetSupportedOps.
Proof.
  intros (Hv & Hc & Ho). unfold defaults.
  destruct (Caller.Model c); [| discriminate].
  destruct (negb _); [discriminate |].
  intros [= <- _]. simpl. now rewrite Hv, Hc, Ho.
Qed.

Lemma default_built_sound s p sf log (f : Field) log' :
  Schema.GetValidator s = GetValidateFn Sprintf time_Parse ->
  Schema.GetConverter s = (fun f => Some (GetConverterFn f)) ->
  Schema.GetSupportedOps s = GetSupportedOps ->
  parseField_field Sprintf time_Parse s p sf log = Built f log' ->
  sound_field f.
Proof.
  intros Hv Hc Ho H.
  apply parseField_field_Built in H as (_ & _ & _ & Hops & _ & Hvf & Hcf).
  rewrite Ho in Hops. rewrite Hv in Hvf. rewrite Hc in Hcf.
  destruct (supported_has_validator Sprintf time_Parse (bare f) Hops) as [vf Hg].
  exists vf, (GetConverterFn (bare f)).
  split; [now rewrite Hvf |]. split; [exact Hcf |].
  intros o v. apply (default_functions_agree Sprintf time_Parse (bare f) f vf o v Hg).
Qed.

Lemma NewParser_sound fuel c p log :
  default_hooks c ->
  NewParser Sprintf time_Parse fuel c = Some (Built p log) ->
  sound_parser p.
Proof.
  intros Hd H. apply NewParser_fields in H as (s & cfg & fs & Hdef & _ & Hfs & Hfields).
  destruct (defaults_hooks c s cfg Hd Hdef) as (Hv & Hc & Ho).
  intros k f Hk. rewrite Hfields in Hk.
  apply field_table_lookup in Hk as [Hin _].
  destruct (built_fields_In Sprintf time_Parse s _ _ fs f Hfs Hin) as (sf & l & _ & Hb).
  exact (default_built_sound s _ sf [] f l Hv Hc Ho Hb).
Qed.
End NewParserFacts.

(** X11: [init] walks the model in depth and comes to an end.  With
    a round for every field below the model, the loop of [NewParser]
    ends, and it has handled the tagged fields and the embedded
    non-struct fields below the model one after the other from the
    last declared to the first, a struct's fields right after the
    struct (depth first, not breadth first), up to the first field
    that [parseField] refuses. *)
Theorem NewParser_walks_in_depth
    (Sprintf : string -> list value -> string) (time_Parse : string -> string -> error)
    (c : Caller.Config) (s : Schema.t) (cfg : Config) (fuel : nat) :
  defaults Sprintf time_Parse c = inr (s, cfg) ->
  (rounds (Schema.Model s) <= fuel)%nat ->
  NewParser Sprintf time_Parse fuel c =
  Some (run Sprintf time_Parse s (rev (declared s (FieldSep cfg)))
          {| Config_ := cfg; fields := ∅ |} []).
Proof.
  intros Hd Hf. unfold NewParser. rewrite Hd.
  exact (init_run Sprintf time_Parse s fuel {| Config_ := cfg; fields := ∅ |} Hf).
Qed.

Lemma NewParser_walks_in_depth_witness :
  NewParser Sprintf_ascii no_time_Parse 6 (caller_config address_model "." 25 0) =
  Some (run Sprintf_ascii no_time_Parse (default_schema address_model)
          (rev (declared (default_schema address_model) (FieldSep dotted_config)))
          {| Config_ := dotted_config; fields := ∅ |} []).
Proof.
  apply (NewParser_walks_in_depth Sprintf_ascii no_time_Parse
           (caller_config address_model "." 25 0)
           (default_schema address_model) dotted_config 6).
  - reflexivity.
  - vm_compute. lia.
Defined.

Example declared_address_model :
  map StructField.Name
      (tagged_fields (declared (default_schema address_model) ".")) =
  ["Age"; "Name"; "Address.Name"; "Address.ZIP.Code"].
Proof. vm_compute. reflexivity. Qed.

(** X12: the field table of a parser that [NewParser] returns.  It
    holds the fields [parseField] builds from the tagged struct fields
    below the model, and a key finds the first declared one among
    those with that column name: of two fields under one name, the one
    declared later is overwritten. *)
Theorem first_declared_field_wins
    (Sprintf : string -> list value -> string) (time_Parse : string -> string -> error)
    (fuel : nat) (c : Caller.Config) (p : Parser) (log : list log_entry) :
  NewParser Sprintf time_Parse fuel c = Some (Built p log) ->
  exists s cfg fs,
    defaults Sprintf time_Parse c = inr (s, cfg) /\
    Config_ p = cfg /\
    built_fields Sprintf time_Parse s {| Config_ := cfg; fields := ∅ |}
      (tagged_fields (declared s (FieldSep cfg))) = Some fs /\
    forall k, fields p !! k = find (fun f : Field => String.eqb (Name f) k) fs.
Proof.
  intros H. apply NewParser_fields in H as (s & cfg & fs & Hd & Hc & Hfs & Hfields).
  exists s, cfg, fs. repeat split; try assumption.
  intros k. rewrite Hfields. apply field_table_find.
Qed.

Lemma first_declared_field_wins_witness :
  exists s cfg fs,
    defaults Sprintf_ascii no_time_Parse (caller_config twice_model "" 0 0) = inr (s, cfg) /\
    Config_ (built_parser twice_built example_parser) = cfg /\
    built_fields Sprintf_ascii no_time_Parse s {| Config_ := cfg; fields := ∅ |}
      (tagged_fields (declared s (FieldSep cfg))) = Some fs /\
    forall k, fields (built_parser twice_built example_parser) !! k =
              find (fun f : Field => String.eqb (Name f) k) fs.
Proof.
  apply (first_declared_field_wins Sprintf_ascii no_time_Parse 2
           (caller_config twice_model "" 0 0)
           (built_parser twice_built example_parser) (built_log twice_built)).
  reflexivity.
Defined.

Example twice_model_first_wins :
  option_map (fun f : Field => (Type_ f, Filterable f, Sortable f))
             (fields (built_parser twice_built example_parser) !! "name") =
  Some (TyString, true, false).
Proof. vm_compute. reflexivity. Qed.

(** X14: a parser built by [NewParser] with the default resolution
    hooks does not panic on a query whose filter has no empty key:
    every field it registered has a validator and a converter that
    takes what the validator accepts, so [ParseQuery] returns. *)
Theorem built_parser_never_panics
    (Sprintf : string -> list value -> string) (time_Parse : string -> string -> error)
    (fuel : nat) (c : Caller.Config) (p : Parser) (log : list log_entry) (q : Query.t) :
  default_hooks c ->
  NewParser Sprintf time_Parse fuel c = Some (Built p log) ->
  no_empty_key (VMap (Query.Filter q)) = true ->
  exists pr err, ParseQuery Sprintf p q = Returned pr err.
Proof.
  intros Hd Hn Hq. apply ParseQuery_returns. apply and_calm; [| exact Hq].
  exact (NewParser_sound Sprintf time_Parse fuel c p log Hd Hn).
Qed.

Lemma built_eq (r : option (built Parser)) (d : Parser) :
  match r with Some (Built _ _) => true | _ => false end = true ->
  r = Some (Built (built_parser r d) (built_log r)).
Proof. destruct r as [[p l | err l] |]; [reflexivity | discriminate | discriminate]. Qed.

Lemma address_built_eq :
  address_built =
  Some (Built (built_parser address_built example_parser) (built_log address_built)).
Proof. apply built_eq. vm_compute. reflexivity. Qed.

Lemma twice_built_eq :
  twice_built =
  Some (Built (built_parser twice_built example_parser) (built_log twice_built)).
Proof. apply built_eq. vm_compute. reflexivity. Qed.

Lemma low_max_built_eq :
  low_max_built =
  Some (Built (built_parser low_max_built example_parser) (built_log low_max_built)).
Proof. apply built_eq. vm_compute. reflexivity. Qed.

Lemma built_parser_never_panics_witness :
  exists pr err,
    ParseQuery Sprintf_ascii (built_parser address_built example_parser)
      (example_query 0 0 [] [("address.zip.code", VMap [("$like", VBool true)])]) =
    Returned pr err.
Proof.
  apply (built_parser_never_panics Sprintf_ascii no_time_Parse 6
           (caller_config address_model "." 25 0)
           (built_parser address_built example_parser) (built_log address_built)
           (example_query 0 0 [] [("address.zip.code", VMap [("$like", VBool true)])])).
  - repeat split.
  - exact address_built_eq.
  - reflexivity.
Defined.

(** ** Refused fields *)

Section Refused.
Variable Sprintf : string -> list value -> string.
Variable time_Parse : string -> string -> error.
Variable s : Schema.t.

(** What [parseField] makes of a struct field does not depend on
    the fields registered so far, and the log only grows. *)
Lemma parseField_field_frame p p' sf log :
  Config_ p = Config_ p' ->
  parseField_field Sprintf time_Parse s p sf log =
  match parseField_field Sprintf time_Parse s p' sf [] with
  | Built f l => Built f (log ++ l)
  | Failed err l => Failed err (log ++ l)
  end.
Proof.
  intros Hc. unfold parseField_field.
  rewrite parseField_options_log.
  destruct (parseField_options Sprintf time_Parse _ _ []) as [o l | err l];
    [| reflexivity].
  destruct (length _ =? 0)%nat; [reflexivity |].
  now rewrite (parseField_FilterOps_Config p p' _ Hc).
Qed.

Lemma run_built evs : forall p log fs,
  built_fields Sprintf time_Parse s p (tagged_fields evs) = Some fs ->
  exists p' log',
    run Sprintf time_Parse s (rev evs) p log = Built p' log' /\
    Config_ p' = Config_ p.
Proof.
  induction evs as [|e evs IH]; intros p log fs H.
  - now exists p, log.
  - cbn [rev]. rewrite run_app.
    destruct e as [sf | name]; cbn [tagged_fields flat_map app built_fields] in H;
      fold (tagged_fields evs) in H.
    + destruct (parseField_field Sprintf time_Parse s p sf []) as [f l | err l] eqn:Hf;
        [| discriminate].
      destruct (built_fields Sprintf time_Parse s p (tagged_fields evs)) as [fs' |] eqn:Hfs;
        [| discriminate].
      destruct (IH p log fs' Hfs) as (p1 & l1 & -> & Hc).
      cbn [run]. unfold parseField.
      rewrite (parseField_field_frame p1 p sf l1 Hc), Hf.
      eexists _, _. split; [reflexivity |]. exact Hc.
    + destruct (IH p log fs H) as (p1 & l1 & -> & Hc).
      cbn [run]. eexists _, _. split; [reflexivity |]. exact Hc.
Qed.

Lemma run_refused a sf b p log fs err l :
  built_fields Sprintf time_Parse s p (tagged_fields b) = Some fs ->
  parseField_field Sprintf time_Parse s p sf [] = Failed err l ->
  exists log',
    run Sprintf time_Parse s (rev (a ++ Tagged sf :: b)) p log = Failed err log'.
Proof.
  intros Hb Hsf. rewrite rev_app_distr. cbn [rev]. rewrite <- app_assoc, run_app.
  destruct (run_built b p log fs Hb) as (p1 & l1 & -> & Hc).
  cbn [app run]. unfold parseField.
  rewrite (parseField_field_frame p1 p sf l1 Hc), Hsf. eauto.
Qed.
End Refused.

(** X13: which refusal [NewParser] reports.  When [parseField]
    refuses a tagged field and accepts every tagged field declared
    after it, the construction fails with the error of that field,
    whatever is declared before it: of several fields that cannot be
    registered, the last declared one is reported. *)
Theorem last_refused_field_reported
    (Sprintf : string -> list value -> string) (time_Parse : string -> string -> error)
    (c : Caller.Config) (s : Schema.t) (cfg : Config) (fuel : nat)
    (a b : list event) (sf : StructField_) (fs : list Field)
    (err : string) (l : list log_entry) :
  defaults Sprintf time_Parse c = inr (s, cfg) ->
  (rounds (Schema.Model s) <= fuel)%nat ->
  declared s (FieldSep cfg) = a ++ Tagged sf :: b ->
  built_fields Sprintf time_Parse s {| Config_ := cfg; fields := ∅ |}
    (tagged_fields b) = Some fs ->
  parseField_field Sprintf time_Parse s {| Config_ := cfg; fields := ∅ |} sf [] =
    Failed err l ->
  exists log, NewParser Sprintf time_Parse fuel c = Some (Failed err log).
Proof.
  intros Hd Hf Hdecl Hb Hsf. unfold NewParser. rewrite Hd.
  rewrite (init_run Sprintf time_Parse s fuel {| Config_ := cfg; fields := ∅ |} Hf).
  cbn [FieldSep Config_]. rewrite Hdecl.
  destruct (run_refused Sprintf time_Parse s a sf b
              {| Config_ := cfg; fields := ∅ |} [] fs err l Hb Hsf) as [log ->].
  now exists log.
Qed.

Lemma last_refused_field_reported_witness :
  exists log,
    NewParser Sprintf_ascii no_time_Parse 3 (caller_config refused_model "" 0 0) =
    Some (Failed ("rql: field type for " +:+ quote_mark +:+ "Any" +:+ quote_mark
                  +:+ " is not supported") log).
Proof.
  apply (last_refused_field_reported Sprintf_ascii no_time_Parse
           (caller_config refused_model "" 0 0)
           (default_schema refused_model) plain_config 3
           [Tagged (member "At" (basic TyTime) "filter,layout=Kitchen");
            Tagged (member "Age" (basic TyInt) "filter")]
           [] (member "Any" (basic TyOther) "filter") [] _ []).
  - reflexivity.
  - vm_compute. lia.
  - reflexivity.
  - reflexivity.
  - vm_compute. reflexivity.
Defined.

(** X15: what the tag decides.  In the field [parseField] builds,
    [Sortable] holds exactly when an option of the tag is "sort"
    between spaces, [Filterable] exactly when one is "filter"; an
    option cannot take a flag back and the order does not matter.
    The type is the struct field's behind its pointers.  The operator
    set is not empty, filterable or not, and its keys are exactly the
    operators the resolution hook gives for the field, each behind the
    operator prefix. *)
Theorem tag_decides
    (Sprintf : string -> list value -> string) (time_Parse : string -> string -> error)
    (s : Schema.t) (p : Parser) (sf : StructField_) (log : list log_entry)
    (f : Field) (log' : list log_entry) :
  parseField_field Sprintf time_Parse s p sf log = Built f log' ->
  (Sortable f = true <->
   exists opt, In opt (tag_options s sf) /\ TrimSpace opt = "sort") /\
  (Filterable f = true <->
   exists opt, In opt (tag_options s sf) /\ TrimSpace opt = "filter") /\
  Type_ f = class_of (indirect (StructField.Type_ sf)) /\
  (exists o, supports f (op p o) = true) /\
  (forall key,
     supports f key = true <->
     exists o, In o (Schema.GetSupportedOps s (bare f)) /\ key = op p o).
Proof.
  intros H.
  apply parseField_field_Built in H as (Hs & Hf & Ht & Hops & Hfo & _ & _).
  assert (Hflag : forall name,
             existsb (is_option name) (tag_options s sf) = true <->
             exists opt, In opt (tag_options s sf) /\ TrimSpace opt = name).
  { intros name. rewrite existsb_exists. unfold is_option.
    split; intros (opt & Hin & E); exists opt; (split; [exact Hin |]);
      now apply String.eqb_eq. }
  assert (Hsup : forall key,
             supports f key = true <->
             exists o, In o (Schema.GetSupportedOps s (bare f)) /\ key = op p o).
  { intros key. unfold supports. rewrite Hfo. apply FilterOps_supports. }
  split; [rewrite Hs; apply Hflag |].
  split; [rewrite Hf; apply Hflag |].
  split; [exact Ht |]. split; [| exact Hsup].
  destruct (Schema.GetSupportedOps s (bare f)) as [|o ops] eqn:E; [now contradiction Hops |].
  exists o. apply Hsup. exists o. simpl. auto.
Qed.

Lemma tag_decides_witness :
  (Sortable (parseField_resolve Sprintf_ascii no_time_Parse "$" "name" false true
               TyString RFC3339) = true <->
   exists opt, In opt (tag_options (default_schema example_model) spaced_field) /\
               TrimSpace opt = "sort") /\
  (Filterable (parseField_resolve Sprintf_ascii no_time_Parse "$" "name" false true
                 TyString RFC3339) = true <->
   exists opt, In opt (tag_options (default_schema example_model) spaced_field) /\
               TrimSpace opt = "filter") /\
  Type_ (parseField_resolve Sprintf_ascii no_time_Parse "$" "name" false true
           TyString RFC3339) =
    class_of (indirect (StructField.Type_ spaced_field)) /\
  (exists o, supports (parseField_resolve Sprintf_ascii no_time_Parse "$" "name" false true
                         TyString RFC3339) (op example_parser o) = true) /\
  (forall key,
     supports (parseField_resolve Sprintf_ascii no_time_Parse "$" "name" false true
                 TyString RFC3339) key = true <->
     exists o,
       In o (Schema.GetSupportedOps (default_schema example_model)
               (bare (parseField_resolve Sprintf_ascii no_time_Parse "$" "name" false true
                        TyString RFC3339))) /\
       key = op example_parser o).
Proof.
  apply (tag_decides Sprintf_ascii no_time_Parse (default_schema example_model)
           example_parser spaced_field []
           (parseField_resolve Sprintf_ascii no_time_Parse "$" "name" false true
              TyString RFC3339)
           [("Ignoring unknown option %q in struct tag", [VString "foo"])]).
  reflexivity.
Defined.

(** ** defaults *)

Lemma defaultString_filled (v x : string) : x <> "" -> defaultString v x <> "".
Proof.
  unfold defaultString. intros Hx.
  destruct (String.eqb_spec v ""); [exact Hx | assumption].
Qed.

Lemma defaultInt_filled (i v : Z) : v <> 0 -> defaultInt i v <> 0.
Proof.
  unfold defaultInt. intros Hv. destruct (Z.eqb_spec i 0); [exact Hv | assumption].
Qed.

(** X16: what [defaults] leaves.  Without a model, or with a model
    that is no struct behind its pointers, it fails.  Otherwise the
    tag name, the operator prefix and the field separator are not
    empty and the two limits are not zero: a value the caller set is
    kept, also a negative limit, and a value left empty or zero is
    replaced by the default; an empty prefix or a limit of zero cannot
    be configured.  The default sort is taken as it is. *)
Theorem defaults_fill
    (Sprintf : string -> list value -> string) (time_Parse : string -> string -> error)
    (c : Caller.Config) :
  (Caller.Model c = None ->
   defaults Sprintf time_Parse c = inl "rql: 'Model' is a required field") /\
  (forall model,
     Caller.Model c = Some model -> Kind_Struct (indirect model) = false ->
     defaults Sprintf time_Parse c = inl "rql: 'Model' must be a struct type") /\
  (forall s cfg,
     defaults Sprintf time_Parse c = inr (s, cfg) ->
     Caller.Model c = Some (Schema.Model s) /\
     Kind_Struct (indirect (Schema.Model s)) = true /\
     Schema.TagName s <> "" /\ OpPrefix cfg <> "" /\ FieldSep cfg <> "" /\
     DefaultLimit cfg <> 0 /\ LimitMaxValue cfg <> 0 /\
     (Caller.TagName c <> "" -> Schema.TagName s = Caller.TagName c) /\
     (Caller.OpPrefix c <> "" -> OpPrefix cfg = Caller.OpPrefix c) /\
     (Caller.FieldSep c <> "" -> FieldSep cfg = Caller.FieldSep c) /\
     (Caller.DefaultLimit c <> 0 -> DefaultLimit cfg = Caller.DefaultLimit c) /\
     (Caller.LimitMaxValue c <> 0 -> LimitMaxValue cfg = Caller.LimitMaxValue c) /\
     (Caller.TagName c = "" -> Schema.TagName s = DefaultTagName) /\
     (Caller.OpPrefix c = "" -> OpPrefix cfg = DefaultOpPrefix) /\
     (Caller.FieldSep c = "" -> FieldSep cfg = DefaultFieldSep) /\
     (Caller.DefaultLimit c = 0 -> DefaultLimit cfg = DefaultLimit_) /\
     (Caller.LimitMaxValue c = 0 -> LimitMaxValue cfg = DefaultMaxLimit) /\
     DefaultSort cfg = Caller.DefaultSort c).
Proof.
  unfold defaults. split; [| split].
  - now intros ->.
  - intros model -> ->. reflexivity.
  - intros s cfg. destruct (Caller.Model c) as [model |]; [| discriminate].
    destruct (Kind_Struct (indirect model)) eqn:Hk; [| discriminate].
    simpl. intros [= <- <-]. cbn.
    split; [reflexivity |]. split; [exact Hk |].
    split; [apply defaultString_filled; discriminate |].
    split; [apply defaultString_filled; discriminate |].
    split; [apply defaultString_filled; discriminate |].
    split; [apply defaultInt_filled; discriminate |].
    split; [apply defaultInt_filled; discriminate |].
    unfold defaultString, defaultInt.
    repeat split;
      try (intros H; match goal with
                     | H : _ <> "" |- _ => apply String.eqb_neq in H; now rewrite H
                     | H : _ <> 0 |- _ => apply Z.eqb_neq in H; now rewrite H
                     | H : _ = _ |- _ => now rewrite H
                     end).
Qed.

Lemma defaults_fill_witness :
  Caller.Model (caller_config example_model "" 0 10) = Some (Schema.Model (default_schema example_model)) /\
  Kind_Struct (indirect (Schema.Model (default_schema example_model))) = true /\
  Schema.TagName (default_schema example_model) <> "" /\
  OpPrefix (Config_ (built_parser low_max_built example_parser)) <> "" /\
  FieldSep (Config_ (built_parser low_max_built example_parser)) <> "" /\
  DefaultLimit (Config_ (built_parser low_max_built example_parser)) <> 0 /\
  LimitMaxValue (Config_ (built_parser low_max_built example_parser)) <> 0.
Proof.
  destruct (proj2 (proj2 (defaults_fill Sprintf_ascii no_time_Parse
                            (caller_config example_model "" 0 10)))
              (default_schema example_model)
              (Config_ (built_parser low_max_built example_parser)) eq_refl)
    as (H1 & H2 & H3 & H4 & H5 & H6 & H7 & _).
  repeat split; assumption.
Defined.

(** X17: the default limit is not held against the maximum.  When
    the caller configures a maximum below 25 and no default limit,
    [NewParser] accepts it, and a query without limit gets the limit
    25: more than the parser allows a query to ask for. *)
Theorem default_limit_not_capped
    (Sprintf : string -> list value -> string) (time_Parse : string -> string -> error)
    (fuel : nat) (c : Caller.Config) (p : Parser) (log : list log_entry)
    (q : Query.t) (pr : Params.t) (err : option ParseError) :
  NewParser Sprintf time_Parse fuel c = Some (Built p log) ->
  Caller.DefaultLimit c = 0 ->
  0 < Caller.LimitMaxValue c < DefaultLimit_ ->
  Query.Limit q = 0 ->
  ParseQuery Sprintf p q = Returned (Some pr) err ->
  Params.Limit pr = DefaultLimit_ /\ LimitMaxValue p < Params.Limit pr.
Proof.
  intros Hn Hd Hmax Hq H.
  apply NewParser_fields in Hn as (s & cfg & fs & Hdef & Hc & _ & _).
  unfold defaults in Hdef.
  destruct (Caller.Model c) as [model |]; [| discriminate].
  destruct (negb (Kind_Struct (indirect model))); [discriminate |].
  injection Hdef as _ <-.
  apply ParseQuery_Returned_Some in H as [H _].
  apply ParseQuery_body_Ok in H as (_ & _ & ps & srt & _ & _ & ->).
  cbn [Params.Limit]. rewrite Hq. cbn [Z.eqb].
  unfold DefaultLimit, LimitMaxValue. rewrite Hc. cbn.
  rewrite Hd. unfold defaultInt. cbn [Z.eqb].
  destruct (Z.eqb_spec (Caller.LimitMaxValue c) 0) as [E | _]; [lia |].
  split; [reflexivity | lia].
Qed.

Lemma default_limit_not_capped_witness :
  Params.Limit {| Params.Limit := 25; Params.Offset := 0; Params.Select := "";
                  Params.Sort := ""; Params.FilterExp := ""; Params.FilterArgs := [] |} =
    DefaultLimit_ /\
  LimitMaxValue (built_parser low_max_built example_parser) <
  Params.Limit {| Params.Limit := 25; Params.Offset := 0; Params.Select := "";
                  Params.Sort := ""; Params.FilterExp := ""; Params.FilterArgs := [] |}.
Proof.
  apply (default_limit_not_capped Sprintf_ascii no_time_Parse 3
           (caller_config example_model "" 0 10)
           (built_parser low_max_built example_parser) (built_log low_max_built)
           (example_query 0 0 [] [])
           {| Params.Limit := 25; Params.Offset := 0; Params.Select := "";
              Params.Sort := ""; Params.FilterExp := ""; Params.FilterArgs := [] |} None).
  - exact low_max_built_eq.
  - reflexivity.
  - vm_compute. split; reflexivity.
  - reflexivity.
  - vm_compute. reflexivity.
Defined.

(** ** The column and the layout of a field *)

Section Naming.
Variable Sprintf : string -> list value -> string.
Variable time_Parse : string -> string -> error.

Lemma parseField_options_last opts : forall o log o' log',
  parseField_options Sprintf time_Parse opts o log = Built o' log' ->
  opt_Name o' = match last_such names_column opts with
                | Some opt => TrimPrefix opt "column="
                | None => opt_Name o
                end /\
  opt_layout o' = match last_such names_layout opts with
                  | Some opt => option_layout opt
                  | None => opt_layout o
                  end.
Proof.
  induction opts as [|opt rest IH]; intros o log o' log';
    cbn [parseField_options last_such].
  - intros [= <- _]. auto.
  - unfold names_column at 2, names_layout at 2, is_option, option_layout.
    destruct (String.eqb (TrimSpace opt) "sort").
    { intros H. apply IH in H as [-> ->]. cbn.
      split; [destruct (last_such names_column rest) | destruct (last_such names_layout rest)];
        reflexivity. }
    destruct (String.eqb (TrimSpace opt) "filter").
    { intros H. apply IH in H as [-> ->]. cbn.
      split; [destruct (last_such names_column rest) | destruct (last_such names_layout rest)];
        reflexivity. }
    destruct (HasPrefix opt "column").
    { intros H. apply IH in H as [-> ->]. cbn.
      split; [destruct (last_such names_column rest) | destruct (last_such names_layout rest)];
        reflexivity. }
    destruct (HasPrefix opt "layout").
    + destruct (time_Parse _ _); [discriminate |].
      intros H. apply IH in H as [-> ->]. cbn [opt_Name opt_layout negb andb].
      split; [destruct (last_such names_column rest) | destruct (last_such names_layout rest)];
        reflexivity.
    + intros H. apply IH in H as [-> ->]. cbn [negb andb].
      split; [destruct (last_such names_column rest) | destruct (last_such names_layout rest)];
        reflexivity.
Qed.
End Naming.

(** X19: the column and the layout of a field.  The column name of
    the field [parseField] builds is what follows "column=" in the
    last option that starts with "column" (the whole option when it
    does not start with "column="), taken as it is; without such an
    option it is the naming function's result on the struct field's
    name.  The layout is that of the last option that starts with
    "layout": the standard layout of that name, or the text itself;
    without such an option it is RFC3339. *)
Theorem last_option_wins
    (Sprintf : string -> list value -> string) (time_Parse : string -> string -> error)
    (s : Schema.t) (p : Parser) (sf : StructField_) (log : list log_entry)
    (f : Field) (log' : list log_entry) :
  parseField_field Sprintf time_Parse s p sf log = Built f log' ->
  Name f = match last_such names_column (tag_options s sf) with
           | Some opt => TrimPrefix opt "column="
           | None => Schema.ColumnFn s (StructField.Name sf)
           end /\
  Layout f = match last_such names_layout (tag_options s sf) with
             | Some opt => option_layout opt
             | None => RFC3339
             end.
Proof.
  unfold parseField_field. fold (tag_options s sf).
  destruct (parseField_options Sprintf time_Parse _ _ log) as [o l | err l] eqn:Ho;
    [| discriminate].
  apply parseField_options_last in Ho as [Hn Hl]. cbn [opt_Name opt_layout] in Hn, Hl.
  destruct (length _ =? 0)%nat; [discriminate |].
  intros [= <- _]. cbn [Name Layout Meta]. auto.
Qed.

Lemma last_option_wins_witness :
  Name (parseField_resolve Sprintf_ascii no_time_Parse "$" "full_name" false true
          TyString RFC3339) =
    match last_such names_column (tag_options (default_schema example_model) renamed_field) with
    | Some opt => TrimPrefix opt "column="
    | None => Schema.ColumnFn (default_schema example_model) (StructField.Name renamed_field)
    end /\
  Layout (parseField_resolve Sprintf_ascii no_time_Parse "$" "full_name" false true
            TyString RFC3339) =
    match last_such names_layout (tag_options (default_schema example_model) renamed_field) with
    | Some opt => option_layout opt
    | None => RFC3339
    end.
Proof.
  apply (last_option_wins Sprintf_ascii no_time_Parse (default_schema example_model)
           example_parser renamed_field []
           (parseField_resolve Sprintf_ascii no_time_Parse "$" "full_name" false true
              TyString RFC3339) []).
  reflexivity.
Defined.

(** ** The operator tables (config.go, 39-73) *)

(** X20: the tables of config.go agree.  An operator has a rendering
    in [opFormat] exactly when [GetAllOps] lists it; no rendering
    holds a placeholder marker; every operator the default resolution
    gives a field has a rendering; and a direction has a rendering
    exactly when it is '+' or '-'. *)
Theorem operator_tables (o : Op) (d : Direction) (m : FieldMeta) :
  (In o GetAllOps <-> opFormat o <> "") /\
  marker_free (opFormat o) /\
  (In o (GetSupportedOps m) -> opFormat o <> "") /\
  (sortDirection d <> "" <-> d = ASC \/ d = DESC).
Proof.
  assert (Hall : In o GetAllOps <-> opFormat o <> "").
  { unfold GetAllOps, opFormat. split.
    - intros H. repeat (destruct H as [<- | H]; [discriminate |]). destruct H.
    - intros H. simpl.
      repeat match goal with
             | H : context [String.eqb o ?x] |- _ =>
                 destruct (String.eqb_spec o x) as [-> | ?]; [tauto |]
             end.
      now contradiction H. }
  split; [exact Hall |]. split; [| split].
  - unfold opFormat, marker_free.
    repeat match goal with
           | |- context [String.eqb o ?x] => destruct (String.eqb o x); [reflexivity |]
           end.
    reflexivity.
  - intros H. apply Hall. unfold GetSupportedOps in H. unfold GetAllOps.
    destruct (Type_ m); simpl in H |- *; tauto.
  - unfold sortDirection. split.
    + destruct (Ascii.eqb_spec d ASC) as [-> | _]; [auto |].
      destruct (Ascii.eqb_spec d DESC) as [-> | _]; [auto |]. intros H. now contradiction H.
    + intros [-> | ->]; discriminate.
Qed.

(** ** The order of a document's entries *)

Section Order.
Variable Sprintf : string -> list value -> string.
Variable p : Parser.

Local Open Scope parse_scope.

(** Entries that go through one by one go through together. *)
Lemma and_entries_all f docs :
  Forall2 (fun kv d =>
             writes p (and_entry Sprintf p (and_value Sprintf p) (fst kv) (snd kv)) (Ok d))
          f docs ->
  forall i ps,
    and_entries Sprintf p (and_value Sprintf p) f i ps =
    Ok (tt, {| Buffer := Buffer ps +:+ group_text p " AND " i docs;
               values := values ps ++ concat (map chunks_args docs) |}).
Proof.
  induction 1 as [|[k v] d f docs Hd _ IH]; intros i ps.
  - simpl. unfold ret. rewrite append_nil_r, app_nil_r. now destruct ps.
  - cbn [and_entries fst snd] in *.
    destruct (AND_separator i ps) as (ps1 & Hw & Hb1 & Hv1).
    rewrite (bind_Ok _ _ ps tt ps1 Hw).
    rewrite (bind_Ok _ _ ps1 tt (emit p ps1 d) (Hd ps1)).
    rewrite IH. unfold emit. cbn [Buffer values group_text map concat].
    rewrite Hb1, Hv1, !append_assoc, <- !app_assoc. reflexivity.
Qed.

Lemma and_permuted f f' ps ps1 :
  Permutation f f' ->
  and_ Sprintf p f ps = Ok (tt, ps1) ->
  exists ps2,
    and_ Sprintf p f' ps = Ok (tt, ps2) /\
    Permutation (values ps1) (values ps2).
Proof.
  unfold and_. cbn [and_value]. intros Hperm H.
  apply and_entries_Ok in H as (docs & Hdocs & _ & Hv).
  destruct (Permutation_Forall2 Hperm Hdocs) as (docs' & Hpd & Hdocs').
  eexists. split; [apply (and_entries_all f' docs' Hdocs') |].
  cbn [values]. rewrite Hv. apply Permutation_app_head.
  rewrite <- !flat_map_concat_map. now apply Permutation_flat_map.
Qed.
End Order.

(** X18: acceptance does not depend on the order in which the
    entries of the filter are visited.  If [ParseQuery] returns a
    Params for a query, it returns one for the same query with the
    entries of its filter in any other order: limit, offset, select
    and sort are the same and the filter arguments are the same up to
    their order. *)
Theorem acceptance_order_independent
    (Sprintf : string -> list value -> string) (p : Parser) (q : Query.t)
    (filter : list (string * value)) (pr : Params.t) (err : option ParseError) :
  Permutation (Query.Filter q) filter ->
  ParseQuery Sprintf p q = Returned (Some pr) err ->
  exists pr',
    ParseQuery Sprintf p (with_Filter q filter) = Returned (Some pr') None /\
    Params.Limit pr' = Params.Limit pr /\
    Params.Offset pr' = Params.Offset pr /\
    Params.Select pr' = Params.Select pr /\
    Params.Sort pr' = Params.Sort pr /\
    Permutation (Params.FilterArgs pr) (Params.FilterArgs pr').
Proof.
  intros Hperm H. apply ParseQuery_Returned_Some in H as [H _].
  apply ParseQuery_body_Ok in H as (Hoff & Hlim & ps & srt & Hand & Hsort & ->).
  destruct (and_permuted Sprintf p _ filter _ _ Hperm Hand) as (ps2 & Hand2 & Hargs).
  unfold ParseQuery. rewrite ParseQuery_body_stages.
  cbn [with_Filter Query.Offset Query.Filter].
  destruct (Z.leb_spec 0 (Query.Offset q)) as [_ |]; [| lia]. cbn [negb].
  change (limit_ok p (with_Filter q filter)) with (limit_ok p q). rewrite Hlim. cbn [negb].
  change (newParseState p) with {| Buffer := ""; values := [] |} in Hand, Hand2 |- *.
  rewrite Hand2.
  change (sort_or_default Sprintf p (with_Filter q filter))
    with (sort_or_default Sprintf p q).
  rewrite Hsort. eexists. split; [reflexivity |]. cbn. auto.
Qed.

Lemma acceptance_order_independent_witness :
  exists pr',
    ParseQuery Sprintf_ascii example_parser
      (with_Filter (example_query 0 0 [] [("name", VString "foo"); ("age", number 12)])
                   [("age", number 12); ("name", VString "foo")]) =
    Returned (Some pr') None /\
    Params.Limit pr' = 25 /\
    Params.Offset pr' = 0 /\
    Params.Select pr' = "" /\
    Params.Sort pr' = "" /\
    Permutation [VString "foo"; VInt 12] (Params.FilterArgs pr').
Proof.
  apply (acceptance_order_independent Sprintf_ascii example_parser
           (example_query 0 0 [] [("name", VString "foo"); ("age", number 12)])
           [("age", number 12); ("name", VString "foo")]
           {| Params.Limit := 25; Params.Offset := 0; Params.Select := "";
              Params.Sort := ""; Params.FilterExp := "name = ? AND age = ?";
              Params.FilterArgs := [VString "foo"; VInt 12] |} None).
  - apply perm_swap.
  - vm_compute. reflexivity.
Defined.

(** ** Parentheses come in pairs *)

Lemma balanced_append a b : balanced a -> balanced b -> balanced (a +:+ b).
Proof. unfold balanced. intros Ha Hb. rewrite !count_byte_append. lia. Qed.

Lemma opFormat_balanced o : balanced (opFormat o).
Proof.
  unfold opFormat, balanced.
  repeat match goal with
         | |- context [String.eqb o ?x] => destruct (String.eqb o x); [reflexivity |]
         end.
  reflexivity.
Qed.

Section Balanced.
Variable Sprintf : string -> list value -> string.
Variable p : Parser.
Hypothesis Hpred :
  forall k (f : Field) o, fields p !! k = Some f -> balanced (fmtOp p f o).
Hypothesis Hop : forall o, balanced (GetDBOp p o None).

Local Open Scope parse_scope.

Lemma balanced_nil : all_balanced p (Ok []).
Proof. reflexivity. Qed.

Lemma balanced_err e : all_balanced p (ParseErr e).
Proof. exact I. Qed.

Lemma balanced_text s : balanced s -> all_balanced p (Ok [Sep s]).
Proof. intros H. simpl. now rewrite append_nil_r. Qed.

Lemma balanced_then r1 r2 :
  all_balanced p r1 -> all_balanced p r2 -> all_balanced p (then_ r1 r2).
Proof.
  destruct r1 as [a | |], r2 as [b | |]; simpl; try tauto.
  intros Ha Hb. rewrite chunks_text_app. now apply balanced_append.
Qed.

Lemma balanced_wrap b (c : M unit) :
  traced p (all_balanced p) c ->
  traced p (all_balanced p) (when b (WriteByte "(") ;; c ;; when b (WriteByte ")")).
Proof.
  intros [r [Hw Hr]]. destruct b; simpl when.
  - exists (then_ (Ok [Sep "("]) (then_ r (Ok [Sep ")"]))). split.
    + apply writes_seq; [apply writes_WriteString |].
      apply writes_seq; [exact Hw | apply writes_WriteString].
    + destruct r as [cs | e | w]; try exact I.
      unfold all_balanced, balanced in *. cbn [then_ app chunks_text chunk_text].
      rewrite !count_byte_append, chunks_text_app, !count_byte_append.
      simpl. lia.
  - apply traced_seq; [exact balanced_then | apply traced_ret, balanced_nil |].
    apply traced_seq; [exact balanced_then | | apply traced_ret, balanced_nil].
    now exists r.
Qed.

Lemma predicate_balanced msg_ (f : Field) o v :
  (exists k, fields p !! k = Some f) ->
  traced p (all_balanced p) (predicate Sprintf p msg_ f o v).
Proof.
  intros [k Hk]. eexists. split; [apply predicate_writes |].
  destruct (call_ValidateFn f o v) as [[e|] | e | w]; simpl; try exact I.
  destruct (call_CovertFn f o v) as [arg | e | w]; simpl; try exact I.
  rewrite append_nil_r. exact (Hpred k f o Hk).
Qed.

Lemma field_terms_balanced (f : Field) terms i :
  (exists k, fields p !! k = Some f) ->
  traced p (all_balanced p) (field_terms Sprintf p f terms i).
Proof.
  intros Hk. revert i. induction terms as [|[opName opVal] rest IH]; intros i.
  - apply traced_ret, balanced_nil.
  - cbn [field_terms]. apply traced_seq; [exact balanced_then | |].
    { apply traced_when; [exact balanced_nil |].
      apply traced_sep, balanced_text. reflexivity. }
    apply traced_lift; [exact balanced_err | | intros; exact I].
    intros o _. apply (traced_expect Sprintf); [exact balanced_err |]. intros _.
    eapply traced_ext; [intros ps; apply predicate_then |].
    apply traced_seq; [exact balanced_then | | apply IH].
    now apply predicate_balanced.
Qed.

Lemma field_balanced k (f : Field) v :
  fields p !! k = Some f -> Filterable f = true -> True ->
  traced p (all_balanced p) (field Sprintf p f v).
Proof.
  intros Hk _ _. unfold field. destruct (as_map v) as [terms ok].
  apply traced_seq; [exact balanced_then | |].
  { apply traced_when; [exact balanced_nil |].
    apply (predicate_balanced "invalid datatype for field %q"). now exists k. }
  apply balanced_wrap, field_terms_balanced. now exists k.
Qed.

Lemma and_balanced f : traced p (all_balanced p) (and_ Sprintf p f).
Proof.
  apply (and_traced Sprintf p (all_balanced p) (fun _ => True)).
  - exact balanced_nil.
  - apply balanced_text. reflexivity.
  - apply balanced_text. reflexivity.
  - intros o. apply balanced_text, Hop.
  - exact balanced_err.
  - exact balanced_then.
  - exact balanced_wrap.
  - intros l _. apply Forall_forall. auto.
  - intros m _. apply Forall_forall. auto.
  - exact field_balanced.
  - exact I.
Qed.
End Balanced.

(** X21: parentheses come in pairs.  When the predicate texts of the
    table's fields and the renderings of the logical operators have as
    many opening as closing parentheses (none, with the default
    configuration and plain column names), every filter expression
    [ParseQuery] returns has as many opening as closing parentheses:
    the walk writes its own in pairs, around a group of two documents
    or more and around an operator object of two entries or more. *)
Theorem parentheses_paired
    (Sprintf : string -> list value -> string) (p : Parser) (q : Query.t)
    (pr : Params.t) (err : option ParseError) :
  (forall k (f : Field) o, fields p !! k = Some f -> balanced (fmtOp p f o)) ->
  (forall o, balanced (GetDBOp p o None)) ->
  ParseQuery Sprintf p q = Returned (Some pr) err ->
  balanced (Params.FilterExp pr).
Proof.
  intros Hpred Hop H. apply ParseQuery_Returned_Some in H as [H _].
  apply ParseQuery_body_Ok in H as (_ & _ & ps & s & Hand & _ & ->).
  destruct (and_balanced Sprintf p Hpred Hop (Query.Filter q)) as [r [Hw Hr]].
  destruct (writes_Ok_inv p _ r _ _ Hw Hand) as [cs [-> ->]].
  exact Hr.
Qed.

Lemma example_predicates_balanced k (f : Field) o :
  fields example_parser !! k = Some f -> balanced (fmtOp example_parser f o).
Proof.
  intros H. apply field_table_lookup in H as [H _].
  assert (Hfmt : forall name, balanced name -> balanced (name +:+ " " +:+ opFormat o +:+ " ?")).
  { intros name Hn. apply balanced_append; [exact Hn |].
    apply balanced_append; [reflexivity |].
    apply balanced_append; [apply opFormat_balanced | reflexivity]. }
  destruct H as [<- | [<- | [<- | []]]]; apply Hfmt; reflexivity.
Qed.

Lemma parentheses_paired_witness :
  balanced (Params.FilterExp
              {| Params.Limit := 25; Params.Offset := 0; Params.Select := "";
                 Params.Sort := "";
                 Params.FilterExp := "name = ? AND (age <> ? OR age <> ?)";
                 Params.FilterArgs := [VString "foo"; VInt 10; VInt 20] |}).
Proof.
  apply (parentheses_paired Sprintf_ascii example_parser
           (example_query 0 0 [] [("name", VString "foo"); ("$or", VSlice two_ages)])
           {| Params.Limit := 25; Params.Offset := 0; Params.Select := "";
              Params.Sort := "";
              Params.FilterExp := "name = ? AND (age <> ? OR age <> ?)";
              Params.FilterArgs := [VString "foo"; VInt 10; VInt 20] |} None).
  - exact example_predicates_balanced.
  - intros o. apply opFormat_balanced.
  - vm_compute. reflexivity.
Defined.

(** ** The entries of the field table *)

(** X22: the field table is keyed by column name.  In a parser
    [NewParser] returns, the field found under a key has that key as
    its name, so the predicate of a key is written with the column of
    that key, as its sort entry is; its operator set is not empty, and
    every key of the operator set is an operator behind the parser's
    operator prefix. *)
Theorem table_keyed_by_name
    (Sprintf : string -> list value -> string) (time_Parse : string -> string -> error)
    (fuel : nat) (c : Caller.Config) (p : Parser) (log : list log_entry)
    (k : string) (f : Field) :
  NewParser Sprintf time_Parse fuel c = Some (Built p log) ->
  fields p !! k = Some f ->
  Name f = k /\
  (forall o, fmtOp p f o = colName p k +:+ " " +:+ GetDBOp p o (Some (Meta f)) +:+ " ?") /\
  (exists o, supports f (op p o) = true) /\
  (forall key, supports f key = true -> exists o, key = OpPrefix p +:+ o).
Proof.
  intros Hn Hk.
  apply NewParser_fields in Hn as (s & cfg & fs & _ & Hc & Hfs & Hfields).
  rewrite Hfields in Hk. apply field_table_lookup in Hk as [Hin Hname].
  destruct (built_fields_In Sprintf time_Parse s _ _ fs f Hfs Hin) as (sf & l & _ & Hb).
  apply parseField_field_Built in Hb as (_ & _ & _ & Hops & Hfo & _ & _).
  assert (Hsup : forall key,
             supports f key = true <->
             exists o, In o (Schema.GetSupportedOps s (bare f)) /\ key = op p o).
  { intros key. unfold supports. rewrite Hfo.
    rewrite (parseField_FilterOps_Config {| Config_ := cfg; fields := ∅ |} p _ (eq_sym Hc)).
    apply FilterOps_supports. }
  split; [exact Hname |]. split; [| split].
  - intros o. unfold fmtOp. now rewrite Hname.
  - destruct (Schema.GetSupportedOps s (bare f)) as [|o ops]; [now contradiction Hops |].
    exists o. apply Hsup. exists o. simpl. auto.
  - intros key Hkey. apply Hsup in Hkey as (o & _ & ->). now exists o.
Qed.

Lemma table_keyed_by_name_witness :
  Name (parseField_resolve Sprintf_ascii no_time_Parse "$" "name" false true TyString RFC3339)
    = "name" /\
  (forall o,
     fmtOp (built_parser twice_built example_parser)
           (parseField_resolve Sprintf_ascii no_time_Parse "$" "name" false true
              TyString RFC3339) o =
     colName (built_parser twice_built example_parser) "name" +:+ " " +:+
     GetDBOp (built_parser twice_built example_parser) o
       (Some (Meta (parseField_resolve Sprintf_ascii no_time_Parse "$" "name" false true
                      TyString RFC3339))) +:+ " ?") /\
  (exists o,
     supports (parseField_resolve Sprintf_ascii no_time_Parse "$" "name" false true
                 TyString RFC3339)
              (op (built_parser twice_built example_parser) o) = true) /\
  (forall key,
     supports (parseField_resolve Sprintf_ascii no_time_Parse "$" "name" false true
                 TyString RFC3339) key = true ->
     exists o, key = OpPrefix (built_parser twice_built example_parser) +:+ o).
Proof.
  apply (table_keyed_by_name Sprintf_ascii no_time_Parse 2
           (caller_config twice_model "" 0 0)
           (built_parser twice_built example_parser) (built_log twice_built)
           "name"
           (parseField_resolve Sprintf_ascii no_time_Parse "$" "name" false true
              TyString RFC3339)).
  - exact twice_built_eq.
  - reflexivity.
Defined.

(** Below an embedded struct the names start afresh: the name the
    struct was reached by is not put in front. *)
Example embedded_inside_named :
  map StructField.Name (tagged_fields (declared (default_schema job_model) "_")) =
  ["Age"; "Name"; "Job_Title"] /\
  option_map (fun f : Field => Type_ f)
             (fields (built_parser job_built example_parser) !! "name") = Some TyString /\
  fields (built_parser job_built example_parser) !! "job_name" = None.
Proof. repeat split; vm_compute; reflexivity. Qed.
